(** * git-short-url: the commit-log record store of [repository.js]

    A shallow embedding of [src/repository.js] (the storage engine of the
    URL shortener) together with executable models of the packages it
    calls ([base-58], [Buffer], [url], [gray-matter]/[yaml], [nodegit] and
    [child_process]), and the properties of the specification proved or
    refuted against that embedding. *)

From Stdlib Require Import NArith ZArith Lia Ascii String List Bool.
From Stdlib.Strings Require Import Byte.
From stdpp Require Import base option strings list gmap sorting.

Open Scope string_scope.

(* ===================================================================== *)
(** * JavaScript values, completions and string primitives *)
(* ===================================================================== *)

Module JS.

(** libgit2 error codes the program inspects through [e.errno]. *)
Inductive Errno :=
| EAMBIGUOUS
| ENOTFOUND
| ENONFASTFORWARD
| ITEROVER
| EGENERIC.

(** What a [throw] carries: a [new Error(message)] of the program itself,
    a nodegit error with its [errno], a [TypeError] of the runtime, the
    YAML parser's exception, or the bare string [base-58] throws. *)
Inductive Exn :=
| Error (message : string)
| GitError (errno : Errno) (what : string)
| TypeError (message : string)
| YAMLException (message : string)
| Thrown (value : string).

(** The completion of a call: it returns a value or throws. *)
Inductive Completion (A : Type) :=
| Return (a : A)
| Throw (e : Exn).
Arguments Return {A} a.
Arguments Throw {A} e.

Definition bindC {A B} (c : Completion A) (k : A -> Completion B) : Completion B :=
  match c with
  | Return a => k a
  | Throw e => Throw e
  end.

(** The value of a normal completion, [None] for an abrupt one. *)
Definition returned {A} (c : Completion A) : option A :=
  match c with
  | Return a => Some a
  | Throw _ => None
  end.

#[global] Instance Errno_eq_dec : EqDecision Errno.
Proof. solve_decision. Defined.

#[global] Instance Exn_eq_dec : EqDecision Exn.
Proof. solve_decision. Defined.

(** ** Strings *)

(** [s.slice(0, n)] for a non-negative [n]. *)
Fixpoint slice0 (n : nat) (s : string) : string :=
  match n, s with
  | S n', String c s' => String c (slice0 n' s')
  | _, _ => EmptyString
  end.

(** [s.slice(n)] for a non-negative [n]. *)
Fixpoint sliceFrom (n : nat) (s : string) : string :=
  match n, s with
  | S n', String _ s' => sliceFrom n' s'
  | _, _ => s
  end.

(** White space removed by [String.prototype.trim], over the one-byte
    characters: TAB, LF, VT, FF, CR and SPACE. *)
Definition isWhiteSpace (c : ascii) : bool :=
  let n := nat_of_ascii c in
  (((9 <=? n) && (n <=? 13)) || (n =? 32))%nat.

Fixpoint trimStart (s : string) : string :=
  match s with
  | String c s' => if isWhiteSpace c then trimStart s' else s
  | EmptyString => EmptyString
  end.

(** [trimEnd] keeps a character when it is not white space or when
    something remains after it. *)
Fixpoint trimEnd (s : string) : string :=
  match s with
  | EmptyString => EmptyString
  | String c s' =>
      match trimEnd s' with
      | EmptyString => if isWhiteSpace c then EmptyString else String c EmptyString
      | t => String c t
      end
  end.

Definition trim (s : string) : string := trimEnd (trimStart s).

(** [s.split("\n")]: never empty, [""] splits into [[""]]. *)
Fixpoint split_nl (s : string) : list string :=
  match s with
  | EmptyString => [EmptyString]
  | String c s' =>
      if Ascii.eqb c "010"%char then EmptyString :: split_nl s'
      else match split_nl s' with
           | l :: ls => String c l :: ls
           | [] => [String c EmptyString]
           end
  end.

(** [lines.join("\n")]. *)
Fixpoint join_nl (ls : list string) : string :=
  match ls with
  | [] => EmptyString
  | [l] => l
  | l :: ls' => l +:+ String "010"%char (join_nl ls')
  end.

Definition startsWith (p s : string) : bool := String.prefix p s.

Definition ascii_in (c : ascii) (cs : string) : bool :=
  existsb (Ascii.eqb c) (list_ascii_of_string cs).

Fixpoint string_forallb (p : ascii -> bool) (s : string) : bool :=
  match s with
  | EmptyString => true
  | String c s' => p c && string_forallb p s'
  end.

Definition toLowerCase_char (c : ascii) : ascii :=
  let n := nat_of_ascii c in
  if ((65 <=? n) && (n <=? 90))%nat then ascii_of_nat (n + 32) else c.

Fixpoint toLowerCase (s : string) : string :=
  match s with
  | EmptyString => EmptyString
  | String c s' => String (toLowerCase_char c) (toLowerCase s')
  end.

End JS.
Export JS.

(* ===================================================================== *)
(** * [Buffer]: hexadecimal encoding of byte strings *)
(* ===================================================================== *)

Module Buffer.

Definition byte_of_N (n : N) : byte :=
  match Byte.of_N n with
  | Some b => b
  | None => x00
  end.

(** Value of a hexadecimal digit, either case. *)
Definition hexval (c : ascii) : option N :=
  let n := N_of_ascii c in
  if ((48 <=? n) && (n <=? 57))%N then Some (n - 48)%N
  else if ((97 <=? n) && (n <=? 102))%N then Some (n - 87)%N
  else if ((65 <=? n) && (n <=? 70))%N then Some (n - 55)%N
  else None.

Definition hexdigit (n : N) : ascii :=
  if (n <? 10)%N then ascii_of_N (n + 48) else ascii_of_N (n + 87).

(** The digits [toString('hex')] writes, and libgit2 prints ids with. *)
Definition isLowerHexChar (c : ascii) : bool :=
  let n := N_of_ascii c in
  (((48 <=? n) && (n <=? 57)) || ((97 <=? n) && (n <=? 102)))%N.

Definition isLowerHex (s : string) : bool := string_forallb isLowerHexChar s.

(** [Buffer.from(s, 'hex')]: two digits per byte; decoding stops at the
    first pair that is not hexadecimal, a trailing single digit is
    dropped. *)
Fixpoint from_hex (s : string) : list byte :=
  match s with
  | String a (String b s') =>
      match hexval a, hexval b with
      | Some h, Some l => byte_of_N (16 * h + l) :: from_hex s'
      | _, _ => []
      end
  | _ => []
  end.

(** [buf.toString('hex')]: two lower-case digits per byte. *)
Fixpoint toString_hex (buf : list byte) : string :=
  match buf with
  | [] => EmptyString
  | b :: buf' =>
      String (hexdigit (Byte.to_N b / 16))
        (String (hexdigit (Byte.to_N b mod 16)) (toString_hex buf'))
  end.

End Buffer.

(* ===================================================================== *)
(** * [base-58]: the Bitcoin-alphabet base-58 codec *)
(* ===================================================================== *)

Module base58.

Definition alphabet : string :=
  "123456789ABCDEFGHJKLMNPQRSTUVWXYZabcdefghijkmnopqrstuvwxyz".

Definition ALPHABET (d : N) : ascii :=
  nth (N.to_nat d) (list_ascii_of_string alphabet) "1"%char.

Fixpoint position (c : ascii) (l : list ascii) : option N :=
  match l with
  | [] => None
  | x :: l' => if Ascii.eqb c x then Some 0%N else N.succ <$> position c l'
  end.

Definition ALPHABET_MAP (c : ascii) : option N :=
  position c (list_ascii_of_string alphabet).

(** Digits of [n] in base [b], least significant first. *)
Fixpoint digits_le (fuel : nat) (b n : N) : list N :=
  match fuel with
  | O => []
  | S fuel' =>
      if (n =? 0)%N then [] else (n mod b)%N :: digits_le fuel' b (n / b)%N
  end.

(** Digits of [n] in base [b], most significant first; none for zero. *)
Definition digits (b n : N) : list N :=
  rev (digits_le (N.to_nat (N.size n)) b n).

(** The number a digit string denotes, most significant digit first. *)
Definition number (b : N) (ds : list N) : N :=
  fold_left (fun acc d => (acc * b + d)%N) ds 0%N.

Fixpoint leading {A} (p : A -> bool) (l : list A) : nat :=
  match l with
  | x :: l' => if p x then S (leading p l') else O
  | [] => O
  end.

(** [base58.encode(buffer)]: one ['1'] per leading zero byte, then the
    base-58 digits of the big-endian number the remaining bytes spell. *)
Definition encode (buffer : list byte) : string :=
  let z := leading (fun b => (Byte.to_N b =? 0)%N) buffer in
  string_of_list_ascii
    (repeat "1"%char z
     ++ map ALPHABET (digits 58 (number 256 (map Byte.to_N (drop z buffer)))))%list.

Fixpoint indices (cs : list ascii) : option (list N) :=
  match cs with
  | [] => Some []
  | c :: cs' =>
      match ALPHABET_MAP c, indices cs' with
      | Some d, Some ds => Some (d :: ds)
      | _, _ => None
      end
  end.

(** [base58.decode(string)]: throws on a character outside the alphabet;
    one zero byte per leading ['1'], then the bytes of the number. *)
Definition decode (s : string) : Completion (list byte) :=
  match indices (list_ascii_of_string s) with
  | None => Throw (Thrown "Base58.decode received unacceptable input.")
  | Some ds =>
      let z := leading (fun d => (d =? 0)%N) ds in
      Return (repeat x00 z
              ++ map Buffer.byte_of_N (digits 256 (number 58 (drop z ds))))%list
  end.

End base58.

(* ===================================================================== *)
(** * [url], [path]: the platform's URL parsers *)
(* ===================================================================== *)

Module node.

(** The parts of the platform whose behaviour the program relies on but
    that no property below depends on in detail: which strings the WHATWG
    parser behind [new URL(s)] accepts, how [path.join] normalises, and
    what the two GitHub remote patterns of [_getShortUrl] extract
    (user name and repository name). *)
Record Platform := {
  URL_parses : string -> bool;
  path_join : string -> string -> string;
  github_remote : string -> option (string * string);
}.

(** [new URL(url)]: [undefined] is converted to the string
    ["undefined"]; a string the parser rejects throws a [TypeError]. *)
Definition new_URL (P : Platform) (url : option string) : Completion unit :=
  let input := match url with Some s => s | None => "undefined" end in
  if URL_parses P input then Return tt else Throw (TypeError "Invalid URL").

Definition isProtocolChar (c : ascii) : bool :=
  let n := nat_of_ascii c in
  (((97 <=? n) && (n <=? 122)) || ((65 <=? n) && (n <=? 90))
   || ((48 <=? n) && (n <=? 57)))%nat
  || ascii_in c ".+-".

(** The run matched by [[a-z0-9.+-]*:] at the start of [s]. *)
Fixpoint protocol_run (s : string) : option string :=
  match s with
  | EmptyString => None
  | String c s' =>
      if isProtocolChar c then String c <$> protocol_run s'
      else if Ascii.eqb c ":"%char then Some ":" else None
  end.

(** [protocolPattern = /^[a-z0-9.+-]+:/i] of the legacy parser. *)
Definition protocolPattern (s : string) : option string :=
  match s with
  | String c _ => if isProtocolChar c then protocol_run s else None
  | EmptyString => None
  end.

(** [parse(url).protocol] of the legacy [url.parse]: the scheme with its
    colon, lower-cased, or [null]; a non-string argument throws. *)
Definition parse_protocol (url : option string) : Completion (option string) :=
  match url with
  | None => Throw (TypeError "The url argument must be of type string.")
  | Some s => Return (toLowerCase <$> protocolPattern (trim s))
  end.

End node.

(* ===================================================================== *)
(** * [yaml] and [gray-matter]: the front-matter block of a message *)
(* ===================================================================== *)

Module YAML.

(** [YAML.stringify] on an object whose values are plain one-line
    strings: one ["key: value"] line per own property, in property
    order. *)
Definition stringify_entry (kv : string * string) : string :=
  kv.1 +:+ ": " +:+ kv.2 +:+ String "010"%char EmptyString.


Definition stringify (obj : list (string * string)) : string :=
  foldr (fun kv acc => stringify_entry kv +:+ acc) EmptyString obj.

(** Keys and values that are written, and read back, as plain scalars
    on one line: a key is a letter followed by letters, digits, [_] and
    [-]; a value is a letter followed by letters, digits and the
    punctuation of URLs, and does not end in a colon. *)
Definition isLetter (c : ascii) : bool :=
  let n := nat_of_ascii c in
  (((97 <=? n) && (n <=? 122)) || ((65 <=? n) && (n <=? 90)))%nat.

Definition isDigit (c : ascii) : bool :=
  let n := nat_of_ascii c in ((48 <=? n) && (n <=? 57))%nat.

Definition isKeyChar (c : ascii) : bool :=
  isLetter c || isDigit c || ascii_in c "_-".

Definition isValueChar (c : ascii) : bool :=
  isLetter c || isDigit c || ascii_in c "_-./:~?=&%+@,".

Fixpoint last_char (s : string) : option ascii :=
  match s with
  | EmptyString => None
  | String c EmptyString => Some c
  | String _ s' => last_char s'
  end.

Definition plain_key (k : string) : bool :=
  match k with
  | EmptyString => false
  | String c _ => isLetter c && string_forallb isKeyChar k
  end.

Definition plain_value (v : string) : bool :=
  match v with
  | EmptyString => false
  | String c _ =>
      isLetter c && string_forallb isValueChar v
      && negb (bool_decide (last_char v = Some ":"%char))
  end.

(** Splits a line at its first [": "]. *)
Fixpoint split_colon (s : string) : option (string * string) :=
  match s with
  | EmptyString => None
  | String c s' =>
      if Ascii.eqb c ":"%char && startsWith " " s' then Some (EmptyString, sliceFrom 1 s')
      else (fun kv : string * string => (String c kv.1, kv.2)) <$> split_colon s'
  end.

(** The YAML engine on a block mapping of plain scalars: blank lines are
    skipped, a repeated key and a line that is no ["key: value"] pair are
    rejected. *)
Fixpoint load (lines : list string) (acc : gmap string string)
  : Completion (gmap string string) :=
  match lines with
  | [] => Return acc
  | l :: ls =>
      if String.eqb (trim l) EmptyString then load ls acc
      else match split_colon l with
           | Some (k, v) =>
               match acc !! k with
               | Some _ => Throw (YAMLException "duplicated mapping key")
               | None => load ls (<[k := v]> acc)
               end
           | None => Throw (YAMLException "can not read a block mapping entry")
           end
  end.

End YAML.

Module gray_matter.

Record File := {
  content : string;
  data : gmap string string;
}.

Fixpoint break_at (p : string -> bool) (ls : list string) : list string * list string :=
  match ls with
  | [] => ([], [])
  | l :: ls' =>
      if p l then ([], ls)
      else let r := break_at p ls' in (l :: r.1, r.2)
  end.

(** Removes one leading CR and then one leading LF. *)
Definition strip_newline (s : string) : string :=
  let s1 := if startsWith (String "013"%char EmptyString) s then sliceFrom 1 s else s in
  if startsWith (String "010"%char EmptyString) s1 then sliceFrom 1 s1 else s1.

(** [matter(input)]: without the opening ["---"] (or with a fourth
    dash) the whole input is content and [data] is empty.  Otherwise the
    block runs to the first following line that begins with ["---"]
    ([indexOf("\n---")]), is parsed by the YAML engine, and the content is
    what follows that delimiter, less one leading newline.  The rest of
    the opening line names the engine; only YAML is modelled. *)
Definition matter (input : string) : Completion File :=
  if negb (startsWith "---" input) || startsWith "----" input
  then Return {| content := input; data := ∅ |}
  else
    match split_nl (sliceFrom 3 input) with
    | [] => Return {| content := EmptyString; data := ∅ |}
    | language :: rest =>
        if negb (String.eqb (trim language) EmptyString
                 || String.eqb (trim language) "yaml")
        then Throw (Error "gray-matter engine is not modelled")
        else
          let parts := break_at (startsWith "---") rest in
          bindC (YAML.load parts.1 ∅) (fun d =>
          Return {| content :=
                      match parts.2 with
                      | [] => EmptyString
                      | delim :: body => strip_newline (join_nl (sliceFrom 3 delim :: body))
                      end;
                    data := d |})
    end.

End gray_matter.

(* ===================================================================== *)
(** * [nodegit] and [child_process]: the repository the program drives *)
(* ===================================================================== *)

Module git.

Record Signature := {
  name : string;
  when_time : Z;      (* seconds since the epoch *)
  when_offset : Z;    (* minutes east of UTC *)
}.

Record Commit := {
  id : string;        (* [String(commit.id())]: 40 lower-case hex digits *)
  message : string;
  author : Signature;
  committer : Signature;
  parents : list string;
}.

(** [commit.time()]: the committer's time stamp, which the walker sorts by. *)
Definition time (c : Commit) : Z := when_time (committer c).

(** The object database also holds trees, blobs and tags; of those only
    the id matters here. *)
Inductive GitObject :=
| CommitObject (c : Commit)
| OtherObject (oid : string).

Definition oid (o : GitObject) : string :=
  match o with
  | CommitObject c => id c
  | OtherObject i => i
  end.

Definition commits (objs : list GitObject) : list Commit :=
  flat_map (fun o => match o with CommitObject c => [c] | OtherObject _ => [] end) objs.

Inductive RepoState :=
| STATE_NONE
| STATE_MERGE
| STATE_REVERT
| STATE_CHERRYPICK
| STATE_BISECT
| STATE_REBASE
| STATE_APPLY_MAILBOX.

#[global] Instance RepoState_eq_dec : EqDecision RepoState.
Proof. solve_decision. Defined.

(** What [repo.mergeBranches] finds to do. *)
Inductive MergeAnswer :=
| UpToDate
| FastForward
| MergeCommit
| MergeFails (e : Exn).

(** The calls that leave the process: spawned commands and the remote
    and merge operations of the synchronisation step, in call order. *)
Inductive Call :=
| Exec (command : string)
| Push (remote : string) (refspecs : list string)
| Fetch (remote : string) (refspecs : list string)
| MergeBranches (to from : string).

(** The state of the world a method of [Repository] runs in.

    [object_id] stands for the SHA-1 the object store assigns to a new
    commit.  [push_answers], [fetch_answers] and [merge_answers] script
    what the remote and the merge machinery answer to the successive
    calls (an exhausted script answers with success and no change).
    [state_after_cleanup] is the state [repo.stateCleanup()] leaves. *)
Record World := {
  discoverable : bool;
  odb : list GitObject;
  branches : gmap string string;
  remote_refs : gmap string string;
  HEAD : string;
  remotes : gmap string string;
  index_conflicts : bool;
  index_patches : nat;
  state : RepoState;
  state_after_cleanup : RepoState;
  default_signature : Signature;
  object_id : list string -> Signature -> string -> string;
  push_answers : list (Completion unit);
  fetch_answers : list (Completion (list GitObject));
  merge_answers : list MergeAnswer;
  calls : list Call;
}.

(** ** The monad of asynchronous methods: state and exceptions.
    Every [await] is a bind; the state reached at a [throw] is kept. *)

Definition M (A : Type) : Type := World -> Completion A * World.

Definition ret {A} (a : A) : M A := fun w => (Return a, w).

Definition throw {A} (e : Exn) : M A := fun w => (Throw e, w).

Definition bind {A B} (m : M A) (k : A -> M B) : M B :=
  fun w => match m w with
           | (Return a, w') => k a w'
           | (Throw e, w') => (Throw e, w')
           end.

Definition lift {A} (c : Completion A) : M A := fun w => (c, w).

Definition gets {A} (f : World -> A) : M A := fun w => (Return (f w), w).

Definition modify (f : World -> World) : M unit := fun w => (Return tt, f w).

(** [try { body } catch (e) { handler(e) }]. *)
Definition tryCatch {A} (body : M A) (handler : Exn -> M A) : M A :=
  fun w => match body w with
           | (Return a, w') => (Return a, w')
           | (Throw e, w') => handler e w'
           end.

Definition errno (e : Exn) : option Errno :=
  match e with
  | GitError n _ => Some n
  | _ => None
  end.

Definition set_odb (objs : list GitObject) (w : World) : World :=
  {| discoverable := discoverable w; odb := objs; branches := branches w;
     remote_refs := remote_refs w; HEAD := HEAD w; remotes := remotes w;
     index_conflicts := index_conflicts w; index_patches := index_patches w;
     state := state w; state_after_cleanup := state_after_cleanup w;
     default_signature := default_signature w; object_id := object_id w;
     push_answers := push_answers w; fetch_answers := fetch_answers w;
     merge_answers := merge_answers w; calls := calls w |}.

Definition set_branches (b : gmap string string) (w : World) : World :=
  {| discoverable := discoverable w; odb := odb w; branches := b;
     remote_refs := remote_refs w; HEAD := HEAD w; remotes := remotes w;
     index_conflicts := index_conflicts w; index_patches := index_patches w;
     state := state w; state_after_cleanup := state_after_cleanup w;
     default_signature := default_signature w; object_id := object_id w;
     push_answers := push_answers w; fetch_answers := fetch_answers w;
     merge_answers := merge_answers w; calls := calls w |}.

Definition set_HEAD (h : string) (w : World) : World :=
  {| discoverable := discoverable w; odb := odb w; branches := branches w;
     remote_refs := remote_refs w; HEAD := h; remotes := remotes w;
     index_conflicts := index_conflicts w; index_patches := index_patches w;
     state := state w; state_after_cleanup := state_after_cleanup w;
     default_signature := default_signature w; object_id := object_id w;
     push_answers := push_answers w; fetch_answers := fetch_answers w;
     merge_answers := merge_answers w; calls := calls w |}.

Definition set_state (s : RepoState) (w : World) : World :=
  {| discoverable := discoverable w; odb := odb w; branches := branches w;
     remote_refs := remote_refs w; HEAD := HEAD w; remotes := remotes w;
     index_conflicts := index_conflicts w; index_patches := index_patches w;
     state := s; state_after_cleanup := state_after_cleanup w;
     default_signature := default_signature w; object_id := object_id w;
     push_answers := push_answers w; fetch_answers := fetch_answers w;
     merge_answers := merge_answers w; calls := calls w |}.

Definition set_push_answers (a : list (Completion unit)) (w : World) : World :=
  {| discoverable := discoverable w; odb := odb w; branches := branches w;
     remote_refs := remote_refs w; HEAD := HEAD w; remotes := remotes w;
     index_conflicts := index_conflicts w; index_patches := index_patches w;
     state := state w; state_after_cleanup := state_after_cleanup w;
     default_signature := default_signature w; object_id := object_id w;
     push_answers := a; fetch_answers := fetch_answers w;
     merge_answers := merge_answers w; calls := calls w |}.

Definition set_fetch_answers (a : list (Completion (list GitObject))) (w : World) : World :=
  {| discoverable := discoverable w; odb := odb w; branches := branches w;
     remote_refs := remote_refs w; HEAD := HEAD w; remotes := remotes w;
     index_conflicts := index_conflicts w; index_patches := index_patches w;
     state := state w; state_after_cleanup := state_after_cleanup w;
     default_signature := default_signature w; object_id := object_id w;
     push_answers := push_answers w; fetch_answers := a;
     merge_answers := merge_answers w; calls := calls w |}.

Definition set_merge_answers (a : list MergeAnswer) (w : World) : World :=
  {| discoverable := discoverable w; odb := odb w; branches := branches w;
     remote_refs := remote_refs w; HEAD := HEAD w; remotes := remotes w;
     index_conflicts := index_conflicts w; index_patches := index_patches w;
     state := state w; state_after_cleanup := state_after_cleanup w;
     default_signature := default_signature w; object_id := object_id w;
     push_answers := push_answers w; fetch_answers := fetch_answers w;
     merge_answers := a; calls := calls w |}.

Definition record_call (c : Call) (w : World) : World :=
  {| discoverable := discoverable w; odb := odb w; branches := branches w;
     remote_refs := remote_refs w; HEAD := HEAD w; remotes := remotes w;
     index_conflicts := index_conflicts w; index_patches := index_patches w;
     state := state w; state_after_cleanup := state_after_cleanup w;
     default_signature := default_signature w; object_id := object_id w;
     push_answers := push_answers w; fetch_answers := fetch_answers w;
     merge_answers := merge_answers w; calls := (calls w ++ [c])%list |}.

(** The repository with its call log erased: what the answers of the
    read operations depend on. *)
Definition forget_calls (w : World) : World :=
  {| discoverable := discoverable w; odb := odb w; branches := branches w;
     remote_refs := remote_refs w; HEAD := HEAD w; remotes := remotes w;
     index_conflicts := index_conflicts w; index_patches := index_patches w;
     state := state w; state_after_cleanup := state_after_cleanup w;
     default_signature := default_signature w; object_id := object_id w;
     push_answers := push_answers w; fetch_answers := fetch_answers w;
     merge_answers := merge_answers w; calls := [] |}.

Definition same_repo (w w' : World) : Prop := forget_calls w = forget_calls w'.

#[global] Instance same_repo_equiv : Equivalence same_repo.
Proof.
  unfold same_repo. split.
  - by intros w.
  - by intros w w'.
  - intros w1 w2 w3 H1 H2. by rewrite H1.
Qed.

(** An object id as libgit2 prints it: 40 lower-case hexadecimal digits. *)
Definition is_oid (s : string) : bool :=
  (String.length s =? 40)%nat && Buffer.isLowerHex s.

(** What the identifier search looks up: at least four and at most 40
    lower-case hexadecimal digits. *)
Definition prefix_of_oid (p : string) : Prop :=
  Buffer.isLowerHex p = true /\ (4 <= String.length p <= 40)%nat.

(** A well-formed object database: every id is an object id and no two
    objects share one. *)
Definition wf_odb (objs : list GitObject) : Prop :=
  NoDup (map oid objs) /\ Forall (fun o => is_oid (oid o) = true) objs.

(** [query m]: the result of [m] is determined by the repository, and
    [m] changes nothing but the call log. *)
Definition query {A} (m : M A) : Prop :=
  forall w w', same_repo w w' -> (m w).1 = (m w').1 /\ same_repo (m w).2 w'.

#[global] Instance wf_odb_dec objs : Decision (wf_odb objs).
Proof. unfold wf_odb. apply _. Defined.

End git.

Notation "'let*' x := m 'in' k" := (git.bind m (fun x => k))
  (at level 10, x name, m at level 100, k at level 200).
Notation "'let*' ' p := m 'in' k" := (git.bind m (fun p => k))
  (at level 10, p pattern, m at level 100, k at level 200).

Module nodegit.
Import git.

Definition isHexChar (c : ascii) : bool :=
  match Buffer.hexval c with Some _ => true | None => false end.

Definition isHex (s : string) : bool := string_forallb isHexChar s.

(** [Oid.fromString(s)]: between 1 and 40 hexadecimal digits of either
    case; anything else throws a generic libgit2 error. *)
Definition Oid_fromString (s : string) : Completion string :=
  let n := String.length s in
  if (0 <? n)%nat && (n <=? 40)%nat && isHex s then Return (toLowerCase s)
  else Throw (GitError EGENERIC "unable to parse OID").

(** The objects whose id begins with [prefix]. *)
Definition matching (prefix : string) (objs : list GitObject) : list GitObject :=
  List.filter (fun o => startsWith prefix (oid o)) objs.

(** [Commit.lookupPrefix(repo, Oid.fromString(shortId), len)].  A prefix
    below libgit2's minimum of four digits, and a prefix shared by several
    objects of any type, are reported as [EAMBIGUOUS]; no object, or a
    single one that is not a commit, as [ENOTFOUND]. *)
Definition Commit_lookupPrefix (shortId : string) (len : nat) : M Commit :=
  let* o := lift (Oid_fromString shortId) in
  if (len <? 4)%nat
  then throw (GitError EAMBIGUOUS "ambiguous lookup - OID prefix is too short")
  else
    let* objs := gets odb in
    match matching (slice0 len o) objs with
    | [] => throw (GitError ENOTFOUND "no match for id prefix")
    | [CommitObject c] => ret c
    | [OtherObject _] =>
        throw (GitError ENOTFOUND "the requested type does not match the type in the ODB")
    | _ => throw (GitError EAMBIGUOUS "multiple matches for id prefix")
    end.

Definition find_commit (i : string) (objs : list GitObject) : option Commit :=
  List.find (fun c => String.eqb (id c) i) (commits objs).

(** [repo.getCommit(id)] with a string id: the commit of exactly that
    40-digit id. *)
Definition getCommit (i : string) : M Commit :=
  if (String.length i =? 40)%nat && isHex i then
    let* objs := gets odb in
    match find_commit (toLowerCase i) objs with
    | Some c => ret c
    | None => throw (GitError ENOTFOUND "object not found")
    end
  else throw (GitError EGENERIC "unable to parse OID").

Definition rev_parse_disambiguate : string := "git rev-parse --disambiguate=".

(** [exec(command)] of [child_process]: the spawn is recorded; for
    [git rev-parse --disambiguate=<prefix>] the standard output lists, one
    per line, the ids of all objects that begin with the prefix. *)
Definition exec (command : string) : M string :=
  let* _ := modify (record_call (Exec command)) in
  let* objs := gets odb in
  if startsWith rev_parse_disambiguate command then
    let prefix := toLowerCase (sliceFrom (String.length rev_parse_disambiguate) command) in
    ret (String.concat EmptyString
           (map (fun o => oid o +:+ String "010"%char EmptyString) (matching prefix objs)))
  else ret EmptyString.

(** [NodeGitRepository.discover] followed by [open]. *)
Definition open_repository : M unit :=
  let* found := gets discoverable in
  if found then ret tt else throw (GitError ENOTFOUND "could not find repository").

(** [repo.getHeadCommit()]: resolves to [null] when HEAD names no commit. *)
Definition getHeadCommit : M (option Commit) :=
  gets (fun w => branches w !! HEAD w ≫= fun i => find_commit i (odb w)).

Definition getBranchCommit (branch : string) : M Commit :=
  let* found := gets (fun w => branches w !! branch ≫= fun i => find_commit i (odb w)) in
  match found with
  | Some c => ret c
  | None => throw (GitError ENOTFOUND "reference not found")
  end.

(** [repo.checkoutBranch(branch)]: HEAD moves to the branch; no branch
    tip moves. *)
Definition checkoutBranch (branch : string) : M unit :=
  let* tip := gets (fun w => branches w !! branch) in
  match tip with
  | Some _ => modify (set_HEAD branch)
  | None => throw (GitError ENOTFOUND "reference not found")
  end.

Definition refreshIndex : M unit := ret tt.

Definition hasConflicts : M bool := gets index_conflicts.

(** [(await Diff.treeToIndex(repo, headTree, index)).patches().length]. *)
Definition treeToIndex_patches : M nat := gets index_patches.

Definition stateCleanup : M unit :=
  fun w => (Return tt, set_state (state_after_cleanup w) w).

Definition Signature_default : M Signature := gets default_signature.

(** [repo.createCommitOnHead([], author, committer, message)]: the new
    commit has the head commit as its only parent (none in an empty
    repository) and the unchanged tree; the branch HEAD points at moves
    to it. *)
Definition createCommitOnHead (a c : Signature) (msg : string) : M string :=
  let* head := getHeadCommit in
  let ps := match head with Some h => [id h] | None => [] end in
  fun w =>
    let i := object_id w ps a msg in
    let new := {| id := i; message := msg; author := a; committer := c; parents := ps |} in
    (Return i,
     set_branches (<[HEAD w := i]> (branches w))
       (set_odb (odb w ++ [CommitObject new])%list w)).

(** [repo.getRemote(name)], returning the remote's URL. *)
Definition getRemote (remote : string) : M string :=
  let* url := gets (fun w => remotes w !! remote) in
  match url with
  | Some u => ret u
  | None => throw (GitError ENOTFOUND "remote does not exist")
  end.

Definition Remote_push (remote : string) (refspecs : list string) : M unit :=
  let* _ := modify (record_call (Push remote refspecs)) in
  fun w => match push_answers w with
           | [] => (Return tt, w)
           | a :: rest => (a, set_push_answers rest w)
           end.

(** [remote.fetch(refspecs)]: the objects received join the database. *)
Definition Remote_fetch (remote : string) (refspecs : list string) : M unit :=
  let* _ := modify (record_call (Fetch remote refspecs)) in
  fun w => match fetch_answers w with
           | [] => (Return tt, w)
           | Return objs :: rest =>
               (Return tt, set_odb (odb w ++ objs)%list (set_fetch_answers rest w))
           | Throw e :: rest => (Throw e, set_fetch_answers rest w)
           end.

(** [repo.mergeBranches(to, from)]: [to] names a local branch and [from]
    a remote-tracking reference. *)
Definition mergeBranches (to from : string) : M unit :=
  let* _ := modify (record_call (MergeBranches to from)) in
  fun w =>
    match branches w !! to, remote_refs w !! from with
    | Some ours, Some theirs =>
        let w' := set_merge_answers (tail (merge_answers w)) w in
        match merge_answers w with
        | [] | UpToDate :: _ => (Return tt, w')
        | FastForward :: _ => (Return tt, set_branches (<[to := theirs]> (branches w)) w')
        | MergeCommit :: _ =>
            let sig := default_signature w in
            let msg := "Merged " +:+ from +:+ " into " +:+ to in
            let i := object_id w [ours; theirs] sig msg in
            let new := {| id := i; message := msg; author := sig; committer := sig;
                          parents := [ours; theirs] |} in
            (Return tt,
             set_branches (<[to := i]> (branches w))
               (set_odb (odb w ++ [CommitObject new])%list w'))
        | MergeFails e :: _ => (Throw e, w')
        end
    | _, _ => (Throw (GitError ENOTFOUND "reference not found"), w)
    end.

(** ** [Revwalk] *)

Module Revwalk.

Definition SORT_NONE : Z := 0.
Definition SORT_TOPOLOGICAL : Z := 1.
Definition SORT_TIME : Z := 2.
Definition SORT_REVERSE : Z := 4.

(** [walker.sorting(...flags)] combines its arguments with bitwise or. *)
Definition sorting (flags : list Z) : Z := foldr Z.lor 0%Z flags.

(** One round of following parent links. *)
Definition step (objs : list GitObject) (s : gset string) : gset string :=
  s ∪ list_to_set
        (flat_map (fun c => if decide (id c ∈ s) then parents c else []) (commits objs)).

Fixpoint reach (n : nat) (objs : list GitObject) (s : gset string) : gset string :=
  match n with
  | O => s
  | S n' => reach n' objs (step objs s)
  end.

(** The ids reachable from [tips]; the number of objects bounds the
    depth of the history. *)
Definition ancestors (objs : list GitObject) (tips : list string) : gset string :=
  reach (List.length objs) objs (list_to_set tips).

(** Newest first; among equal time stamps the database order is kept. *)
Fixpoint insert_by_time (c : Commit) (l : list Commit) : list Commit :=
  match l with
  | [] => [c]
  | x :: l' => if (time x <? time c)%Z then c :: l else x :: insert_by_time c l'
  end.

Definition sort_by_time (l : list Commit) : list Commit :=
  foldr insert_by_time [] l.

(** The ids [walker.next()] hands out before it throws [ITEROVER]: the
    commits reachable from the pushed tips and not from the hidden ones,
    newest commit time first, and oldest first under [SORT.REVERSE]. *)
Definition walk (objs : list GitObject) (sort : Z) (tips hides : list string) : list string :=
  let seen := ancestors objs tips in
  let hidden := ancestors objs hides in
  let selected :=
    List.filter (fun c => bool_decide (id c ∈ seen) && negb (bool_decide (id c ∈ hidden)))
      (commits objs) in
  let ordered := sort_by_time selected in
  map id (if Z.testbit sort 2 then rev ordered else ordered).

(** [walker.next()] on the ids still to hand out. *)
Definition next (pending : list string) : Completion string * list string :=
  match pending with
  | [] => (Throw (GitError ITEROVER "iteration is over"), [])
  | i :: rest => (Return i, rest)
  end.

End Revwalk.

End nodegit.

(* ===================================================================== *)
(** * [repository.js] *)
(* ===================================================================== *)

Module repository.
Import git nodegit.

Definition MINIMUM_HASH : nat := 4.

Definition VALID_PROTOCOLS : list string := ["http"; "https"; "ftp"].

(** Values of the properties of a returned record. *)
Inductive Value :=
| VUndefined
| VNull
| VString (s : string)
| VDate (ms : Z).

#[global] Instance Value_eq_dec : EqDecision Value.
Proof. solve_decision. Defined.

(** A returned record is a plain object: property name to value. *)
Abbreviation Redirect := (gmap string Value).

(** The [Repository] instance: the constructor's arguments. *)
Record Repository := {
  path : string;
  branch : string;
  upstream : string;
  baseUrl : option string;
}.

(** The argument of [create]: the destructured properties and the rest
    properties [extra], in property order. *)
Record Fields := {
  url : option string;
  description : option string;
  shouldCommit : option bool;
  extra : list (string * string);
}.

(** [!p] for a Promise [p] that was not awaited: an object is truthy
    whatever it later resolves to. *)
Definition not_Promise {A} (p : M A) : bool := false.

Definition ovalue (o : option string) : Value :=
  match o with
  | Some s => VString s
  | None => VUndefined
  end.

Definition includes (l : list string) (x : option string) : bool :=
  match x with
  | Some s => existsb (String.eqb s) l
  | None => false
  end.

(** [/^[a-fA-F0-9]{4,}$/]. *)
Definition hex_of_at_least_4 (s : string) : bool :=
  (4 <=? String.length s)%nat && isHex s.

Section WithPlatform.

Context (P : node.Platform).

Definition hasStagedChanges : M bool :=
  let* head := getHeadCommit in
  match head with
  | None => ret false
  | Some _ =>
      let* patches := treeToIndex_patches in
      ret (0 <? patches)%nat
  end.

Definition isValidURL (url : option string) : Completion bool :=
  match
    bindC (node.new_URL P url) (fun _ =>
    bindC (node.parse_protocol url) (fun protocol =>
    Return (includes (map (fun x => toLowerCase x +:+ ":") VALID_PROTOCOLS) protocol)))
  with
  | Return b => Return b
  | Throw err => Return false
  end.

(** The [for (let id of commits)] loop of [disambigateCommit]. *)
Fixpoint first_commit (ids : list string) : M (option Commit) :=
  match ids with
  | [] => ret None
  | i :: rest =>
      tryCatch (let* c := getCommit i in ret (Some c))
               (fun e => first_commit rest)
  end.

Definition disambigateCommit (ambiguousId : string) : M (option Commit) :=
  if negb (hex_of_at_least_4 ambiguousId) then ret None
  else
    (* Only hex so this should be safe! *)
    let* stdout := exec ("git rev-parse --disambiguate=" +:+ ambiguousId) in
    let commits := split_nl (trim stdout) in
    first_commit commits.

Definition getCommitFromShortCommitId (shortId : string) : M (option Commit) :=
  tryCatch
    (let* c := Commit_lookupPrefix shortId (String.length shortId) in ret (Some c))
    (fun e =>
       if negb (bool_decide (errno e = Some EAMBIGUOUS)) then throw e
       else disambigateCommit shortId).

(** The [while (hashLength <= longId.length)] loop of [getShortId]; it
    falls through to [undefined]. *)
Fixpoint getShortId_loop (fuel : nat) (longId : string) (hashLength : nat)
  : M (option string) :=
  match fuel with
  | O => ret None
  | S fuel' =>
      if (hashLength <=? String.length longId)%nat then
        let shortId := slice0 hashLength longId in
        let* shortCommit := getCommitFromShortCommitId shortId in
        if match shortCommit with
           | Some sc => String.eqb (id sc) longId
           | None => false
           end
        then
          let shortIdBuffer := Buffer.from_hex shortId in
          ret (Some (base58.encode shortIdBuffer))
        else getShortId_loop fuel' longId (hashLength + 2)
      else ret None
  end.

Definition getShortId (commit : Commit) (hashLength : nat) : M (option string) :=
  let longId := id commit in
  getShortId_loop (S (String.length longId)) longId hashLength.

Definition path_join (a : string) (b : option string) : M string :=
  match b with
  | Some s => ret (node.path_join P a s)
  | None => throw (TypeError "The path argument must be of type string.")
  end.

Definition _getRepository : M unit := open_repository.

Definition _getShortUrl (this : Repository) (shortId : option string) : M Value :=
  match baseUrl this with
  | Some (String c b) => let* u := path_join (String c b) shortId in ret (VString u)
  | _ =>
      let* _ := _getRepository in
      let* upstreamUrl := getRemote (upstream this) in
      match node.github_remote P upstreamUrl with
      | Some (username, repo) =>
          let* u := path_join ("https://" +:+ username +:+ ".github.io/" +:+ repo) shortId in
          ret (VString u)
      | None => ret VNull
      end
  end.

(** The object literal [{ id, shortId, shortUrl, description, created,
    creator, ...data }]: the properties of [data] are defined last and
    replace derived properties of the same name. *)
Definition redirect_object (id shortId : option string) (shortUrl : Value)
    (description : string) (created : Value) (creator : string)
    (data : gmap string string) : Redirect :=
  (VString <$> data)
  ∪ <["id" := ovalue id]> (<["shortId" := ovalue shortId]> (<["shortUrl" := shortUrl]>
      (<["description" := VString description]> (<["created" := created]>
        (<["creator" := VString creator]> ∅))))).

Definition _formatRedirectCommit (this : Repository) (commit : Commit) : M Redirect :=
  let* _ := _getRepository in
  let* file := lift (gray_matter.matter (trim (message commit))) in
  let description := gray_matter.content file in
  let data := gray_matter.data file in
  let* valid := lift (isValidURL (data !! "url")) in
  if negb valid then throw (Error "Commit is not a Redirect")
  else
    let* id := getShortId commit 40 in
    let* shortId := getShortId commit MINIMUM_HASH in
    let offset := (when_offset (author commit) * 60)%Z in
    let created := VDate ((when_time (author commit) + offset) * 1000)%Z in
    let creator := name (author commit) in
    let* shortUrl := _getShortUrl this shortId in
    ret (redirect_object id shortId shortUrl description created creator data).

Definition get (this : Repository) (id : string) : M Redirect :=
  if String.eqb id EmptyString then throw (Error "Commit Not Found")
  else
    let* _ := _getRepository in
    let* bytes := lift (base58.decode id) in
    let shortCommitId := Buffer.toString_hex bytes in
    let* commit := getCommitFromShortCommitId shortCommitId in
    match commit with
    | None => throw (Error "Commit Not Found")
    | Some c => _formatRedirectCommit this c
    end.

(** Decoding an identifier and resolving it, as [get] does on its way
    to the commit: [base58.decode], [toString('hex')], then the lookup. *)
Definition resolve (id : string) : M (option Commit) :=
  let* bytes := lift (base58.decode id) in
  getCommitFromShortCommitId (Buffer.toString_hex bytes).

(** The number of hexadecimal digits an identifier encodes. *)
Definition encoded_hex_length (shortId : string) : option nat :=
  match base58.decode shortId with
  | Return bytes => Some (String.length (Buffer.toString_hex bytes))
  | Throw _ => None
  end.

(** The [created] value the read path derives from the author's time
    stamp and time-zone offset. *)
Definition created_of (c : Commit) : Value :=
  VDate ((when_time (author c) + when_offset (author c) * 60) * 1000)%Z.

(** The [while (true)] loop of [all]; the result lists what is yielded. *)
Fixpoint all_loop (this : Repository) (fuel : nat) (walker : list string)
  : M (list Redirect) :=
  match fuel with
  | O => ret []
  | S fuel' =>
      match Revwalk.next walker with
      | (Throw error, _) =>
          if bool_decide (errno error = Some ITEROVER) then ret []
          else throw error
      | (Return i, walker') =>
          let* yielded :=
            tryCatch (let* commit := getCommit i in
                      let* r := _formatRedirectCommit this commit in
                      ret [r])
                     (fun _ => ret []) in
          let* rest := all_loop this fuel' walker' in
          ret (yielded ++ rest)%list
      end
  end.

(** [walker.push(until)] and [walker.pushRange(from + "^.." + until)]:
    the pushed tips and the hidden commits, here for full commit ids. *)
Definition walker_push (until : string) : M (list string * list string) :=
  let* c := getCommit until in
  ret ([id c], []).

Definition walker_pushRange (from until : string) : M (list string * list string) :=
  let* f := getCommit from in
  let* u := getCommit until in
  match parents f with
  | p :: _ => ret ([id u], [p])
  | [] => throw (GitError ENOTFOUND "revspec not found")
  end.

Definition all (this : Repository) (from until : option string) : M (list Redirect) :=
  let* _ := _getRepository in
  let* until :=
    match until with
    | Some (String c u) => ret (String c u)
    | _ => let* latestCommit := getBranchCommit (branch this) in ret (id latestCommit)
    end in
  let* pushed :=
    match from with
    | Some (String c f) => walker_pushRange (String c f) until
    | _ => walker_push until
    end in
  let sort := Revwalk.sorting [Revwalk.SORT_TIME; Revwalk.SORT_REVERSE] in
  let* objs := gets odb in
  let walker := Revwalk.walk objs sort pushed.1 pushed.2 in
  all_loop this (S (List.length walker)) walker.

Definition push_refspec (this : Repository) : string :=
  "refs/heads/" +:+ branch this +:+ ":refs/heads/" +:+ branch this.

Definition fetch_refspec (this : Repository) : string :=
  "remotes/" +:+ upstream this +:+ "/" +:+ branch this +:+ ":refs/head/" +:+ branch this.

Definition commit (this : Repository) : M unit :=
  let* _ := _getRepository in
  let* remote := getRemote (upstream this) in
  tryCatch
    (Remote_push (upstream this) [push_refspec this])
    (fun e =>
       if negb (bool_decide (errno e = Some ENONFASTFORWARD)) then throw e
       else
         let* _ := Remote_fetch (upstream this) [fetch_refspec this] in
         let* _ := mergeBranches (branch this)
                     ("refs/remotes/" +:+ upstream this +:+ "/" +:+ branch this) in
         Remote_push (upstream this) [push_refspec this]).

Definition create (this : Repository) (fields : Fields) : M Redirect :=
  let* valid := lift (isValidURL (url fields)) in
  if negb valid then throw (Error "A Valid URL is required.")
  else
    let* _ := _getRepository in
    let* _ := checkoutBranch (branch this) in
    let metadata := ("url", default "undefined" (url fields)) :: extra fields in
    let description :=
      match description fields with
      | Some (String c d) => String c d
      | _ => EmptyString
      end in
    (* Craft our Commit Message. *)
    let message :=
      "---" +:+ String "010"%char (YAML.stringify metadata)
      +:+ "---" +:+ String "010"%char description in
    let* _ := refreshIndex in
    let* conflicts := hasConflicts in
    if conflicts
    then throw (Error "Datatabase Repository has Conflicts, cannot proceed.")
    else
      let* staged := hasStagedChanges in
      if staged
      then throw (Error "Datatabase Repository has Staged Changes, cannot proceed.")
      else
        if not_Promise getHeadCommit
        then throw (Error "Database Repository has not been initialized, cannot proceed.")
        else
          let* _ := stateCleanup in
          let* st := gets state in
          if negb (bool_decide (st = STATE_NONE))
          then throw (Error "Database Repository is in an invalid state.")
          else
            let* author := Signature_default in
            let* committer := Signature_default in
            let* i := createCommitOnHead author committer message in
            let* created := getCommit i in
            let* _ := (if default true (shouldCommit fields) then commit this else ret tt) in
            _formatRedirectCommit this created.

End WithPlatform.

(** The description [create] stores: [description || '']. *)
Definition description_of (fields : Fields) : string :=
  match description fields with
  | Some (String c d) => String c d
  | _ => EmptyString
  end.

(** The commit message [create] crafts. *)
Definition crafted_message (fields : Fields) : string :=
  "---" +:+ String "010"%char
            (YAML.stringify (("url", default "undefined" (url fields)) :: extra fields))
  +:+ "---" +:+ String "010"%char (description_of fields).

(** A [fields] argument within the reach of the model: the rest
    properties have distinct plain keys, none of them a name the
    parameter list of [create] takes out ([url], [description],
    [shouldCommit]), and plain values; the description does not end in
    white space. *)
Definition plain_fields (fields : Fields) : Prop :=
  NoDup (map fst (extra fields))
  /\ Forall (fun kv => YAML.plain_key kv.1 = true /\ YAML.plain_value kv.2 = true
                       /\ kv.1 <> "url" /\ kv.1 <> "description"
                       /\ kv.1 <> "shouldCommit")
            (extra fields)
  /\ trimEnd (description_of fields) = description_of fields.

#[global] Instance plain_fields_dec fields : Decision (plain_fields fields).
Proof. unfold plain_fields. apply _. Defined.

End repository.

(* ===================================================================== *)
(** * Concrete repositories *)
(* ===================================================================== *)

Module Examples.
Import git nodegit repository.

Definition LF : string := String "010"%char EmptyString.

(** A platform whose [new URL] accepts a scheme followed by anything. *)
Definition platform : node.Platform :=
  {| node.URL_parses := fun s =>
       match node.protocolPattern (trim s) with
       | Some p => (String.length p <? String.length (trim s))%nat
       | None => false
       end;
     node.path_join := fun a b => a +:+ "/" +:+ b;
     node.github_remote := fun _ => None |}.

Definition ann (t offset : Z) : Signature :=
  {| name := "ann"; when_time := t; when_offset := offset |}.

(** Two commits whose ids agree on [ab12] and differ at the fifth digit;
    the first was written ten hours east of UTC. *)
Definition first : Commit :=
  {| id := "ab12c00000000000000000000000000000000001";
     message := "---" +:+ LF +:+ "url: http://a.example/" +:+ LF +:+ "---" +:+ LF +:+ "first";
     author := ann 1000 600; committer := ann 1000 600; parents := [] |}.

Definition second : Commit :=
  {| id := "ab12d00000000000000000000000000000000002";
     message := "---" +:+ LF +:+ "url: http://b.example/" +:+ LF +:+ "---" +:+ LF;
     author := ann 2000 0; committer := ann 2000 0; parents := [id first] |}.

Definition world : World :=
  {| discoverable := true;
     odb := [CommitObject first; CommitObject second];
     branches := {[ "master" := id second ]};
     remote_refs := {[ "refs/remotes/origin/master" := id first ]};
     HEAD := "master";
     remotes := {[ "origin" := "git@example.org:ann/links.git" ]};
     index_conflicts := false;
     index_patches := 0;
     state := STATE_NONE;
     state_after_cleanup := STATE_NONE;
     default_signature := ann 3000 0;
     object_id := fun _ _ _ => "cd34e00000000000000000000000000000000003";
     push_answers := [];
     fetch_answers := [];
     merge_answers := [];
     calls := [] |}.

(** A third commit that is no record (a merge), and one whose header
    carries an [id] of its own. *)
Definition merge : Commit :=
  {| id := "0f00ba0000000000000000000000000000000004";
     message := "Merged refs/remotes/origin/master into master";
     author := ann 2500 0; committer := ann 2500 0;
     parents := [id second; id first] |}.

Definition renamed : Commit :=
  {| id := "77aa110000000000000000000000000000000005";
     message := "---" +:+ LF +:+ "url: http://c.example/" +:+ LF +:+ "id: mine" +:+ LF
                +:+ "---" +:+ LF +:+ "third";
     author := ann 2600 0; committer := ann 2600 0; parents := [id merge] |}.

Definition world_with_merge : World :=
  set_branches {[ "master" := id renamed ]}
    (set_odb (odb world ++ [CommitObject merge; CommitObject renamed])%list world).

(** The remote rejects the first push as not fast-forward. *)
Definition world_rejected : World :=
  set_push_answers
    [Throw (GitError ENONFASTFORWARD "cannot push non-fastforwardable reference")] world.

(** A merge is in progress; [stateCleanup] removes its metadata. *)
Definition world_mid_merge : World := set_state STATE_MERGE world.

(** The tracked branch names a commit that is not in the database, so
    [getHeadCommit] resolves to [null] after the checkout. *)
Definition world_without_head : World :=
  set_branches {[ "master" := "ffffffffffffffffffffffffffffffffffffffff" ]} world.

Definition fields : Fields :=
  {| url := Some "https://x.example/p"; description := Some "hello";
     shouldCommit := None; extra := [("tag", "t1")] |}.

(** A description that ends in a blank. *)
Definition fields_trailing : Fields :=
  {| url := Some "https://x.example/p"; description := Some "hello ";
     shouldCommit := Some false; extra := [] |}.

(** A rest property named [id]. *)
Definition fields_with_id : Fields :=
  {| url := Some "https://x.example/p"; description := Some "hello";
     shouldCommit := Some false; extra := [("id", "mine")] |}.

Definition this : Repository :=
  {| path := "."; branch := "master"; upstream := "origin"; baseUrl := None |}.

End Examples.


(* ===================================================================== *)
(** * What a method writes to the call log *)
(* ===================================================================== *)

Module Calls.
Import git nodegit repository.

#[global] Instance Call_eq_dec : EqDecision Call.
Proof. solve_decision. Defined.

(** The one command line the program spawns: the fixed [git rev-parse]
    prefix followed by at least four hexadecimal digits and nothing
    else. *)
Definition rev_parse_call (c : Call) : bool :=
  match c with
  | Exec command =>
      startsWith rev_parse_disambiguate command
      && hex_of_at_least_4 (sliceFrom (String.length rev_parse_disambiguate) command)
  | _ => false
  end.

(** The calls of the synchronisation step of [this]. *)
Definition sync_call (this : Repository) (c : Call) : bool :=
  bool_decide
    (c ∈ [Push (upstream this) [push_refspec this];
          Fetch (upstream this) [fetch_refspec this];
          MergeBranches (branch this)
            ("refs/remotes/" +:+ upstream this +:+ "/" +:+ branch this)]).

(** [logs ok m]: [m] only appends to the call log, and every call it
    appends satisfies [ok]. *)
Definition logs {A} (ok : Call -> bool) (m : M A) : Prop :=
  forall w, exists new, calls (m w).2 = (calls w ++ new)%list /\ forallb ok new = true.

End Calls.

(* ===================================================================== *)
(** * Returned records *)
(* ===================================================================== *)

Module Records.
Import git nodegit repository.

(** The names of the properties the object literal of
    [_formatRedirectCommit] defines before it spreads the header. *)
Definition derived_keys : list string :=
  ["id"; "shortId"; "shortUrl"; "description"; "created"; "creator"].

(** A record as the read path hands it out: it has the six derived
    properties, and its [url] is a string the URL Validator accepts. *)
Definition is_redirect (P : node.Platform) (r : Redirect) : Prop :=
  (exists u, r !! "url" = Some (VString u) /\ isValidURL P (Some u) = Return true)
  /\ Forall (fun k => is_Some (r !! k)) derived_keys.

(** The canonical id of a commit: the base-58 form of its 20-byte hash. *)
Definition canonical_id (c : Commit) : string :=
  base58.encode (Buffer.from_hex (id c)).

End Records.

(* ===================================================================== *)
(** * What [create] writes *)
(* ===================================================================== *)

Module Writes.
Import git nodegit repository.

#[global] Instance Completion_eq_dec {A} `{EqDecision A} : EqDecision (Completion A).
Proof. solve_decision. Defined.

(** The parents [createCommitOnHead] gives a commit on the tracked
    branch: the commit at its tip, or none. *)
Definition head_parents (this : Repository) (w : World) : list string :=
  match branches w !! branch this ≫= (fun i => find_commit i (odb w)) with
  | Some h => [id h]
  | None => []
  end.

(** The commit [create] writes: the crafted message, signed twice with
    the default signature, on top of the tracked branch. *)
Definition created_commit (this : Repository) (fields : Fields) (w : World) : Commit :=
  let sig := default_signature w in
  let ps := head_parents this w in
  {| id := object_id w ps sig (crafted_message fields);
     message := crafted_message fields;
     author := sig; committer := sig; parents := ps |}.

(** The repository once [create] has written its commit and before it
    synchronises: the tracked branch is checked out, the clean-up has
    run, the commit is stored and the branch points at it. *)
Definition committed (this : Repository) (fields : Fields) (w : World) : World :=
  set_branches (<[branch this := id (created_commit this fields w)]> (branches w))
    (set_odb (odb w ++ [CommitObject (created_commit this fields w)])%list
       (set_state (state_after_cleanup w) (set_HEAD (branch this) w))).

(** The checks of [create] pass, and the id of the new commit is a
    fresh object id. *)
Definition accepts (P : node.Platform) (this : Repository) (fields : Fields) (w : World)
  : Prop :=
  isValidURL P (url fields) = Return true
  /\ discoverable w = true
  /\ is_Some (branches w !! branch this)
  /\ index_conflicts w = false
  /\ index_patches w = 0%nat
  /\ state_after_cleanup w = STATE_NONE
  /\ wf_odb (odb w ++ [CommitObject (created_commit this fields w)])%list.

#[global] Instance accepts_dec P this fields w : Decision (accepts P this fields w).
Proof. unfold accepts. apply _. Defined.

End Writes.

(* ===================================================================== *)
(** * More concrete repositories *)
(* ===================================================================== *)

Module Cases.
Import git nodegit repository.

(** The remote refuses the push for want of permission. *)
Definition world_denied : World :=
  set_push_answers [Throw (GitError EGENERIC "authentication required")] Examples.world.

End Cases.

(* ===================================================================== *)
(** * [path]: the POSIX flavour of the platform's path module *)
(* ===================================================================== *)

Module path.

Definition isSlash (c : ascii) : bool := Ascii.eqb c "/"%char.

(** [s.split('/')]: never empty. *)
Fixpoint split (s : string) : list string :=
  match s with
  | EmptyString => [EmptyString]
  | String c s' =>
      if isSlash c then EmptyString :: split s'
      else match split s' with
           | l :: ls => String c l :: ls
           | [] => [String c EmptyString]
           end
  end.

(** [segments.join('/')]. *)
Fixpoint join_segments (l : list string) : string :=
  match l with
  | [] => EmptyString
  | [x] => x
  | x :: l' => x +:+ String "/"%char (join_segments l')
  end.

Definition isAbsolute (p : string) : bool :=
  match p with
  | String c _ => isSlash c
  | EmptyString => false
  end.

Fixpoint trailingSeparator (p : string) : bool :=
  match p with
  | EmptyString => false
  | String c EmptyString => isSlash c
  | String _ p' => trailingSeparator p'
  end.

(** One segment of [normalizeString], on the segments kept so far (the
    last one first): empty segments and ["."] are dropped; [".."]
    removes the segment before it, unless there is none or it is [".."]
    itself, in which case it is kept in a relative path and dropped in
    an absolute one. *)
Definition normalize_step (allowAboveRoot : bool) (res : list string) (seg : string)
  : list string :=
  if String.eqb seg EmptyString || String.eqb seg "." then res
  else if String.eqb seg ".." then
    match res with
    | top :: rest =>
        if String.eqb top ".." then (if allowAboveRoot then ".." :: res else res)
        else rest
    | [] => if allowAboveRoot then [".."] else []
    end
  else seg :: res.

Definition normalizeString (p : string) (allowAboveRoot : bool) : string :=
  join_segments (rev (fold_left (normalize_step allowAboveRoot) (split p) [])).

(** [path.normalize(p)]. *)
Definition normalize (p : string) : string :=
  match p with
  | EmptyString => "."
  | _ =>
      let n := normalizeString p (negb (isAbsolute p)) in
      match n with
      | EmptyString =>
          if isAbsolute p then "/" else if trailingSeparator p then "./" else "."
      | _ =>
          let n' := if trailingSeparator p then n +:+ "/" else n in
          if isAbsolute p then String "/"%char n' else n'
      end
  end.

(** [path.join(...args)] on string arguments: the non-empty ones are
    joined with a slash and the result is normalised. *)
Definition join (args : list string) : string :=
  match List.filter (fun a => negb (String.eqb a EmptyString)) args with
  | [] => "."
  | parts => normalize (join_segments parts)
  end.

Fixpoint dropWhile {A} (p : A -> bool) (l : list A) : list A :=
  match l with
  | [] => []
  | x :: l' => if p x then dropWhile p l' else l
  end.

(** The scan of [dirname] from the right, on the reversed characters
    after the first: trailing slashes are skipped, then the base name;
    the result is what stands before the slash that ends the directory
    part (reversed), if there is such a slash. *)
Definition dir_part (r : list ascii) : option (list ascii) :=
  match dropWhile (fun c => negb (isSlash c)) (dropWhile isSlash r) with
  | [] => None
  | _ :: rest => Some rest
  end.

(** [path.dirname(p)]. *)
Definition dirname (p : string) : string :=
  match p with
  | EmptyString => "."
  | String c body =>
      match dir_part (rev (list_ascii_of_string body)) with
      | None => if isSlash c then "/" else "."
      | Some rest =>
          match rest with
          | [] => if isSlash c then "//" else String c EmptyString
          | _ => String c (string_of_list_ascii (rev rest))
          end
      end
  end.

(** A name as it stands between slashes in a normalised path: not
    empty, without a slash, and neither ["."] nor [".."]. *)
Definition plain_segment (seg : string) : bool :=
  negb (String.eqb seg EmptyString) && negb (String.eqb seg ".")
  && negb (String.eqb seg "..") && string_forallb (fun c => negb (isSlash c)) seg.

(** The path that names the segments, absolute or relative. *)
Definition path_of (absolute : bool) (segs : list string) : string :=
  if absolute then String "/"%char (join_segments segs) else join_segments segs.

(** Two slashes in a row somewhere in the string. *)
Fixpoint adjacent_slashes (s : string) : bool :=
  match s with
  | String a ((String b _) as t) => (isSlash a && isSlash b) || adjacent_slashes t
  | _ => false
  end.

End path.

(* ===================================================================== *)
(** * [fs]: a file system as the file operations see it *)
(* ===================================================================== *)

Module fs.

(** The error codes the program inspects through [e.code]. *)
Inductive Code :=
| ENOENT
| EEXIST
| EISDIR
| ENOTDIR
| EROFS.

#[global] Instance Code_eq_dec : EqDecision Code.
Proof. solve_decision. Defined.

(** What a rejected promise carries: a system error with its [code], or
    the [TypeError] of an argument that is no string. *)
Inductive Failure :=
| SystemError (code : Code)
| ERR_INVALID_ARG_TYPE.

#[global] Instance Failure_eq_dec : EqDecision Failure.
Proof. solve_decision. Defined.

Definition code (e : Failure) : option Code :=
  match e with
  | SystemError c => Some c
  | ERR_INVALID_ARG_TYPE => None
  end.

Inductive Outcome (A : Type) :=
| Done (a : A)
| Failed (e : Failure).
Arguments Done {A} a.
Arguments Failed {A} e.

Inductive Node :=
| Dir
| File (data : string).

#[global] Instance Node_eq_dec : EqDecision Node.
Proof. solve_decision. Defined.

(** The tree below the root, by the list of names that leads to a
    node; the working directory; whether the file system is mounted
    read-only; and what was written to the console. *)
Record FS := {
  nodes : gmap (list string) Node;
  cwd : list string;
  read_only : bool;
  console : list string;
}.

Definition set_nodes (n : gmap (list string) Node) (s : FS) : FS :=
  {| nodes := n; cwd := cwd s; read_only := read_only s; console := console s |}.

Definition log (line : string) (s : FS) : FS :=
  {| nodes := nodes s; cwd := cwd s; read_only := read_only s;
     console := (console s ++ [line])%list |}.

(** The root is a directory. *)
Definition node_at (s : FS) (p : list string) : option Node :=
  match p with
  | [] => Some Dir
  | _ => nodes s !! p
  end.

(** Path resolution of the directory part of a path: each name must
    lead to a directory. *)
Fixpoint walk (s : FS) (cur : list string) (segs : list string) : Outcome (list string) :=
  match segs with
  | [] => Done cur
  | seg :: rest =>
      if String.eqb seg "." then walk s cur rest
      else if String.eqb seg ".." then walk s (removelast cur) rest
      else match node_at s (cur ++ [seg])%list with
           | Some Dir => walk s (cur ++ [seg])%list rest
           | Some (File _) => Failed (SystemError ENOTDIR)
           | None => Failed (SystemError ENOENT)
           end
  end.

Definition components (p : string) : list string :=
  List.filter (fun seg => negb (String.eqb seg EmptyString)) (path.split p).

Definition start (s : FS) (p : string) : list string :=
  if path.isAbsolute p then [] else cwd s.

(** [fs.mkdir(p)] (not recursive), with the precedence of [mkdir(2)]:
    the directory part is resolved first ([ENOENT], [ENOTDIR]); an
    existing last component is [EEXIST], also on a read-only file
    system; only then [EROFS]. *)
Definition mkdir (p : string) (s : FS) : Outcome unit * FS :=
  if String.eqb p EmptyString then (Failed (SystemError ENOENT), s)
  else
    match rev (components p) with
    | [] => (Failed (SystemError EEXIST), s)
    | name :: rinit =>
        match walk s (start s p) (rev rinit) with
        | Failed e => (Failed e, s)
        | Done cur =>
            if String.eqb name "." || String.eqb name ".."
            then (Failed (SystemError EEXIST), s)
            else
              match node_at s (cur ++ [name])%list with
              | Some _ => (Failed (SystemError EEXIST), s)
              | None =>
                  if read_only s then (Failed (SystemError EROFS), s)
                  else (Done tt, set_nodes (<[(cur ++ [name])%list := Dir]> (nodes s)) s)
              end
        end
    end.

(** [fs.writeFile(p, data)]: creates the file or replaces its
    content. *)
Definition writeFile (p : string) (data : string) (s : FS) : Outcome unit * FS :=
  if String.eqb p EmptyString then (Failed (SystemError ENOENT), s)
  else
    match rev (components p) with
    | [] => (Failed (SystemError EISDIR), s)
    | name :: rinit =>
        match walk s (start s p) (rev rinit) with
        | Failed e => (Failed e, s)
        | Done cur =>
            if String.eqb name "." || String.eqb name ".."
            then (Failed (SystemError EISDIR), s)
            else
              match node_at s (cur ++ [name])%list with
              | Some Dir => (Failed (SystemError EISDIR), s)
              | Some (File _) =>
                  if path.trailingSeparator p then (Failed (SystemError ENOTDIR), s)
                  else if read_only s then (Failed (SystemError EROFS), s)
                  else (Done tt,
                        set_nodes (<[(cur ++ [name])%list := File data]> (nodes s)) s)
              | None =>
                  if path.trailingSeparator p then (Failed (SystemError EISDIR), s)
                  else if read_only s then (Failed (SystemError EROFS), s)
                  else (Done tt,
                        set_nodes (<[(cur ++ [name])%list := File data]> (nodes s)) s)
              end
        end
    end.

(** Every node below the root lies in a directory, and the working
    directory is one. *)
Definition wf (s : FS) : Prop :=
  map_Forall (fun q _ => node_at s (removelast q) = Some Dir) (nodes s)
  /\ node_at s (cwd s) = Some Dir.

#[global] Instance wf_dec s : Decision (wf s).
Proof. unfold wf. apply _. Defined.

(** Where the segments of a path lead: from the root, or from the
    working directory. *)
Definition target (s : FS) (absolute : bool) (segs : list string) : list string :=
  ((if absolute then [] else cwd s) ++ segs)%list.

(** [made s s' absolute segs]: [s'] is [s] with directories added, each
    of them on the way to the path of [segs], and in [s'] every step of
    that way exists. *)
Definition made (s s' : FS) (absolute : bool) (segs : list string) : Prop :=
  cwd s' = cwd s /\ read_only s' = read_only s /\ console s' = console s
  /\ nodes s ⊆ nodes s'
  /\ (forall q, nodes s !! q = None -> is_Some (nodes s' !! q) ->
        nodes s' !! q = Some Dir
        /\ exists k, (1 <= k <= List.length segs)%nat
                     /\ q = target s absolute (take k segs))
  /\ (forall k, (1 <= k <= List.length segs)%nat ->
        is_Some (node_at s' (target s absolute (take k segs)))).

(** ** Asynchronous functions over the file system: a function may also
    never settle, which the model shows as [None] at every fuel. *)

Definition Task (A : Type) : Type := FS -> option (Outcome A * FS).

Definition ret {A} (a : A) : Task A := fun s => Some (Done a, s).

Definition throw {A} (e : Failure) : Task A := fun s => Some (Failed e, s).

Definition bind {A B} (m : Task A) (k : A -> Task B) : Task B :=
  fun s => match m s with
           | Some (Done a, s') => k a s'
           | Some (Failed e, s') => Some (Failed e, s')
           | None => None
           end.

Definition call {A} (f : FS -> Outcome A * FS) : Task A := fun s => Some (f s).

Definition tryCatch {A} (body : Task A) (handler : Failure -> Task A) : Task A :=
  fun s => match body s with
           | Some (Done a, s') => Some (Done a, s')
           | Some (Failed e, s') => handler e s'
           | None => None
           end.

End fs.

Notation "'await' x := m 'in' k" := (fs.bind m (fun x => k))
  (at level 10, x name, m at level 100, k at level 200).

(* ===================================================================== *)
(** * [publish.js] *)
(* ===================================================================== *)

Module publish.
Import fs.

(** [mkdirp(filename)]: the recursion has no bound of its own, the fuel
    is the model's. *)
Fixpoint mkdirp (fuel : nat) (filename : string) : Task unit :=
  match fuel with
  | O => fun _ => None
  | S fuel' =>
      let parent := path.dirname filename in
      if String.eqb parent filename then
        tryCatch (call (mkdir filename))
          (fun e =>
             (* swallowed by recursive implementation on posix systems
                any other error is a failure *)
             if bool_decide (code e = Some EISDIR) then ret tt else throw e)
      else
        tryCatch (call (mkdir filename))
          (fun e =>
             if bool_decide (code e = Some ENOENT) then
               await _ := mkdirp fuel' parent in
               mkdirp fuel' filename
             else if negb (bool_decide (code e = Some EEXIST))
                     && negb (bool_decide (code e = Some EROFS))
             then throw e
             else ret tt)
  end.

(** The [Publisher] instance: the output directory and the compiled
    template, a function from the record to the page.  The template is
    taken as loaded: [publish] awaits the promise that reads and
    compiles it before anything else. *)
Record Publisher := {
  directory : string;
  template : repository.Redirect -> string;
}.

(** [path.join(this.directory, commit.shortId, 'index.html')]: an
    argument that is no string is a [TypeError]. *)
Definition redirectPath (this : Publisher) (commit : repository.Redirect)
  : Outcome string :=
  match commit !! "shortId" with
  | Some (repository.VString shortId) =>
      Done (path.join [directory this; shortId; "index.html"])
  | _ => Failed ERR_INVALID_ARG_TYPE
  end.

Definition publish (fuel : nat) (this : Publisher) (commit : repository.Redirect)
  : Task unit :=
  match redirectPath this commit with
  | Failed e => throw e
  | Done redirectPath =>
      await _ := call (fun s => (Done tt, log redirectPath s)) in
      await _ := mkdirp fuel (path.dirname redirectPath) in
      call (writeFile redirectPath (template this commit))
  end.

End publish.

(* ===================================================================== *)
(** * Concrete file systems *)
(* ===================================================================== *)

Module Disks.

(** A small disk: [/srv/www] is a directory, [/srv/notes] a regular
    file; the working directory is [/srv]. *)
Definition disk : fs.FS :=
  {| fs.nodes := {[ ["srv"] := fs.Dir; ["srv"; "www"] := fs.Dir;
                    ["srv"; "notes"] := fs.File "to do" ]};
     fs.cwd := ["srv"];
     fs.read_only := false;
     fs.console := [] |}.

(** The same disk mounted read-only. *)
Definition disk_read_only : fs.FS :=
  {| fs.nodes := fs.nodes disk; fs.cwd := fs.cwd disk; fs.read_only := true;
     fs.console := [] |}.

End Disks.

(* ===================================================================== *)
(** * The program on a POSIX platform *)
(* ===================================================================== *)

Module Posix.

(** The platform of [Examples] with the [path.join] of POSIX. *)
Definition platform : node.Platform :=
  {| node.URL_parses := node.URL_parses Examples.platform;
     node.path_join := fun a b => path.join [a; b];
     node.github_remote := node.github_remote Examples.platform |}.

(** A repository configured with a base URL. *)
Definition this : repository.Repository :=
  {| repository.path := "."; repository.branch := "master";
     repository.upstream := "origin";
     repository.baseUrl := Some "https://sho.rt/l" |}.

(** A publisher into [www] below the working directory. *)
Definition publisher : publish.Publisher :=
  {| publish.directory := "www";
     publish.template := fun r =>
       match r !! "url" with
       | Some (repository.VString u) => "<a href='" +:+ u +:+ "'>moved</a>"
       | _ => "<p>moved</p>"
       end |}.

End Posix.

Open Scope list_scope.



(* ===================================================================== *)
(** * Properties of the codecs *)
(* ===================================================================== *)

Module BufferFacts.
Import Buffer.

Lemma to_N_byte_of_N n : (n < 256)%N -> Byte.to_N (byte_of_N n) = n.
Proof.
  intros Hn. unfold byte_of_N.
  destruct (Byte.of_N n) as [b|] eqn:E.
  - by apply Byte.to_of_N.
  - apply Byte.of_N_None_iff in E. lia.
Qed.

Lemma byte_of_N_to_N b : byte_of_N (Byte.to_N b) = b.
Proof. unfold byte_of_N. by rewrite Byte.of_to_N. Qed.

(** A lower-case hexadecimal digit is the digit of its own value. *)
Lemma hexdigit_hexval c :
  isLowerHexChar c = true ->
  exists n, (n < 16)%N /\ hexval c = Some n /\ hexdigit n = c.
Proof.
  intros H.
  destruct c as [[] [] [] [] [] [] [] []]; try discriminate H;
    eexists; (split; [|split; [reflexivity|reflexivity]]); vm_compute; reflexivity.
Qed.

Lemma toString_hex_from_hex s :
  isLowerHex s = true -> Nat.Even (String.length s) ->
  toString_hex (from_hex s) = s.
Proof.
  remember (String.length s) as n eqn:Hn.
  revert s Hn. induction n as [n IH] using lt_wf_ind.
  intros [|a [|b s]] Hn Hhex Hev; [done| |].
  - destruct Hev as [k Hk]. simpl in Hn. lia.
  - simpl in Hhex. apply andb_prop in Hhex as [Ha Hhex].
    apply andb_prop in Hhex as [Hb Hs].
    destruct (hexdigit_hexval a Ha) as (h & Hh & Eh & Dh).
    destruct (hexdigit_hexval b Hb) as (l & Hl & El & Dl).
    cbn [from_hex]. rewrite Eh, El. cbn [toString_hex].
    rewrite to_N_byte_of_N by lia.
    replace ((16 * h + l) / 16)%N with h
      by (apply N.div_unique with l; lia).
    replace ((16 * h + l) mod 16)%N with l
      by (apply N.mod_unique with h; lia).
    rewrite Dh, Dl. f_equal. f_equal.
    simpl in Hn. apply (IH (String.length s)); [lia|done|done|].
    destruct Hev as [k Hk]. exists (k - 1)%nat. lia.
Qed.

Lemma isLowerHex_slice0 n s : isLowerHex s = true -> isLowerHex (slice0 n s) = true.
Proof.
  unfold isLowerHex.
  revert s. induction n as [|n IH]; intros [|c s] H; try done.
  simpl in *. apply andb_prop in H as [Hc Hs].
  rewrite Hc. by apply IH.
Qed.

Lemma length_slice0 n s : String.length (slice0 n s) = Nat.min n (String.length s).
Proof.
  revert s. induction n as [|n IH]; intros [|c s]; simpl; try done.
  by rewrite IH.
Qed.

Lemma slice0_all n s : (String.length s <= n)%nat -> slice0 n s = s.
Proof.
  revert s. induction n as [|n IH]; intros [|c s] H; simpl in *; try done; try lia.
  f_equal. apply IH. lia.
Qed.

Lemma isLowerHexChar_isHex c : isLowerHexChar c = true -> hexval c <> None.
Proof. intros H. destruct (hexdigit_hexval c H) as (n & _ & E & _). congruence. Qed.

End BufferFacts.
Module Base58Facts.
Import base58.

Lemma last_rev {A} (l : list A) : last (rev l) = head l.
Proof. destruct l as [|a l]; [done|]. cbn [rev]. by rewrite last_snoc. Qed.

Lemma head_rev {A} (l : list A) : head (rev l) = last l.
Proof. by rewrite <- (rev_involutive l) at 2; rewrite last_rev. Qed.

Section Positional.

Variable b : N.
Hypothesis b_ge_2 : (2 <= b)%N.

Lemma number_snoc ds d : number b (ds ++ [d]) = (number b ds * b + d)%N.
Proof. unfold number. by rewrite fold_left_app. Qed.

Lemma digits_le_zero fuel : digits_le fuel b 0 = [].
Proof. by destruct fuel. Qed.

Lemma div_base_lt n fuel : (n < 2 ^ N.of_nat (S fuel))%N -> (n / b < 2 ^ N.of_nat fuel)%N.
Proof.
  intros H. apply N.Div0.div_lt_upper_bound.
  rewrite Nat2N.inj_succ, N.pow_succ_r' in H. nia.
Qed.

(** The digits read back as the number, once the fuel covers its size. *)
Lemma number_digits_le fuel n :
  (n < 2 ^ N.of_nat fuel)%N -> number b (rev (digits_le fuel b n)) = n.
Proof.
  revert n. induction fuel as [|fuel IH]; intros n Hn.
  - simpl in *. assert (n = 0%N) by lia. by subst.
  - cbn [digits_le]. destruct (N.eqb_spec n 0) as [->|Hne]; [done|].
    cbn [rev]. rewrite number_snoc. rewrite IH by (apply div_base_lt; exact Hn).
    pose proof (N.Div0.div_mod n b) as Hdm. lia.
Qed.

Lemma digits_le_fuel f1 f2 n :
  (n < 2 ^ N.of_nat f1)%N -> (n < 2 ^ N.of_nat f2)%N ->
  digits_le f1 b n = digits_le f2 b n.
Proof.
  revert f2 n. induction f1 as [|f1 IH]; intros f2 n H1 H2.
  - simpl in H1. assert (n = 0%N) as -> by lia. by rewrite !digits_le_zero.
  - destruct f2 as [|f2].
    + simpl in H2. assert (n = 0%N) as -> by lia. by rewrite !digits_le_zero.
    + cbn [digits_le]. destruct (N.eqb_spec n 0); [done|].
      f_equal. apply IH; apply div_base_lt; assumption.
Qed.

Lemma digits_le_bound fuel n : Forall (fun d => (d < b)%N) (digits_le fuel b n).
Proof.
  revert n. induction fuel as [|fuel IH]; intros n; cbn [digits_le]; [constructor|].
  destruct (N.eqb_spec n 0); constructor; [|apply IH].
  apply N.mod_lt. lia.
Qed.

Lemma digits_le_last fuel n :
  (n < 2 ^ N.of_nat fuel)%N -> last (digits_le fuel b n) <> Some 0%N.
Proof.
  revert n. induction fuel as [|fuel IH]; intros n Hn; [done|].
  cbn [digits_le]. destruct (N.eqb_spec n 0) as [|Hne]; [done|].
  pose proof (div_base_lt _ _ Hn) as Hq.
  destruct (N.eq_dec (n / b)%N 0%N) as [Hz|Hnz].
  - rewrite Hz, digits_le_zero. simpl. intros [= Hm].
    pose proof (N.Div0.div_mod n b) as Hdm. rewrite Hz, Hm in Hdm. lia.
  - specialize (IH _ Hq).
    destruct fuel as [|fuel].
    { change (N.of_nat 0) with 0%N in Hq. rewrite N.pow_0_r in Hq.
      exfalso. apply Hnz. by apply N.lt_1_r. }
    cbn [digits_le] in *. destruct (N.eqb_spec (n / b)%N 0%N); [done|].
    by rewrite last_cons_cons.
Qed.

(** A digit string without a superfluous top digit. *)
Lemma number_rev_nonzero ds :
  ds <> [] -> last ds <> Some 0%N -> number b (rev ds) <> 0%N.
Proof.
  induction ds as [|d ds IH]; [done|]. intros _ Hl.
  cbn [rev]. rewrite number_snoc.
  destruct ds as [|d' ds].
  - simpl in *. intros H. apply Hl. f_equal. unfold number in H. simpl in H. lia.
  - rewrite last_cons_cons in Hl. specialize (IH ltac:(done) Hl). nia.
Qed.

Lemma digits_le_number fuel ds :
  Forall (fun d => (d < b)%N) ds -> last ds <> Some 0%N ->
  (List.length ds <= fuel)%nat ->
  digits_le fuel b (number b (rev ds)) = ds.
Proof.
  revert fuel. induction ds as [|d ds IH]; intros fuel Hb Hl Hf.
  - by rewrite digits_le_zero.
  - destruct fuel as [|fuel]; [simpl in Hf; lia|].
    inversion Hb as [|? ? Hd Hds]; subst.
    assert (Hne : number b (rev (d :: ds)) <> 0%N) by (by apply number_rev_nonzero).
    cbn [digits_le]. destruct (N.eqb_spec (number b (rev (d :: ds))) 0); [done|].
    cbn [rev]. rewrite number_snoc.
    assert (Hm : ((number b (rev ds) * b + d) mod b = d)%N).
    { symmetry. apply N.mod_unique with (number b (rev ds)); lia. }
    assert (Hq : ((number b (rev ds) * b + d) / b = number b (rev ds))%N).
    { symmetry. apply N.div_unique with d; lia. }
    rewrite Hm, Hq. f_equal.
    apply IH; [done| |simpl in Hf; lia].
    destruct ds; [done|]. by rewrite last_cons_cons in Hl.
Qed.

Lemma number_digits n : number b (digits b n) = n.
Proof.
  unfold digits. apply number_digits_le.
  rewrite N2Nat.id. apply N.size_gt.
Qed.

Lemma digits_bound n : Forall (fun d => (d < b)%N) (digits b n).
Proof. unfold digits. apply Forall_rev, digits_le_bound. Qed.

Lemma digits_head n : head (digits b n) <> Some 0%N.
Proof.
  unfold digits. rewrite head_rev. apply digits_le_last.
  rewrite N2Nat.id. apply N.size_gt.
Qed.

Lemma digits_number ds :
  Forall (fun d => (d < b)%N) ds -> head ds <> Some 0%N ->
  digits b (number b ds) = ds.
Proof.
  intros Hb Hh. unfold digits.
  set (n := number b ds).
  set (f := (N.to_nat (N.size n) + List.length ds)%nat).
  assert (Hsz : (n < 2 ^ N.of_nat (N.to_nat (N.size n)))%N).
  { rewrite N2Nat.id. apply N.size_gt. }
  rewrite (digits_le_fuel _ f n Hsz).
  - replace n with (number b (rev (rev ds))) by (by rewrite rev_involutive).
    rewrite digits_le_number; [apply rev_involutive|by apply Forall_rev| |].
    + by rewrite last_rev.
    + rewrite length_rev. unfold f. lia.
  - eapply N.lt_le_trans; [exact Hsz|].
    apply N.pow_le_mono_r; [lia|]. unfold f. lia.
Qed.

End Positional.

Lemma ALPHABET_MAP_ALPHABET d : (d < 58)%N -> ALPHABET_MAP (ALPHABET d) = Some d.
Proof.
  intros Hd. rewrite <- (N2Nat.id d).
  assert (Hk : (N.to_nat d < 58)%nat) by lia.
  clear Hd. generalize dependent (N.to_nat d). intros k Hk.
  do 58 (destruct k as [|k]; [vm_compute; reflexivity|]). lia.
Qed.

Lemma ALPHABET_one d : (d < 58)%N -> d <> 0%N -> Ascii.eqb (ALPHABET d) "1"%char = false.
Proof.
  intros Hd Hz. destruct (Ascii.eqb_spec (ALPHABET d) "1"%char) as [E|]; [|done].
  pose proof (ALPHABET_MAP_ALPHABET d Hd) as H. rewrite E in H.
  vm_compute in H. congruence.
Qed.

Lemma indices_map_ALPHABET ds :
  Forall (fun d => (d < 58)%N) ds -> indices (map ALPHABET ds) = Some ds.
Proof.
  induction 1 as [|d ds Hd _ IH]; [done|].
  cbn [map indices]. by rewrite ALPHABET_MAP_ALPHABET, IH.
Qed.

Lemma indices_ones z cs ds :
  indices cs = Some ds ->
  indices (repeat "1"%char z ++ cs) = Some (repeat 0%N z ++ ds).
Proof.
  intros H. induction z as [|z IH]; [done|].
  cbn [repeat app indices]. rewrite IH.
  by change (ALPHABET_MAP "1"%char) with (Some 0%N).
Qed.

Lemma leading_repeat {A} (p : A -> bool) x z l :
  p x = true -> (forall y, head l = Some y -> p y = false) ->
  leading p (repeat x z ++ l) = z.
Proof.
  intros Hx Hl. induction z as [|z IH].
  - destruct l as [|y l]; [done|]. simpl. by rewrite (Hl y).
  - simpl. by rewrite Hx, IH.
Qed.

Lemma drop_repeat_app {A} (x : A) z l : drop z (repeat x z ++ l) = l.
Proof. induction z; [done|]. done. Qed.

Lemma leading_split {A} (p : A -> bool) l :
  Forall (fun x => p x = true) (take (leading p l) l)
  /\ (forall y, head (drop (leading p l) l) = Some y -> p y = false).
Proof.
  induction l as [|x l [IH1 IH2]]; [by split|].
  simpl. destruct (p x) eqn:E; simpl.
  - split; [by constructor|done].
  - split; [constructor|]. intros y [= <-]. done.
Qed.

Lemma to_N_zero b : Byte.to_N b = 0%N -> b = x00.
Proof.
  intros H. rewrite <- (BufferFacts.byte_of_N_to_N b). by rewrite H.
Qed.

Lemma leading_le {A} (p : A -> bool) l : (leading p l <= List.length l)%nat.
Proof. induction l as [|x l IH]; simpl; [lia|]. destruct (p x); simpl; lia. Qed.

Lemma zero_bytes l :
  Forall (fun b => (Byte.to_N b =? 0)%N = true) l -> l = repeat x00 (List.length l).
Proof.
  induction 1 as [|b l Hb _ IH]; [done|].
  simpl. rewrite <- IH. f_equal. apply to_N_zero. by apply N.eqb_eq.
Qed.

Lemma to_N_bound l : Forall (fun d => (d < 256)%N) (map Byte.to_N l).
Proof.
  induction l as [|b l IH]; constructor; [|done].
  pose proof (Byte.to_N_bounded b). lia.
Qed.

(** Decoding undoes encoding, leading zero bytes included. *)
Lemma decode_encode buffer : decode (encode buffer) = Return buffer.
Proof.
  unfold encode, decode.
  set (zero := fun b => (Byte.to_N b =? 0)%N).
  set (z := leading zero buffer).
  set (n := number 256 (map Byte.to_N (drop z buffer))).
  destruct (leading_split zero buffer) as [Hz Hrest]. fold z in Hz, Hrest.
  rewrite list_ascii_of_string_of_list_ascii.
  rewrite (indices_ones z _ (digits 58 n))
    by (apply indices_map_ALPHABET, digits_bound; lia).
  rewrite leading_repeat; [|done|].
  2:{ intros y Hy. apply N.eqb_neq. intros ->. by eapply (digits_head 58); [lia|]. }
  rewrite drop_repeat_app, number_digits by lia.
  unfold n. rewrite digits_number; [|lia|apply to_N_bound|].
  - rewrite map_map. rewrite (map_ext _ id) by (intros; apply BufferFacts.byte_of_N_to_N).
    rewrite map_id. f_equal.
    rewrite <- (take_drop z buffer) at 2. f_equal.
    rewrite (zero_bytes _ Hz). f_equal.
    rewrite length_take. pose proof (leading_le zero buffer). fold z in H. lia.
  - destruct (drop z buffer) as [|b l] eqn:E; [done|]. simpl.
    intros [= Hb]. specialize (Hrest b eq_refl). unfold zero in Hrest.
    apply N.eqb_neq in Hrest. done.
Qed.

End Base58Facts.


(* ===================================================================== *)
(** * Read operations answer from the repository, not from the call log *)
(* ===================================================================== *)

Module Query.
Import git nodegit repository.

Lemma same_repo_record c w : same_repo (record_call c w) w.
Proof. reflexivity. Qed.

Lemma same_repo_odb w w' : same_repo w w' -> odb w = odb w'.
Proof. intros H. apply (f_equal odb) in H. exact H. Qed.

Lemma query_result {A} (m : M A) w w' :
  query m -> same_repo w w' -> (m w).1 = (m w').1.
Proof. intros Hq H. by apply Hq. Qed.

Lemma query_world {A} (m : M A) w : query m -> same_repo (m w).2 w.
Proof. intros Hq. by apply Hq. Qed.

Lemma query_ret {A} (a : A) : query (ret a).
Proof. by intros w w' H. Qed.

Lemma query_throw {A} e : query (@throw A e).
Proof. by intros w w' H. Qed.

Lemma query_lift {A} (c : Completion A) : query (lift c).
Proof. by intros w w' H. Qed.

Lemma query_gets {A} (g : World -> A) :
  (forall w, g (forget_calls w) = g w) -> query (gets g).
Proof.
  intros Hg w w' H. split; [|done]. simpl. f_equal.
  rewrite <- (Hg w), <- (Hg w'). by rewrite H.
Qed.

Lemma query_record c : query (modify (record_call c)).
Proof. by intros w w' H. Qed.

Lemma query_bind {A B} (m : M A) (k : A -> M B) :
  query m -> (forall a, query (k a)) -> query (bind m k).
Proof.
  intros Hm Hk w w' H. unfold bind.
  destruct (Hm w w' H) as [E1 E2]. pose proof (query_world m w' Hm) as E3.
  destruct (m w) as [[a|e] w1], (m w') as [[a'|e'] w1']; simpl in *; try done.
  - injection E1 as <-.
    destruct (Hk a w1 w1') as [F1 F2]; [by etrans|].
    split; [done|by etrans].
  - injection E1 as <-. by split.
Qed.

Lemma query_tryCatch {A} (m : M A) (h : Exn -> M A) :
  query m -> (forall e, query (h e)) -> query (tryCatch m h).
Proof.
  intros Hm Hh w w' H. unfold tryCatch.
  destruct (Hm w w' H) as [E1 E2]. pose proof (query_world m w' Hm) as E3.
  destruct (m w) as [[a|e] w1], (m w') as [[a'|e'] w1']; simpl in *; try done.
  injection E1 as <-.
    destruct (Hh e w1 w1') as [F1 F2]; [by etrans|].
    split; [done|by etrans].
Qed.

Ltac query_step :=
  first
    [ apply query_ret | apply query_throw | apply query_lift | apply query_record
    | apply query_gets; reflexivity
    | apply query_bind; [|intros ?]
    | apply query_tryCatch; [|intros ?]
    | assumption
    | match goal with
      | |- query (if ?b then _ else _) => destruct b
      | |- query (match ?x with _ => _ end) => destruct x
      end ].

Ltac query_auto := repeat query_step.

(** Unfolds the monad's operations down to pairs of completion and world. *)
Ltac munfold :=
  repeat progress (unfold tryCatch, bind, gets, throw, ret, lift, modify; cbn beta iota).

Lemma query_getCommit i : query (getCommit i).
Proof. unfold getCommit. query_auto. Qed.

Lemma query_lookupPrefix s n : query (Commit_lookupPrefix s n).
Proof. unfold Commit_lookupPrefix. query_auto. Qed.

Lemma query_exec cmd : query (exec cmd).
Proof. unfold exec. query_auto. Qed.

Lemma query_open : query open_repository.
Proof. unfold open_repository. query_auto. Qed.

Lemma query_getRemote r : query (getRemote r).
Proof. unfold getRemote. query_auto. Qed.

Lemma query_first_commit ids : query (first_commit ids).
Proof.
  induction ids as [|i ids IH]; simpl; [apply query_ret|].
  pose proof (query_getCommit i). query_auto.
Qed.

Lemma query_disambigateCommit s : query (disambigateCommit s).
Proof.
  unfold disambigateCommit.
  pose proof (query_exec ("git rev-parse --disambiguate=" +:+ s)).
  destruct (negb _); [apply query_ret|].
  apply query_bind; [done|]. intros. apply query_first_commit.
Qed.

Lemma query_getCommitFromShortCommitId s : query (getCommitFromShortCommitId s).
Proof.
  unfold getCommitFromShortCommitId.
  pose proof (query_lookupPrefix s (String.length s)).
  pose proof (query_disambigateCommit s). query_auto.
Qed.

Lemma query_getShortId_loop fuel longId h : query (getShortId_loop fuel longId h).
Proof.
  revert h. induction fuel as [|fuel IH]; intros h; simpl; [apply query_ret|].
  destruct (_ <=? _)%nat; [|apply query_ret].
  apply query_bind; [apply query_getCommitFromShortCommitId|].
  intros r. destruct (match r with Some _ => _ | None => _ end); [apply query_ret|apply IH].
Qed.

Lemma query_getShortId c h : query (getShortId c h).
Proof. apply query_getShortId_loop. Qed.

Section WithPlatform.
Context (P : node.Platform).

Lemma query_path_join a b : query (path_join P a b).
Proof. unfold path_join. query_auto. Qed.

Lemma query_getShortUrl this s : query (_getShortUrl P this s).
Proof.
  unfold _getShortUrl, _getRepository.
  pose proof query_open. pose proof (query_getRemote (upstream this)).
  pose proof (query_path_join).
  destruct (baseUrl this) as [[|? ?]|]; query_auto; try apply query_path_join.
  all: destruct p; query_auto; apply query_path_join.
Qed.

Lemma query_formatRedirectCommit this c : query (_formatRedirectCommit P this c).
Proof.
  unfold _formatRedirectCommit, _getRepository.
  apply query_bind; [apply query_open|intros _].
  apply query_bind; [apply query_lift|intros f].
  apply query_bind; [apply query_lift|intros v].
  destruct (negb v); [apply query_throw|].
  apply query_bind; [apply query_getShortId|intros i].
  apply query_bind; [apply query_getShortId|intros s].
  apply query_bind; [apply query_getShortUrl|intros u].
  apply query_ret.
Qed.

Lemma query_get this i : query (get P this i).
Proof.
  unfold get, _getRepository.
  destruct (String.eqb i _); [apply query_throw|].
  apply query_bind; [apply query_open|intros _].
  apply query_bind; [apply query_lift|intros b].
  apply query_bind; [apply query_getCommitFromShortCommitId|intros [c|]].
  - apply query_formatRedirectCommit.
  - apply query_throw.
Qed.

Lemma query_all_loop this fuel walker : query (all_loop P this fuel walker).
Proof.
  revert walker. induction fuel as [|fuel IH]; intros walker; simpl; [apply query_ret|].
  destruct walker as [|i rest]; simpl; [apply query_ret|].
  apply query_bind.
  - apply query_tryCatch; [|intros; apply query_ret].
    apply query_bind; [apply query_getCommit|intros c].
    apply query_bind; [apply query_formatRedirectCommit|intros r]. apply query_ret.
  - intros ys. apply query_bind; [apply IH|intros]. apply query_ret.
Qed.

End WithPlatform.

End Query.


(* ===================================================================== *)
(** * The Commit Resolver and the identifier search *)
(* ===================================================================== *)

Module Resolver.
Import git nodegit repository Query BufferFacts.

(** ** Strings and ids *)

Lemma startsWith_slice0 n s : startsWith (slice0 n s) s = true.
Proof.
  unfold startsWith. revert s. induction n as [|n IH]; intros [|c s]; simpl; try done.
  destruct (ascii_dec c c); [apply IH|done].
Qed.

Lemma startsWith_same_length p s :
  startsWith p s = true -> String.length p = String.length s -> p = s.
Proof.
  unfold startsWith. revert s. induction p as [|a p IH]; intros [|b s]; simpl; try done.
  destruct (ascii_dec a b) as [->|]; [|done].
  intros H [= Hl]. f_equal. by apply IH.
Qed.

Lemma toLowerCase_char_hex c : Buffer.isLowerHexChar c = true -> toLowerCase_char c = c.
Proof.
  intros H.
  destruct c as [[] [] [] [] [] [] [] []]; try discriminate H; reflexivity.
Qed.

Lemma toLowerCase_lower_hex s : Buffer.isLowerHex s = true -> toLowerCase s = s.
Proof.
  unfold Buffer.isLowerHex. induction s as [|c s IH]; [done|]. simpl.
  intros [Hc Hs]%andb_prop. by rewrite toLowerCase_char_hex, IH.
Qed.

Lemma isHex_lower_hex s : Buffer.isLowerHex s = true -> isHex s = true.
Proof.
  unfold Buffer.isLowerHex, isHex. induction s as [|c s IH]; [done|]. simpl.
  intros [Hc Hs]%andb_prop. rewrite IH by done. unfold isHexChar.
  destruct (Buffer.hexval c) eqn:E; [done|].
  by apply BufferFacts.isLowerHexChar_isHex in Hc.
Qed.

Lemma is_oid_length s : is_oid s = true -> String.length s = 40%nat.
Proof. unfold is_oid. intros [H _]%andb_prop. by apply Nat.eqb_eq. Qed.

Lemma is_oid_hex s : is_oid s = true -> Buffer.isLowerHex s = true.
Proof. unfold is_oid. by intros [_ H]%andb_prop. Qed.

(** ** The object database *)

Lemma wf_odb_oid objs o : wf_odb objs -> In o objs -> is_oid (oid o) = true.
Proof. intros [_ H] Hin. rewrite Forall_forall in H. apply H. by apply list_elem_of_In. Qed.

Lemma wf_odb_inj objs o o' :
  wf_odb objs -> In o objs -> In o' objs -> oid o = oid o' -> o = o'.
Proof.
  intros [Hnd _]. induction objs as [|x objs IH]; [done|].
  simpl in Hnd. apply NoDup_cons in Hnd as [Hx Hnd].
  intros [->|Ho] [->|Ho'] E; [done| | |by apply IH].
  - exfalso. apply Hx. rewrite E. apply list_elem_of_In, in_map, Ho'.
  - exfalso. apply Hx. rewrite <- E. apply list_elem_of_In, in_map, Ho.
Qed.

Lemma In_commits objs c : In c (commits objs) <-> In (CommitObject c) objs.
Proof.
  unfold commits. rewrite in_flat_map. split.
  - intros ([c'|i] & Hin & Hc); simpl in Hc; [|done].
    destruct Hc as [->|[]]. done.
  - intros H. exists (CommitObject c). split; [done|by left].
Qed.

Lemma find_commit_In i objs c :
  find_commit i objs = Some c -> In (CommitObject c) objs /\ id c = i.
Proof.
  unfold find_commit. intros H. apply find_some in H as [Hin E].
  split; [by apply In_commits|by apply String.eqb_eq].
Qed.

Lemma find_commit_wf objs c :
  wf_odb objs -> In (CommitObject c) objs -> find_commit (id c) objs = Some c.
Proof.
  intros Hwf Hin. unfold find_commit.
  destruct (find _ _) as [c'|] eqn:E.
  - apply find_some in E as [Hin' E]. apply String.eqb_eq in E.
    apply In_commits in Hin'.
    assert (CommitObject c' = CommitObject c) as [= ->]; [|done].
    by apply (wf_odb_inj objs).
  - exfalso. eapply find_none in E; [|by apply In_commits].
    by rewrite String.eqb_refl in E.
Qed.

Lemma matching_In p objs o :
  In o (matching p objs) <-> In o objs /\ startsWith p (oid o) = true.
Proof. unfold matching. apply filter_In. Qed.

Lemma filter_nil {A} (f : A -> bool) (l : list A) :
  (forall z, In z l -> f z = false) -> List.filter f l = [].
Proof.
  induction l as [|z l IH]; [done|]. intros H. simpl.
  rewrite (H z) by by left. apply IH. intros w Hw. apply H. by right.
Qed.

Lemma filter_singleton {A} (f : A -> bool) (l : list A) x :
  NoDup l -> In x l -> (forall y, In y l -> f y = true -> y = x) -> f x = true ->
  List.filter f l = [x].
Proof.
  intros Hnd. induction Hnd as [|y l Hy Hnd IH]; [done|].
  intros Hin Hu Hx. simpl.
  destruct (f y) eqn:Ey.
  - assert (y = x) as -> by (apply Hu; [by left|done]).
    f_equal. apply filter_nil. intros z Hz.
    destruct (f z) eqn:Ez; [|done].
    exfalso. apply Hy. apply list_elem_of_In.
    assert (z = x) as <- by (apply Hu; [by right|done]). done.
  - destruct Hin as [->|Hin]; [congruence|].
    apply IH; [done| |done]. intros w Hw. apply Hu. by right.
Qed.

Lemma wf_odb_NoDup objs : wf_odb objs -> NoDup objs.
Proof. intros [H _]. by apply NoDup_fmap_1 in H. Qed.

(** The full id of a stored commit matches that commit alone. *)
Lemma matching_full objs c :
  wf_odb objs -> In (CommitObject c) objs ->
  matching (id c) objs = [CommitObject c].
Proof.
  intros Hwf Hin. apply filter_singleton.
  - by apply wf_odb_NoDup.
  - done.
  - intros o Ho Hp. apply (wf_odb_inj objs); [done..|].
    symmetry. apply startsWith_same_length; [done|].
    rewrite (is_oid_length (oid o)) by by eapply wf_odb_oid.
    apply is_oid_length. by apply (wf_odb_oid objs (CommitObject c)).
  - simpl. rewrite <- (slice0_all 40 (id c)) at 1; [apply startsWith_slice0|].
    rewrite (is_oid_length (id c)); [done|].
    by apply (wf_odb_oid objs (CommitObject c)).
Qed.

(** ** The resolver on a prefix of a stored commit's id *)

Lemma first_commit_returns ids w :
  exists r w', first_commit ids w = (Return r, w') /\ w' = w
    /\ (forall sc, r = Some sc -> In (CommitObject sc) (odb w)).
Proof.
  induction ids as [|i ids (r & w' & E & -> & Hin)].
  - exists None, w. by repeat split.
  - cbn [first_commit]. unfold getCommit. munfold.
    destruct ((String.length i =? 40)%nat && isHex i); [|by exists r, w].
    destruct (find_commit (toLowerCase i) (odb w)) as [c|] eqn:Ec; [|by exists r, w].
    exists (Some c), w. repeat split. intros sc [= <-].
    by apply find_commit_In in Ec as [? _].
Qed.

Lemma disambigateCommit_returns s w :
  exists r w', disambigateCommit s w = (Return r, w') /\ same_repo w' w
    /\ (forall sc, r = Some sc -> In (CommitObject sc) (odb w)).
Proof.
  unfold disambigateCommit. destruct (negb _).
  - exists None, w. by repeat split.
  - unfold bind at 1.
    destruct (exec _ w) as [[out|e] w1] eqn:E.
    + unfold exec, bind, modify, gets in E.
      assert (w1 = record_call (Exec ("git rev-parse --disambiguate=" +:+ s)) w) as ->.
      { destruct (startsWith _ _); by injection E. }
      destruct (first_commit_returns (split_nl (trim out))
                  (record_call (Exec ("git rev-parse --disambiguate=" +:+ s)) w))
        as (r & w' & -> & -> & Hin).
      exists r, (record_call (Exec ("git rev-parse --disambiguate=" +:+ s)) w).
      by repeat split.
    + unfold exec, bind, modify, gets in E. by destruct (startsWith _ _).
Qed.

Lemma lookupPrefix_cases p w :
  prefix_of_oid p ->
  Commit_lookupPrefix p (String.length p) w =
    (match matching p (odb w) with
     | [] => Throw (GitError ENOTFOUND "no match for id prefix")
     | [CommitObject c] => Return c
     | [OtherObject _] =>
         Throw (GitError ENOTFOUND "the requested type does not match the type in the ODB")
     | _ => Throw (GitError EAMBIGUOUS "multiple matches for id prefix")
     end, w).
Proof.
  intros [Hhex [H4 H40]]. unfold Commit_lookupPrefix, Oid_fromString, bind, lift.
  rewrite isHex_lower_hex by done.
  replace (0 <? String.length p)%nat with true by (symmetry; apply Nat.ltb_lt; lia).
  replace (String.length p <=? 40)%nat with true by (symmetry; apply Nat.leb_le; lia).
  simpl andb. cbv iota.
  replace (String.length p <? 4)%nat with false by (symmetry; apply Nat.ltb_ge; lia).
  rewrite toLowerCase_lower_hex, slice0_all by done. unfold gets.
  destruct (matching p (odb w)) as [|[c|i] [|o l]]; reflexivity.
Qed.

Lemma prefix_of_oid_slice0 h s :
  is_oid s = true -> (4 <= h)%nat -> prefix_of_oid (slice0 h s).
Proof.
  intros Hs Hh. split.
  - by apply isLowerHex_slice0, is_oid_hex.
  - rewrite length_slice0, (is_oid_length s) by done. lia.
Qed.

(** On a prefix of a stored commit's id the resolver never throws, and
    what it returns is a stored commit. *)
Lemma resolver_returns w c h :
  wf_odb (odb w) -> In (CommitObject c) (odb w) -> (4 <= h)%nat ->
  exists r w', getCommitFromShortCommitId (slice0 h (id c)) w = (Return r, w')
    /\ same_repo w' w
    /\ (forall sc, r = Some sc -> In (CommitObject sc) (odb w)).
Proof.
  intros Hwf Hin Hh.
  assert (Hoid : is_oid (id c) = true) by apply (wf_odb_oid _ (CommitObject c) Hwf Hin).
  set (p := slice0 h (id c)).
  assert (Hp : prefix_of_oid p) by by apply prefix_of_oid_slice0.
  unfold getCommitFromShortCommitId, tryCatch, bind at 1.
  rewrite (lookupPrefix_cases p w Hp).
  assert (Hm : In (CommitObject c) (matching p (odb w))).
  { apply matching_In. split; [done|]. apply startsWith_slice0. }
  destruct (matching p (odb w)) as [|[c'|i] [|o l]] eqn:Em.
  - done.
  - destruct Hm as [[= ->]|[]]. exists (Some c), w.
    split; [done|split; [reflexivity|]]. by intros sc [= <-].
  - apply disambigateCommit_returns.
  - by destruct Hm as [|[]].
  - apply disambigateCommit_returns.
Qed.

(** At full length the resolver finds the commit itself. *)
Lemma resolver_full w c h :
  wf_odb (odb w) -> In (CommitObject c) (odb w) -> (40 <= h)%nat ->
  getCommitFromShortCommitId (slice0 h (id c)) w = (Return (Some c), w).
Proof.
  intros Hwf Hin Hh.
  assert (Hoid : is_oid (id c) = true) by apply (wf_odb_oid _ (CommitObject c) Hwf Hin).
  assert (Hp : prefix_of_oid (slice0 h (id c))) by (apply prefix_of_oid_slice0; [done|lia]).
  unfold getCommitFromShortCommitId, tryCatch, bind at 1.
  rewrite (lookupPrefix_cases _ w Hp).
  rewrite slice0_all by (rewrite (is_oid_length (id c)); [lia|done]).
  by rewrite matching_full.
Qed.

(** Below libgit2's minimum prefix length the resolver yields no commit. *)
Lemma resolver_short w p :
  (String.length p < 4)%nat ->
  forall c, (getCommitFromShortCommitId p w).1 <> Return (Some c).
Proof.
  intros Hlen c. unfold getCommitFromShortCommitId, tryCatch, bind at 1.
  unfold Commit_lookupPrefix, bind, lift.
  destruct (Oid_fromString p) as [o|e] eqn:Eo.
  - replace (String.length p <? 4)%nat with true by (symmetry; apply Nat.ltb_lt; lia).
    unfold throw. simpl. unfold disambigateCommit, hex_of_at_least_4.
    replace (4 <=? String.length p)%nat with false by (symmetry; apply Nat.leb_gt; lia).
    done.
  - unfold Oid_fromString in Eo. destruct (_ && _); [done|]. injection Eo as <-.
    done.
Qed.

(** ** The search for the shortest accepted prefix *)

Lemma getShortId_loop_spec fuel : forall h w c,
  wf_odb (odb w) -> In (CommitObject c) (odb w) ->
  Nat.Even h -> (4 <= h <= 40)%nat -> (40 - h < 2 * fuel)%nat ->
  exists L w',
    (h <= L <= 40)%nat /\ Nat.Even L
    /\ getShortId_loop fuel (id c) h w
        = (Return (Some (base58.encode (Buffer.from_hex (slice0 L (id c))))), w')
    /\ same_repo w' w
    /\ (getCommitFromShortCommitId (slice0 L (id c)) w).1 = Return (Some c)
    /\ (forall L', (h <= L' < L)%nat -> Nat.Even L' ->
          (getCommitFromShortCommitId (slice0 L' (id c)) w).1 <> Return (Some c)).
Proof.
  induction fuel as [|fuel IH]; intros h w c Hwf Hin Hev Hh Hfuel; [lia|].
  assert (Hoid : is_oid (id c) = true) by apply (wf_odb_oid _ (CommitObject c) Hwf Hin).
  cbn [getShortId_loop]. rewrite (is_oid_length _ Hoid).
  replace (h <=? 40)%nat with true by (symmetry; apply Nat.leb_le; lia).
  destruct (resolver_returns w c h Hwf Hin ltac:(lia)) as (r & w1 & Er & Hw1 & Hr).
  unfold bind at 1. rewrite Er.
  destruct (match r with Some sc => String.eqb (id sc) (id c) | None => false end) eqn:Eacc.
  - destruct r as [sc|]; [|done]. apply String.eqb_eq in Eacc.
    assert (CommitObject sc = CommitObject c) as [= ->].
    { apply (wf_odb_inj (odb w)); auto. }
    exists h, w1. split; [lia|]. split; [done|]. split; [done|].
    split; [done|]. split; [by rewrite Er|]. intros L' HL'. lia.
  - assert (Hlt : (h < 40)%nat).
    { destruct (Nat.lt_ge_cases h 40) as [|Hge]; [done|]. exfalso.
      rewrite (resolver_full w c h Hwf Hin Hge) in Er. injection Er as <- <-.
      by rewrite String.eqb_refl in Eacc. }
    assert (Hev2 : Nat.Even (h + 2)) by (destruct Hev as [k ->]; exists (S k); lia).
    assert (h + 2 <= 40)%nat by (destruct Hev as [k ->]; lia).
    pose proof (same_repo_odb _ _ Hw1) as Eodb.
    destruct (IH (h + 2)%nat w1 c) as (L & w' & HL & HevL & Eloop & Hw' & Hres & Hmin);
      [by rewrite Eodb|by rewrite Eodb|done|lia|lia|].
    exists L, w'. split; [lia|]. split; [done|]. split; [done|].
    split; [by etrans|]. split.
    + rewrite <- Hres. symmetry. by apply query_result; [apply query_getCommitFromShortCommitId|].
    + intros L' HL' HevL'.
      destruct (Nat.eq_dec L' h) as [->|Hne].
      * rewrite Er. simpl. intros [= ->]. by rewrite String.eqb_refl in Eacc.
      * rewrite <- (query_result _ w1 w (query_getCommitFromShortCommitId _) Hw1).
        apply Hmin; [|done].
        destruct Hev as [k ->], HevL' as [k' ->]. lia.
Qed.

(** The canonical id: at length 40 the first try is accepted. *)
Lemma getShortId_loop_full fuel w c :
  wf_odb (odb w) -> In (CommitObject c) (odb w) ->
  getShortId_loop (S fuel) (id c) 40 w
  = (Return (Some (base58.encode (Buffer.from_hex (id c)))), w).
Proof.
  intros Hwf Hin.
  assert (Hoid : is_oid (id c) = true) by apply (wf_odb_oid _ (CommitObject c) Hwf Hin).
  cbn [getShortId_loop]. rewrite (is_oid_length _ Hoid).
  change (40 <=? 40)%nat with true. cbv iota.
  unfold bind at 1. rewrite (resolver_full w c 40 Hwf Hin) by lia.
  rewrite String.eqb_refl.
  rewrite slice0_all by (rewrite (is_oid_length _ Hoid); lia). done.
Qed.

Lemma getShortId_full w c :
  wf_odb (odb w) -> In (CommitObject c) (odb w) ->
  getShortId c 40 w = (Return (Some (base58.encode (Buffer.from_hex (id c)))), w).
Proof. intros Hwf Hin. unfold getShortId. by apply getShortId_loop_full. Qed.

(** Decoding an accepted identifier gives back the prefix it encodes. *)
Lemma resolve_encoded p w :
  Buffer.isLowerHex p = true -> Nat.Even (String.length p) ->
  resolve (base58.encode (Buffer.from_hex p)) w = getCommitFromShortCommitId p w.
Proof.
  intros Hhex Hev. unfold resolve, bind, lift.
  by rewrite Base58Facts.decode_encode, toString_hex_from_hex.
Qed.

Lemma Even_slice0_length L s :
  Nat.Even L -> (L <= String.length s)%nat -> Nat.Even (String.length (slice0 L s)).
Proof. intros Hev Hle. rewrite length_slice0. by rewrite Nat.min_l. Qed.

End Resolver.

(* ===================================================================== *)
(** * Identifiers: minimal prefixes and collisions *)
(* ===================================================================== *)

Section Identifiers.
Import git nodegit repository Query Resolver BufferFacts.

(** C4.  For a commit of a well-formed store, [getShortId] returns the
    base-58 encoding of a whole-byte prefix of the hash of some even
    length [L] between 4 and the full length: the resolver resolves that
    prefix to the commit, and resolves no shorter whole-byte prefix to it.
    The search therefore ends at the full hash length at the latest. *)
Theorem getShortId_minimal w c :
  wf_odb (odb w) -> In (CommitObject c) (odb w) ->
  exists L w',
    Nat.Even L /\ (MINIMUM_HASH <= L <= String.length (id c))%nat
    /\ getShortId c MINIMUM_HASH w
        = (Return (Some (base58.encode (Buffer.from_hex (slice0 L (id c))))), w')
    /\ (getCommitFromShortCommitId (slice0 L (id c)) w).1 = Return (Some c)
    /\ (forall L', Nat.Even L' -> (L' < L)%nat ->
          (getCommitFromShortCommitId (slice0 L' (id c)) w).1 <> Return (Some c)).
Proof.
  intros Hwf Hin.
  assert (Hoid : is_oid (id c) = true) by apply (wf_odb_oid _ (CommitObject c) Hwf Hin).
  unfold getShortId, MINIMUM_HASH. rewrite (is_oid_length _ Hoid).
  destruct (getShortId_loop_spec 41 4 w c Hwf Hin) as (L & w' & HL & HevL & E & _ & Hres & Hmin);
    [by exists 2%nat|lia|lia|].
  exists L, w'. repeat split; try done; try lia.
  intros L' HevL' Hlt.
  destruct (Nat.lt_ge_cases L' 4) as [Hshort|Hge].
  - apply resolver_short. rewrite length_slice0. lia.
  - apply Hmin; [lia|done].
Qed.

Lemma getShortId_minimal_witness :
  exists L w',
    Nat.Even L /\ (MINIMUM_HASH <= L <= String.length (id Examples.second))%nat
    /\ getShortId Examples.second MINIMUM_HASH Examples.world
        = (Return (Some (base58.encode (Buffer.from_hex (slice0 L (id Examples.second))))), w')
    /\ (getCommitFromShortCommitId (slice0 L (id Examples.second)) Examples.world).1
        = Return (Some Examples.second)
    /\ (forall L', Nat.Even L' -> (L' < L)%nat ->
          (getCommitFromShortCommitId (slice0 L' (id Examples.second)) Examples.world).1
          <> Return (Some Examples.second)).
Proof.
  apply getShortId_minimal.
  - apply (bool_decide_unpack _). vm_compute. exact I.
  - right. left. reflexivity.
Defined.

(** C1, as stated, fails: of two commits whose hashes share their first
    four digits and differ at the fifth, the one the disambiguation lists
    first keeps the four-digit prefix, so its shortId does not encode six
    digits or more. *)
Lemma shortId_collision_counterexample :
  wf_odb (odb Examples.world)
  /\ In (CommitObject Examples.first) (odb Examples.world)
  /\ In (CommitObject Examples.second) (odb Examples.world)
  /\ slice0 4 (id Examples.first) = slice0 4 (id Examples.second)
  /\ slice0 5 (id Examples.first) <> slice0 5 (id Examples.second)
  /\ (getShortId Examples.first MINIMUM_HASH Examples.world).1 = Return (Some "E25")
  /\ encoded_hex_length "E25" = Some 4%nat
  /\ ~ (exists s n,
          (getShortId Examples.first MINIMUM_HASH Examples.world).1 = Return (Some s)
          /\ encoded_hex_length s = Some n /\ (6 <= n)%nat).
Proof.
  split; [apply (bool_decide_unpack _); vm_compute; exact I|].
  split; [by left|]. split; [right; by left|].
  split; [reflexivity|]. split; [by vm_compute|].
  assert (E : (getShortId Examples.first MINIMUM_HASH Examples.world).1 = Return (Some "E25"))
    by (vm_compute; reflexivity).
  split; [exact E|]. split; [vm_compute; reflexivity|].
  intros (s & n & Es & En & Hn). rewrite E in Es. injection Es as <-.
  vm_compute in En. injection En as <-. lia.
Qed.

(** C1, amended.  Of two stored commits whose hashes share their first
    four digits and differ at the fifth, each gets a shortId that encodes
    a whole-byte prefix of its hash of at least four digits, at least one
    of the two (every one the resolver does not pick for the shared
    prefix) of at least six; and decoding either shortId and resolving it
    yields that record's own commit. *)
Theorem shortId_collision w a b :
  wf_odb (odb w) ->
  In (CommitObject a) (odb w) -> In (CommitObject b) (odb w) ->
  slice0 4 (id a) = slice0 4 (id b) -> slice0 5 (id a) <> slice0 5 (id b) ->
  exists La Lb wa wb,
    getShortId a MINIMUM_HASH w
      = (Return (Some (base58.encode (Buffer.from_hex (slice0 La (id a))))), wa)
    /\ getShortId b MINIMUM_HASH w
      = (Return (Some (base58.encode (Buffer.from_hex (slice0 Lb (id b))))), wb)
    /\ Nat.Even La /\ Nat.Even Lb
    /\ (4 <= La <= 40)%nat /\ (4 <= Lb <= 40)%nat
    /\ (6 <= La \/ 6 <= Lb)%nat
    /\ (resolve (base58.encode (Buffer.from_hex (slice0 La (id a)))) w).1 = Return (Some a)
    /\ (resolve (base58.encode (Buffer.from_hex (slice0 Lb (id b)))) w).1 = Return (Some b)
    /\ a <> b.
Proof.
  intros Hwf Ha Hb H4 H5.
  assert (Hoa : is_oid (id a) = true) by apply (wf_odb_oid _ (CommitObject a) Hwf Ha).
  assert (Hob : is_oid (id b) = true) by apply (wf_odb_oid _ (CommitObject b) Hwf Hb).
  destruct (getShortId_minimal w a Hwf Ha) as (La & wa & HevA & HLa & Ea & Ra & _).
  destruct (getShortId_minimal w b Hwf Hb) as (Lb & wb & HevB & HLb & Eb & Rb & _).
  rewrite (is_oid_length _ Hoa) in HLa. rewrite (is_oid_length _ Hob) in HLb.
  unfold MINIMUM_HASH in *.
  assert (Hne : a <> b) by (intros ->; by apply H5).
  exists La, Lb, wa, wb. repeat (split; [done|]).
  split; [|split; [|split; [|done]]].
  - destruct (Nat.lt_ge_cases La 6) as [HA|]; [|by left].
    destruct (Nat.lt_ge_cases Lb 6) as [HB|]; [|by right].
    exfalso.
    assert (La = 4%nat) as -> by (destruct HevA as [k ->]; lia).
    assert (Lb = 4%nat) as -> by (destruct HevB as [k ->]; lia).
    rewrite H4, Rb in Ra. by injection Ra.
  - rewrite resolve_encoded; [done| |].
    + by apply isLowerHex_slice0, is_oid_hex.
    + apply Even_slice0_length; [done|]. rewrite (is_oid_length _ Hoa). lia.
  - rewrite resolve_encoded; [done| |].
    + by apply isLowerHex_slice0, is_oid_hex.
    + apply Even_slice0_length; [done|]. rewrite (is_oid_length _ Hob). lia.
Qed.

Lemma shortId_collision_witness :
  exists La Lb wa wb,
    getShortId Examples.first MINIMUM_HASH Examples.world
      = (Return (Some (base58.encode (Buffer.from_hex (slice0 La (id Examples.first))))), wa)
    /\ getShortId Examples.second MINIMUM_HASH Examples.world
      = (Return (Some (base58.encode (Buffer.from_hex (slice0 Lb (id Examples.second))))), wb)
    /\ Nat.Even La /\ Nat.Even Lb
    /\ (4 <= La <= 40)%nat /\ (4 <= Lb <= 40)%nat
    /\ (6 <= La \/ 6 <= Lb)%nat
    /\ (resolve (base58.encode (Buffer.from_hex (slice0 La (id Examples.first))))
          Examples.world).1 = Return (Some Examples.first)
    /\ (resolve (base58.encode (Buffer.from_hex (slice0 Lb (id Examples.second))))
          Examples.world).1 = Return (Some Examples.second)
    /\ Examples.first <> Examples.second.
Proof.
  apply shortId_collision.
  - apply (bool_decide_unpack _). vm_compute. exact I.
  - left. reflexivity.
  - right. left. reflexivity.
  - reflexivity.
  - vm_compute. discriminate.
Defined.

(** The command the fallback spawns once its check has passed. *)
Lemma disambigateCommit_spawns s w :
  hex_of_at_least_4 s = true ->
  calls (disambigateCommit s w).2
  = calls w ++ [Exec ("git rev-parse --disambiguate=" +:+ s)].
Proof.
  intros H. unfold disambigateCommit. rewrite H. cbn [negb].
  unfold bind at 1.
  destruct (exec _ w) as [[out|e] w1] eqn:E; unfold exec, bind, modify, gets in E.
  - assert (w1 = record_call (Exec ("git rev-parse --disambiguate=" +:+ s)) w) as ->.
    { destruct (startsWith _ _); by injection E. }
    destruct (first_commit_returns (split_nl (trim out))
                (record_call (Exec ("git rev-parse --disambiguate=" +:+ s)) w))
      as (r & w' & -> & -> & _). done.
  - by destruct (startsWith _ _).
Qed.

(** C8.  An input that is not purely hexadecimal, or is shorter than four
    characters, makes the fallback return [null] with the world, and so
    the log of spawned processes, untouched: the check precedes the only
    [exec] of the function. *)
Theorem disambigateCommit_guard s w :
  isHex s = false \/ (String.length s < 4)%nat ->
  disambigateCommit s w = (Return None, w)
  /\ calls (disambigateCommit s w).2 = calls w.
Proof.
  intros H.
  assert (E : hex_of_at_least_4 s = false).
  { unfold hex_of_at_least_4. destruct H as [->|H]; [by rewrite andb_false_r|].
    replace (4 <=? String.length s)%nat with false; [done|].
    symmetry. apply Nat.leb_gt. lia. }
  unfold disambigateCommit. rewrite E. done.
Qed.

Lemma disambigateCommit_guard_witness :
  disambigateCommit "ab; rm -rf ~" Examples.world = (Return None, Examples.world)
  /\ calls (disambigateCommit "ab; rm -rf ~" Examples.world).2 = calls Examples.world.
Proof.
  apply disambigateCommit_guard. left. reflexivity.
Defined.

End Identifiers.


(* ===================================================================== *)
(** * The URL validator and the record codec *)
(* ===================================================================== *)

Section Codec.
Import git nodegit repository Query Resolver.
Context (P : node.Platform).







(** ** The read path *)

(** A record the read path returns is the object literal built from the
    parsed message of a commit with a valid [url]. *)
Lemma formatRedirectCommit_inv this c w r :
  (_formatRedirectCommit P this c w).1 = Return r ->
  exists f i s u,
    gray_matter.matter (trim (message c)) = Return f
    /\ isValidURL P (gray_matter.data f !! "url") = Return true
    /\ r = redirect_object i s u (gray_matter.content f)
             (VDate ((when_time (author c) + when_offset (author c) * 60) * 1000))
             (name (author c)) (gray_matter.data f).
Proof.
  unfold _formatRedirectCommit, _getRepository.
  unfold bind at 1. destruct (open_repository w) as [[[]|e] w1]; [|simpl; intros Habs; discriminate Habs].
  unfold bind at 1, lift at 1.
  destruct (gray_matter.matter (trim (message c))) as [f|e] eqn:Ef;
    [|simpl; intros Habs; discriminate Habs].
  unfold bind at 1, lift at 1.
  destruct (isValidURL P (gray_matter.data f !! "url")) as [[|]|e] eqn:Ev;
    [|simpl; intros Habs; discriminate Habs|simpl; intros Habs; discriminate Habs].
  cbn [negb]. unfold bind at 1.
  destruct (getShortId c 40 w1) as [[i|e] w2]; [|simpl; intros Habs; discriminate Habs].
  unfold bind at 1.
  destruct (getShortId c MINIMUM_HASH w2) as [[s|e] w3]; [|simpl; intros Habs; discriminate Habs].
  unfold bind at 1.
  destruct (_getShortUrl P this s w3) as [[u|e] w4]; [|simpl; intros Habs; discriminate Habs].
  simpl. intros [= <-]. by exists f, i, s, u.
Qed.

Lemma redirect_object_header i s u d cr who (data : gmap string string) k v :
  data !! k = Some v ->
  redirect_object i s u d cr who data !! k = Some (VString v).
Proof.
  intros H. unfold redirect_object.
  apply lookup_union_Some_l. by rewrite lookup_fmap, H.
Qed.

Lemma redirect_object_derived i s u d cr who (data : gmap string string) k :
  data !! k = None ->
  redirect_object i s u d cr who data !! k
  = (<["id" := ovalue i]> (<["shortId" := ovalue s]> (<["shortUrl" := u]>
      (<["description" := VString d]> (<["created" := cr]>
        (<["creator" := VString who]> (∅ : gmap string Value))))))) !! k.
Proof.
  intros H. unfold redirect_object.
  apply lookup_union_r. by rewrite lookup_fmap, H.
Qed.

(** C10.  Whatever key the header block of a commit's message carries,
    the record the read path returns has the header's value under that
    key; for [id], [shortId], [shortUrl], [description], [created] and
    [creator] it stands in place of the derived value, so that a header
    entry [id: x] with [x] other than the base-58 encoding of the hash
    makes the record's [id] differ from that encoding. *)
Theorem header_overrides_derived this c w r f k v :
  (_formatRedirectCommit P this c w).1 = Return r ->
  gray_matter.matter (trim (message c)) = Return f ->
  In k ["id"; "shortId"; "shortUrl"; "description"; "created"; "creator"] ->
  gray_matter.data f !! k = Some v ->
  r !! k = Some (VString v)
  /\ (k = "id" -> v <> base58.encode (Buffer.from_hex (id c)) ->
      r !! "id" <> Some (VString (base58.encode (Buffer.from_hex (id c))))).
Proof.
  intros Hr Hf _ Hk.
  destruct (formatRedirectCommit_inv this c w r Hr) as (f' & i & s & u & Ef & _ & ->).
  rewrite Hf in Ef. injection Ef as <-.
  split.
  - by apply redirect_object_header.
  - intros -> Hne. rewrite (redirect_object_header _ _ _ _ _ _ _ "id" v Hk).
    intros [= E]. done.
Qed.

End Codec.

Lemma header_overrides_derived_witness :
  exists r,
    (repository._formatRedirectCommit Examples.platform Examples.this Examples.renamed
       Examples.world_with_merge).1 = Return r
    /\ r !! "id" = Some (repository.VString "mine")
    /\ ("id" = "id" -> "mine" <> base58.encode (Buffer.from_hex (git.id Examples.renamed)) ->
        r !! "id" <> Some (repository.VString
                             (base58.encode (Buffer.from_hex (git.id Examples.renamed))))).
Proof.
  destruct (repository._formatRedirectCommit Examples.platform Examples.this Examples.renamed
              Examples.world_with_merge).1 as [r|e] eqn:E.
  2:{ exfalso.
      assert (H : is_Some (returned
                    (repository._formatRedirectCommit Examples.platform Examples.this
                       Examples.renamed Examples.world_with_merge).1))
        by (apply (bool_decide_unpack _); vm_compute; exact I).
      rewrite E in H. by destruct H. }
  exists r. split; [reflexivity|].
  apply (header_overrides_derived Examples.platform Examples.this Examples.renamed
           Examples.world_with_merge r
           {| gray_matter.content := "third";
              gray_matter.data := {[ "url" := "http://c.example/"; "id" := "mine" ]} |}).
  - exact E.
  - vm_compute. reflexivity.
  - left. reflexivity.
  - vm_compute. reflexivity.
Defined.

(* ===================================================================== *)
(** * Commits that are no records *)
(* ===================================================================== *)

Section Filtering.
Import git nodegit repository Query Resolver BufferFacts.
Context (P : node.Platform).

Lemma getCommit_stored w c :
  wf_odb (odb w) -> In (CommitObject c) (odb w) -> getCommit (id c) w = (Return c, w).
Proof.
  intros Hwf Hin.
  assert (Hoid : is_oid (id c) = true) by apply (wf_odb_oid _ (CommitObject c) Hwf Hin).
  unfold getCommit.
  rewrite (is_oid_length _ Hoid), isHex_lower_hex by by apply is_oid_hex.
  change ((40 =? 40)%nat && true) with true. cbv iota.
  munfold. rewrite toLowerCase_lower_hex by by apply is_oid_hex.
  by rewrite find_commit_wf.
Qed.




End Filtering.




(* ===================================================================== *)
(** * Synchronisation: push, and one retry after fetch and merge *)
(* ===================================================================== *)

Section Sync.
Import git nodegit repository Query.

Context (this : Repository).

Ltac open_world w :=
  destruct w as [disc objs brs rrefs hd rems ic ip st sac sig oidf pa fa ma cs];
  cbn [discoverable odb branches remote_refs HEAD remotes index_conflicts index_patches
       state state_after_cleanup default_signature object_id push_answers fetch_answers
       merge_answers calls] in *; subst.

Ltac run :=
  unfold commit, _getRepository, open_repository, getRemote, Remote_push, Remote_fetch,
    mergeBranches, tryCatch, bind, gets, modify, ret, throw, record_call, set_push_answers,
    set_fetch_answers, set_merge_answers, set_branches, set_odb;
  cbn [discoverable odb branches remote_refs HEAD remotes index_conflicts index_patches
       state state_after_cleanup default_signature object_id push_answers fetch_answers
       merge_answers calls fst snd negb tail].

(** An accepted push is the only call. *)
Lemma commit_pushed w :
  discoverable w = true -> is_Some (remotes w !! upstream this) ->
  (push_answers w = [] \/ exists rest, push_answers w = Return tt :: rest) ->
  (commit this w).1 = Return tt
  /\ calls (commit this w).2 = calls w ++ [Push (upstream this) [push_refspec this]].
Proof.
  intros Hd [u Hu] H. open_world w. run. rewrite Hu. run.
  destruct H as [->|[rest ->]]; done.
Qed.

(** A push that fails for another reason than non-fast-forward is raised
    at once. *)
Lemma commit_fatal w e rest :
  discoverable w = true -> is_Some (remotes w !! upstream this) ->
  push_answers w = Throw e :: rest -> errno e <> Some ENONFASTFORWARD ->
  (commit this w).1 = Throw e
  /\ calls (commit this w).2 = calls w ++ [Push (upstream this) [push_refspec this]].
Proof.
  intros Hd [u Hu] H He. open_world w. run. rewrite Hu. run.
  rewrite bool_decide_eq_false_2 by done. run. done.
Qed.

(** After a non-fast-forward rejection: fetch, merge and one more push,
    in that order and cut short by the first failure; the answer to the
    second push is the result. *)
Lemma commit_retry w e rest :
  discoverable w = true -> is_Some (remotes w !! upstream this) ->
  push_answers w = Throw e :: rest -> errno e = Some ENONFASTFORWARD ->
  exists k,
    (1 <= k <= 3)%nat
    /\ calls (commit this w).2
       = calls w ++ Push (upstream this) [push_refspec this]
           :: take k [Fetch (upstream this) [fetch_refspec this];
                      MergeBranches (branch this)
                        ("refs/remotes/" +:+ upstream this +:+ "/" +:+ branch this);
                      Push (upstream this) [push_refspec this]]
    /\ (k < 3 -> exists e', (commit this w).1 = Throw e')%nat
    /\ (k = 3%nat -> (commit this w).1 = match rest with [] => Return tt | a :: _ => a end).
Proof.
  intros Hd [u Hu] H He. open_world w. run. rewrite Hu. run.
  rewrite bool_decide_eq_true_2 by done. run.
  destruct fa as [|[got|e1] fs]; run.
  3:{ exists 1%nat. split; [lia|]. split; [by rewrite <- !app_assoc|].
      split; [by eexists|lia]. }
  all: destruct (brs !! branch this) as [ours|];
    [destruct (rrefs !! ("refs/remotes/" +:+ upstream this +:+ "/" +:+ branch this))
       as [theirs|]|];
    try (exists 2%nat; split; [lia|]; split; [by rewrite <- !app_assoc|];
         split; [by eexists|lia]).
  all: destruct ma as [|[| | |e2] ms]; run;
    try (exists 2%nat; split; [lia|]; split; [by rewrite <- !app_assoc|];
         split; [by eexists|lia]).
  all: exists 3%nat; split; [lia|]; split.
  all: try (destruct rest; run; by rewrite <- !app_assoc).
  all: split; [intros ?; lia|]; intros _; by destruct rest.
Qed.

End Sync.

(** The reference specification the retry fetches with names neither the
    branch the push names on the remote nor the remote-tracking reference
    that is merged next. *)
Lemma fetch_refspec_names this :
  repository.fetch_refspec this
  <> "refs/heads/" +:+ repository.branch this +:+ ":refs/remotes/"
     +:+ repository.upstream this +:+ "/" +:+ repository.branch this.
Proof. unfold repository.fetch_refspec. simpl. discriminate. Qed.

(** C5 at a rejected push: the calls [commit()] makes.  The fetch asks
    for [remotes/origin/master] and writes [refs/head/master]; the push
    names [refs/heads/master] and the merge reads
    [refs/remotes/origin/master]. *)
Lemma sync_after_rejection :
  git.calls (repository.commit Examples.this Examples.world_rejected).2
  = [git.Push "origin" ["refs/heads/master:refs/heads/master"];
     git.Fetch "origin" ["remotes/origin/master:refs/head/master"];
     git.MergeBranches "master" "refs/remotes/origin/master";
     git.Push "origin" ["refs/heads/master:refs/heads/master"]].
Proof. vm_compute. reflexivity. Qed.

(* ===================================================================== *)
(** * Write preconditions of [create] *)
(* ===================================================================== *)

Section Create.
Import git nodegit repository Query.
Context (P : node.Platform).

Lemma hasStagedChanges_world w : (hasStagedChanges w).2 = w.
Proof.
  unfold hasStagedChanges, getHeadCommit, treeToIndex_patches, bind, gets, ret.
  by destruct (branches w !! HEAD w ≫= _).
Qed.

Lemma hasStagedChanges_returns w : exists b, (hasStagedChanges w).1 = Return b.
Proof.
  unfold hasStagedChanges, getHeadCommit, treeToIndex_patches, bind, gets, ret.
  destruct (branches w !! HEAD w ≫= _); by eexists.
Qed.

(** C2, amended.  [create] checks, in this order: the URL; that the
    tracked branch can be checked out; that the index has no conflicts;
    that it has no staged changes; and, once [stateCleanup] has removed
    the metadata of an operation in progress, that the state it leaves is
    [NONE].  Each failing check raises an error of its own, and the world
    it leaves has the branch tips of the world it started from. *)
Theorem create_checks this fields w :
  let out := create P this fields w in
  let w1 := set_HEAD (branch this) w in
  (isValidURL P (url fields) = Return false ->
     out = (Throw (Error "A Valid URL is required."), w))
  /\ (isValidURL P (url fields) = Return true -> discoverable w = true ->
      (branches w !! branch this = None ->
         out = (Throw (GitError ENOTFOUND "reference not found"), w))
      /\ (is_Some (branches w !! branch this) ->
          (index_conflicts w = true ->
             out = (Throw (Error "Datatabase Repository has Conflicts, cannot proceed."), w1))
          /\ (index_conflicts w = false ->
              ((hasStagedChanges w1).1 = Return true ->
                 out = (Throw (Error "Datatabase Repository has Staged Changes, cannot proceed."),
                        w1))
              /\ ((hasStagedChanges w1).1 = Return false ->
                  state_after_cleanup w <> STATE_NONE ->
                  out = (Throw (Error "Database Repository is in an invalid state."),
                         set_state (state_after_cleanup w) w1)))))
  /\ branches w1 = branches w
  /\ branches (set_state (state_after_cleanup w) w1) = branches w
  /\ NoDup [Error "A Valid URL is required.";
            GitError ENOTFOUND "reference not found";
            Error "Datatabase Repository has Conflicts, cannot proceed.";
            Error "Datatabase Repository has Staged Changes, cannot proceed.";
            Error "Database Repository is in an invalid state."].
Proof.
  intros out w1.
  assert (Eout : out = create P this fields w) by reflexivity. clearbody out.
  split; [|split; [|split; [done|split; [done|]]]].
  3:{ apply (bool_decide_unpack _). vm_compute. exact I. }
  - intros Hv. rewrite Eout. unfold create, bind at 1, lift at 1. by rewrite Hv.
  - intros Hv Hd.
    unfold create, bind at 1, lift at 1 in Eout. rewrite Hv in Eout. cbn [negb] in Eout.
    unfold _getRepository, open_repository in Eout.
    unfold bind at 1, bind at 1, gets at 1 in Eout. rewrite Hd in Eout.
    unfold ret at 1, checkoutBranch in Eout.
    unfold bind at 1, bind at 1, gets at 1 in Eout.
    destruct (branches w !! branch this) as [tip|] eqn:Hb.
    2:{ split; [by intros _|]. by intros [? [=]]. }
    split; [by intros [=]|]. intros _.
    unfold modify at 1, refreshIndex at 1, bind at 1, ret at 1 in Eout.
    unfold hasConflicts at 1, bind at 1, gets at 1 in Eout.
    change (index_conflicts (set_HEAD (branch this) w)) with (index_conflicts w) in Eout.
    fold w1 in Eout.
    destruct (index_conflicts w) eqn:Hc.
    { split; [by intros _|]. by intros [=]. }
    split; [by intros [=]|]. intros _.
    unfold bind at 1 in Eout.
    pose proof (hasStagedChanges_world w1) as Hw.
    destruct (hasStagedChanges w1) as [[staged|e] w2]; cbn [fst snd] in *; subst w2.
    2:{ split; by intros [=]. }
    destruct staged.
    { split; [by intros _|]. by intros [=]. }
    split; [by intros [=]|]. intros _ Hs.
    unfold not_Promise, stateCleanup, bind at 1 in Eout.
    unfold bind at 1, gets at 1 in Eout.
    change (state (set_state ?s ?x)) with s in Eout.
    change (state_after_cleanup w1) with (state_after_cleanup w) in Eout.
    by rewrite bool_decide_eq_false_2 in Eout.
Qed.

End Create.

Lemma create_checks_witness :
  repository.create Examples.platform Examples.this Examples.fields
    (git.set_branches ∅ Examples.world)
  = (Throw (GitError ENOTFOUND "reference not found"), git.set_branches ∅ Examples.world).
Proof.
  pose proof (create_checks Examples.platform Examples.this Examples.fields
                (git.set_branches ∅ Examples.world)) as H.
  cbv zeta in H. destruct H as (_ & H & _).
  apply H; reflexivity.
Defined.

(** C2, as stated, fails: with a merge in progress [create] does not
    raise; [stateCleanup] removes the merge state, the commit is written
    and the tracked branch moves to it. *)
Lemma create_mid_merge_counterexample :
  git.state Examples.world_mid_merge = git.STATE_MERGE
  /\ is_Some (returned (repository.create Examples.platform Examples.this Examples.fields
                          Examples.world_mid_merge).1)
  /\ git.branches (repository.create Examples.platform Examples.this Examples.fields
                     Examples.world_mid_merge).2 !! "master"
     = Some "cd34e00000000000000000000000000000000003"
  /\ git.branches Examples.world_mid_merge !! "master"
     = Some "ab12d00000000000000000000000000000000002".
Proof.
  split; [reflexivity|].
  split; [apply (bool_decide_unpack _); vm_compute; exact I|].
  split; vm_compute; reflexivity.
Qed.

(** The fifth check tests a Promise that was not awaited and never
    fires: without a head commit [create] writes a root commit. *)
Lemma create_without_head :
  (nodegit.getHeadCommit (git.set_HEAD "master" Examples.world_without_head)).1 = Return None
  /\ is_Some (returned (repository.create Examples.platform Examples.this Examples.fields
                          Examples.world_without_head).1)
  /\ git.commits (git.odb (repository.create Examples.platform Examples.this Examples.fields
                            Examples.world_without_head).2)
     = [Examples.first; Examples.second;
        {| git.id := "cd34e00000000000000000000000000000000003";
           git.message := "---" +:+ Examples.LF +:+ "url: https://x.example/p" +:+ Examples.LF
                          +:+ "tag: t1" +:+ Examples.LF +:+ "---" +:+ Examples.LF +:+ "hello";
           git.author := Examples.ann 3000 0; git.committer := Examples.ann 3000 0;
           git.parents := [] |}].
Proof.
  split; [vm_compute; reflexivity|].
  split; [apply (bool_decide_unpack _); vm_compute; exact I|].
  vm_compute. reflexivity.
Qed.


(* ===================================================================== *)
(** * The history walk *)
(* ===================================================================== *)

Module Walk.
Import git nodegit repository Query Resolver.

Lemma insert_by_time_In c l x :
  In x (Revwalk.insert_by_time c l) <-> x = c \/ In x l.
Proof.
  induction l as [|y l IH]; simpl; [intuition auto|].
  destruct (time y <? time c)%Z; simpl; [intuition auto|].
  rewrite IH. intuition auto.
Qed.

Lemma sort_by_time_In l x : In x (Revwalk.sort_by_time l) <-> In x l.
Proof.
  induction l as [|y l IH]; simpl; [done|].
  rewrite insert_by_time_In, IH. intuition auto.
Qed.






End Walk.

Section Ordering.
Import git nodegit repository Query Resolver Walk.
Context (P : node.Platform).




End Ordering.





(* ===================================================================== *)
(** * The message [create] crafts reads back as written *)
(* ===================================================================== *)

Module Message.
Import repository.

Lemma append_assoc (a b c : string) : (a +:+ b) +:+ c = a +:+ (b +:+ c).
Proof.
  induction a as [|x a IH]; [done|].
  change (String x ((a +:+ b) +:+ c) = String x (a +:+ b +:+ c)). by f_equal.
Qed.

Lemma append_nil_r (a : string) : a +:+ "" = a.
Proof.
  induction a as [|x a IH]; [done|].
  change (String x (a +:+ "") = String x a). by f_equal.
Qed.

(** ** Lines *)



Lemma split_nl_line l s :
  string_forallb (fun c => negb (Ascii.eqb c "010"%char)) l = true ->
  split_nl (l +:+ String "010"%char s) = l :: split_nl s.
Proof.
  induction l as [|c l IH]; simpl; [done|].
  intros [Hc Hl]%andb_prop. apply negb_true_iff in Hc. rewrite Hc.
  by rewrite IH.
Qed.

Lemma split_nl_single l :
  string_forallb (fun c => negb (Ascii.eqb c "010"%char)) l = true -> split_nl l = [l].
Proof.
  induction l as [|c l IH]; simpl; [done|].
  intros [Hc Hl]%andb_prop. apply negb_true_iff in Hc. rewrite Hc.
  by rewrite IH.
Qed.

Lemma join_nl_cons l ls :
  ls <> [] -> join_nl (l :: ls) = l +:+ String "010"%char (join_nl ls).
Proof. by destruct ls. Qed.


(** ** Trimming *)

Lemma trimEnd_app a b : trimEnd b <> "" -> trimEnd (a +:+ b) = a +:+ trimEnd b.
Proof.
  intros Hb. induction a as [|c a IH]; [done|].
  change (trimEnd (String c (a +:+ b)) = String c (a +:+ trimEnd b)).
  cbn [trimEnd]. rewrite IH.
  destruct (a +:+ trimEnd b) eqn:E; [|done].
  exfalso. destruct a; [by apply Hb|discriminate E].
Qed.


(** ** Plain scalars *)





Lemma string_forallb_impl (p q : ascii -> bool) s :
  (forall c, p c = true -> q c = true) ->
  string_forallb p s = true -> string_forallb q s = true.
Proof.
  intros Hpq. induction s as [|c s IH]; [done|]. simpl.
  intros [Hc Hs]%andb_prop. by rewrite (Hpq c Hc), IH.
Qed.




Lemma prefix_nil s : String.prefix "" s = true.
Proof. by destruct s. Qed.




(** ** The header block *)






(** ** The whole message *)




End Message.

(* ===================================================================== *)
(** * Round trip: [create], then [get] by the returned id *)
(* ===================================================================== *)

Section RoundTrip.
Import git nodegit repository Query Resolver BufferFacts Message.
Context (P : node.Platform).

Lemma same_repo_discoverable w w' : same_repo w w' -> discoverable w = discoverable w'.
Proof. intros H. apply (f_equal discoverable) in H. exact H. Qed.

(** Synchronisation only adds objects. *)
Lemma commit_keeps_objects this w o :
  In o (odb w) -> In o (odb (commit this w).2).
Proof.
  intros Hin.
  destruct w as [disc objs brs rrefs hd rems ic ip st sac sig oidf pa fa ma cs].
  unfold commit, _getRepository, open_repository, getRemote, Remote_push, Remote_fetch,
    mergeBranches, tryCatch, bind, gets, modify, ret, throw, record_call, set_push_answers,
    set_fetch_answers, set_merge_answers, set_branches, set_odb.
  simpl in *.
  destruct disc; [|exact Hin]. simpl.
  destruct (rems !! upstream this); [|exact Hin]. simpl.
  destruct pa as [|[[]|e] pa]; [exact Hin|exact Hin|]. simpl.
  destruct (negb (bool_decide (errno e = Some ENONFASTFORWARD))); [exact Hin|]. simpl.
  assert (Hgrow : forall more, In o (objs ++ more)) by (intros more; apply in_or_app; by left).
  destruct fa as [|[got|e1] fa]; simpl; [| |exact Hin].
  all: destruct (brs !! branch this); simpl; [|first [exact Hin|apply Hgrow]].
  all: destruct (rrefs !! ("refs/remotes/" +:+ upstream this +:+ "/" +:+ branch this));
    simpl; [|first [exact Hin|apply Hgrow]].
  all: destruct ma as [|[| | |e2] ma]; simpl.
  all: destruct pa as [|a pa]; simpl.
  all: first [exact Hin|apply Hgrow|apply in_or_app; left; apply Hgrow].
Qed.

(** A lookup by the canonical id of a stored commit is the read path on
    that commit. *)
Lemma get_stored this c w :
  discoverable w = true -> wf_odb (odb w) -> In (CommitObject c) (odb w) ->
  get P this (base58.encode (Buffer.from_hex (id c))) w = _formatRedirectCommit P this c w.
Proof.
  intros Hd Hwf Hin.
  assert (Hoid : is_oid (id c) = true) by apply (wf_odb_oid _ (CommitObject c) Hwf Hin).
  assert (Hres : resolve (base58.encode (Buffer.from_hex (id c))) w = (Return (Some c), w)).
  { rewrite resolve_encoded; [|by apply is_oid_hex|].
    - rewrite <- (slice0_all 40 (id c)) at 1 by (rewrite (is_oid_length _ Hoid); lia).
      by apply resolver_full.
    - rewrite (is_oid_length _ Hoid). by exists 20%nat. }
  unfold get.
  destruct (String.eqb_spec (base58.encode (Buffer.from_hex (id c))) "") as [E|_].
  { exfalso. pose proof (Base58Facts.decode_encode (Buffer.from_hex (id c))) as Hde.
    assert (Hd0 : base58.decode "" = Return []) by reflexivity.
    rewrite E, Hd0 in Hde. injection Hde as Hde.
    pose proof (toString_hex_from_hex (id c) (is_oid_hex _ Hoid)) as Hth.
    rewrite <- Hde in Hth. cbn [Buffer.toString_hex] in Hth.
    pose proof (is_oid_length _ Hoid) as Hlen.
    rewrite <- Hth in Hlen; [done|]. rewrite Hlen. by exists 20%nat. }
  unfold _getRepository, open_repository. munfold. rewrite Hd.
  fold (resolve (base58.encode (Buffer.from_hex (id c)))).
  unfold resolve, bind, lift in Hres.
  destruct (base58.decode _) as [bytes|e]; [|done].
  by rewrite Hres.
Qed.

(** In a well-formed store the derived [id] is the canonical one. *)
Lemma formatRedirectCommit_inv_wf this c w r :
  wf_odb (odb w) -> In (CommitObject c) (odb w) ->
  (_formatRedirectCommit P this c w).1 = Return r ->
  discoverable w = true
  /\ exists f s u,
    gray_matter.matter (trim (message c)) = Return f
    /\ r = redirect_object (Some (base58.encode (Buffer.from_hex (id c)))) s u
             (gray_matter.content f) (created_of c) (name (author c)) (gray_matter.data f).
Proof.
  intros Hwf Hin.
  unfold _formatRedirectCommit, _getRepository, open_repository.
  unfold bind at 1, bind at 1, gets at 1.
  destruct (discoverable w) eqn:Hd; [|simpl; by intros [=]].
  unfold ret at 1.
  unfold bind at 1, lift at 1.
  destruct (gray_matter.matter (trim (message c))) as [f|e] eqn:Ef; [|simpl; by intros [=]].
  unfold bind at 1, lift at 1.
  destruct (isValidURL P (gray_matter.data f !! "url")) as [[|]|e] eqn:Ev;
    [|simpl; by intros [=]|simpl; by intros [=]].
  cbn [negb]. unfold bind at 1. rewrite (getShortId_full w c Hwf Hin).
  unfold bind at 1.
  destruct (getShortId c MINIMUM_HASH w) as [[s|e] w3]; [|simpl; by intros [=]].
  unfold bind at 1.
  destruct (_getShortUrl P this s w3) as [[u|e] w4]; [|simpl; by intros [=]].
  simpl. intros [= <-]. split; [done|]. by exists f, s, u.
Qed.

(** What a successful [create] has done: it wrote one commit carrying
    the crafted message, read it back, possibly synchronised, and
    formatted the commit it read. *)
Lemma create_inv this fields w r w1 :
  create P this fields w = (Return r, w1) ->
  exists wc wd new created,
    message new = crafted_message fields
    /\ In (CommitObject new) (odb wc)
    /\ In (CommitObject created) (odb wc)
    /\ id created = toLowerCase (id new)
    /\ (forall o, In o (odb wc) -> In o (odb wd))
    /\ _formatRedirectCommit P this created wd = (Return r, w1).
Proof.
  intros Eout.
  unfold create, bind at 1, lift at 1 in Eout.
  destruct (isValidURL P (url fields)) as [[|]|e]; [|done|done].
  cbn [negb] in Eout.
  unfold _getRepository, open_repository in Eout.
  unfold bind at 1, bind at 1, gets at 1 in Eout.
  destruct (discoverable w); [|done].
  unfold ret at 1, checkoutBranch in Eout.
  unfold bind at 1, bind at 1, gets at 1 in Eout.
  destruct (branches w !! branch this) as [tip|]; [|done].
  unfold modify at 1, refreshIndex at 1, bind at 1, ret at 1 in Eout.
  unfold hasConflicts at 1, bind at 1, gets at 1 in Eout.
  destruct (index_conflicts (set_HEAD (branch this) w)); [done|].
  unfold bind at 1 in Eout.
  pose proof (hasStagedChanges_world (set_HEAD (branch this) w)) as Hw.
  destruct (hasStagedChanges (set_HEAD (branch this) w)) as [[staged|e] w2];
    cbn [fst snd] in *; subst w2; [|done].
  destruct staged; [done|].
  unfold not_Promise, stateCleanup, bind at 1 in Eout.
  unfold bind at 1, gets at 1 in Eout.
  destruct (negb (bool_decide (state _ = STATE_NONE))); [done|].
  unfold Signature_default in Eout.
  unfold bind at 1, gets at 1 in Eout.
  unfold bind at 1, gets at 1 in Eout.
  unfold bind at 1, createCommitOnHead, bind at 1, getHeadCommit, gets at 1 in Eout.
  fold (description_of fields) in Eout. fold (crafted_message fields) in Eout.
  set (w4 := set_state _ _) in Eout.
  set (new := {| id := _; message := crafted_message fields |}) in Eout.
  set (wc := set_branches _ _) in Eout.
  assert (Hnew : In (CommitObject new) (odb wc)).
  { subst wc. destruct w4. simpl. apply in_or_app. right. by left. }
  unfold bind at 1 in Eout.
  assert (Hget : forall c wx, getCommit (id new) wc = (Return c, wx) ->
                 wx = wc /\ In (CommitObject c) (odb wc) /\ id c = toLowerCase (id new)).
  { intros c wx. unfold getCommit. destruct (_ && _); [|done].
    unfold bind, gets. destruct (find_commit _ _) as [c'|] eqn:Ef; [|done].
    intros [= <- <-]. apply find_commit_In in Ef. by destruct Ef. }
  change (object_id _ _ _ _) with (id new) in Eout.
  destruct (getCommit (id new) wc) as [[created|e] wx]; [|done].
  destruct (Hget created wx eq_refl) as (-> & Hin & Hid).
  unfold bind at 1 in Eout.
  destruct (default true (shouldCommit fields)).
  - pose proof (fun o => commit_keeps_objects this wc o) as Hkeep.
    destruct (commit this wc) as [[[]|e] wd]; [|done].
    by exists wc, wd, new, created.
  - by exists wc, wc, new, created.
Qed.


End RoundTrip.



(** A rest property named [id] replaces the id of the returned record,
    and no commit is found under it. *)
Lemma create_with_id_field :
  let out := repository.create Examples.platform Examples.this Examples.fields_with_id
               Examples.world in
  returned out.1 ≫= (.!! "id") = Some (repository.VString "mine")
  /\ (repository.get Examples.platform Examples.this "mine" out.2).1
     = Throw (GitError ENOTFOUND "no match for id prefix").
Proof. cbv zeta. split; vm_compute; reflexivity. Qed.


(* ===================================================================== *)
(** * The resolver returns what was asked for *)
(* ===================================================================== *)

Module Listing.
Import git nodegit repository Query Resolver BufferFacts Message.

Lemma length_toLowerCase s : String.length (toLowerCase s) = String.length s.
Proof. induction s as [|c s IH]; [done|]. simpl. by rewrite IH. Qed.

Lemma toLowerCase_char_idem c : toLowerCase_char (toLowerCase_char c) = toLowerCase_char c.
Proof. destruct c as [[] [] [] [] [] [] [] []]; reflexivity. Qed.

Lemma toLowerCase_idem s : toLowerCase (toLowerCase s) = toLowerCase s.
Proof. induction s as [|c s IH]; [done|]. simpl. by rewrite toLowerCase_char_idem, IH. Qed.

Lemma startsWith_app a b : startsWith a (a +:+ b) = true.
Proof.
  unfold startsWith. induction a as [|c a IH]; simpl; [apply prefix_nil|].
  by destruct (ascii_dec c c).
Qed.

Lemma sliceFrom_app a b : sliceFrom (String.length a) (a +:+ b) = b.
Proof. induction a as [|c a IH]; [by destruct b|]. exact IH. Qed.

Lemma trimEnd_app_blank a b : trimEnd b = "" -> trimEnd (a +:+ b) = trimEnd a.
Proof.
  intros Hb. induction a as [|c a IH]; [done|].
  change (trimEnd (String c (a +:+ b)) = trimEnd (String c a)).
  cbn [trimEnd]. by rewrite IH.
Qed.

Lemma trimEnd_no_space s :
  string_forallb (fun c => negb (isWhiteSpace c)) s = true -> trimEnd s = s.
Proof.
  induction s as [|c s IH]; [done|]. cbn [string_forallb trimEnd].
  intros [Hc Hs]%andb_prop. rewrite IH by done.
  destruct s; [|done]. by destruct (isWhiteSpace c).
Qed.

Lemma lower_hex_no_space s :
  Buffer.isLowerHex s = true -> string_forallb (fun c => negb (isWhiteSpace c)) s = true.
Proof.
  apply string_forallb_impl. intros c H.
  destruct c as [[] [] [] [] [] [] [] []]; try discriminate H; reflexivity.
Qed.

Lemma lower_hex_no_newline s :
  Buffer.isLowerHex s = true ->
  string_forallb (fun c => negb (Ascii.eqb c "010"%char)) s = true.
Proof.
  apply string_forallb_impl. intros c H.
  destruct c as [[] [] [] [] [] [] [] []]; try discriminate H; reflexivity.
Qed.


Lemma append_char c x : String c "" +:+ x = String c x.
Proof. reflexivity. Qed.

Lemma append_cons c a x : String c a +:+ x = String c (a +:+ x).
Proof. reflexivity. Qed.

Lemma concat_cons x xs :
  String.concat "" (x :: xs) = x +:+ String.concat "" xs.
Proof. destruct xs; [by rewrite append_nil_r|done]. Qed.

Lemma trimEnd_cons c s : trimEnd s <> "" -> trimEnd (String c s) = String c (trimEnd s).
Proof. cbn [trimEnd]. by destruct (trimEnd s). Qed.

Lemma join_nl_nonempty ids : (exists i rest, ids = i :: rest /\ i <> "") -> join_nl ids <> "".
Proof.
  intros (i & rest & -> & Hi). destruct rest; [done|].
  rewrite join_nl_cons by done. by destruct i.
Qed.

Lemma split_join ids :
  Forall (fun i => string_forallb (fun c => negb (Ascii.eqb c "010"%char)) i = true) ids ->
  ids <> [] -> split_nl (join_nl ids) = ids.
Proof.
  induction 1 as [|i ids Hi Hids IH]; [done|]. intros _.
  destruct ids as [|j ids].
  - by apply split_nl_single.
  - rewrite join_nl_cons by done. rewrite split_nl_line by done. by rewrite IH.
Qed.

(** The standard output of [git rev-parse --disambiguate], trimmed and
    split, is the list of the ids it names. *)
Lemma listing_lines (l : list GitObject) :
  Forall (fun o => is_oid (oid o) = true) l -> l <> [] ->
  split_nl (trim (String.concat ""
                    (map (fun o => oid o +:+ String "010"%char "") l)))
  = map oid l.
Proof.
  intros Hl Hne.
  assert (Hend : trimEnd (String.concat ""
                   (map (fun o => oid o +:+ String "010"%char "") l))
                 = join_nl (map oid l)).
  { induction Hl as [|o l Ho Hl IH]; [done|].
    cbn [map]. rewrite concat_cons.
    pose proof (is_oid_hex _ Ho) as Hhex.
    destruct l as [|o' l].
    - cbn [map String.concat]. rewrite append_nil_r.
      rewrite trimEnd_app_blank by reflexivity.
      by apply trimEnd_no_space, lower_hex_no_space.
    - rewrite append_assoc.
      assert (Hrest : trimEnd (String.concat ""
                        (map (fun o => oid o +:+ String "010"%char "") (o' :: l)))
                      <> "").
      { rewrite IH by done. apply join_nl_nonempty.
        exists (oid o'), (map oid l). split; [done|].
        inversion Hl as [|? ? Ho' _]; subst. apply is_oid_length in Ho'.
        intros E. by rewrite E in Ho'. }
      rewrite append_char.
      rewrite trimEnd_app by (rewrite trimEnd_cons; done).
      rewrite trimEnd_cons by done. rewrite IH by done.
      by rewrite join_nl_cons. }
  unfold trim.
  assert (Hstart : trimStart (String.concat ""
                     (map (fun o => oid o +:+ String "010"%char "") l))
                   = String.concat "" (map (fun o => oid o +:+ String "010"%char "") l)).
  { destruct Hl as [|o l Ho Hl]; [done|].
    cbn [map]. rewrite concat_cons.
    pose proof (is_oid_length _ Ho) as Hlen.
    pose proof (lower_hex_no_space _ (is_oid_hex _ Ho)) as Hsp.
    destruct (oid o) as [|c i]; [done|].
    cbn [string_forallb] in Hsp. apply andb_prop in Hsp as [Hc _].
    rewrite !append_cons.
    cbn [trimStart]. by destruct (isWhiteSpace c). }
  rewrite Hstart, Hend.
  apply split_join.
  - apply Forall_map. eapply Forall_impl; [exact Hl|].
    intros o Ho. by apply lower_hex_no_newline, is_oid_hex.
  - by destruct l.
Qed.

Lemma first_commit_In ids w c w' :
  first_commit ids w = (Return (Some c), w') ->
  w' = w /\ exists i, In i ids /\ String.length i = 40%nat
                      /\ find_commit (toLowerCase i) (odb w) = Some c.
Proof.
  induction ids as [|i ids IH]; [done|].
  cbn [first_commit]. unfold getCommit. munfold.
  destruct (String.length i =? 40)%nat eqn:El; cbn [andb].
  - destruct (isHex i).
    + destruct (find_commit (toLowerCase i) (odb w)) as [c'|] eqn:Ec.
      * intros [= <- <-]. split; [done|]. exists i. apply Nat.eqb_eq in El.
        split; [by left|done].
      * intros H. destruct (IH H) as (-> & j & Hj & Hf).
        split; [done|]. exists j. split; [by right|done].
    + intros H. destruct (IH H) as (-> & j & Hj & Hf).
      split; [done|]. exists j. split; [by right|done].
  - intros H. destruct (IH H) as (-> & j & Hj & Hf).
    split; [done|]. exists j. split; [by right|done].
Qed.

Lemma matching_wf p objs :
  wf_odb objs -> Forall (fun o => is_oid (oid o) = true) (matching p objs).
Proof.
  intros [_ H]. apply Forall_forall. intros o Ho%list_elem_of_In%matching_In.
  rewrite Forall_forall in H. apply H. apply list_elem_of_In. tauto.
Qed.

(** The fallback returns a stored commit whose id begins with the
    digits it was asked to disambiguate. *)
Lemma disambigateCommit_sound s w c w' :
  wf_odb (odb w) ->
  disambigateCommit s w = (Return (Some c), w') ->
  In (CommitObject c) (odb w) /\ startsWith (toLowerCase s) (id c) = true
  /\ same_repo w' w.
Proof.
  intros Hwf. unfold disambigateCommit.
  destruct (negb (hex_of_at_least_4 s)); [done|].
  unfold bind at 1, exec. unfold bind at 1, modify at 1. unfold bind at 1, gets at 1.
  rewrite startsWith_app. unfold ret at 1.
  change (String.length rev_parse_disambiguate)
    with (String.length "git rev-parse --disambiguate=").
  rewrite sliceFrom_app.
  set (w1 := record_call _ w).
  change (odb w1) with (odb w).
  intros H. apply first_commit_In in H as (-> & i & Hi & Hlen & Hf).
  split; [|split; [|done]].
  - by apply find_commit_In in Hf as [? _].
  - destruct (matching (toLowerCase s) (odb w)) as [|o l] eqn:Em.
    + cbn in Hi. by destruct Hi as [<-|[]].
    + rewrite <- Em in Hi.
      rewrite listing_lines in Hi; [|by apply matching_wf|by rewrite Em].
      apply in_map_iff in Hi as (o' & <- & Ho').
      apply matching_In in Ho' as [Hin Hp].
      apply find_commit_In in Hf as [_ Hid].
      pose proof (wf_odb_oid _ _ Hwf Hin) as Hoid.
      rewrite (toLowerCase_lower_hex _ (is_oid_hex _ Hoid)) in Hid.
      by rewrite Hid.
Qed.

End Listing.

Section ResolverSound.
Import git nodegit repository Query Resolver BufferFacts Listing.

(** X1.  Whatever commit the resolver returns is stored in the object
    database and its id begins with the digits asked for (in lower
    case), by the direct lookup and by the fallback alike; the
    repository is left as it was. *)
Theorem resolver_sound s w c w' :
  wf_odb (odb w) ->
  getCommitFromShortCommitId s w = (Return (Some c), w') ->
  In (CommitObject c) (odb w)
  /\ startsWith (toLowerCase s) (id c) = true
  /\ same_repo w' w.
Proof.
  intros Hwf. unfold getCommitFromShortCommitId, Commit_lookupPrefix. munfold.
  unfold Oid_fromString.
  destruct (_ && isHex s); cbn beta iota; [|done].
  destruct (String.length s <? 4)%nat.
  { cbn [errno]. rewrite bool_decide_eq_true_2 by done. cbn [negb].
    by apply disambigateCommit_sound. }
  rewrite slice0_all by (by rewrite length_toLowerCase).
  destruct (matching (toLowerCase s) (odb w)) as [|[c'|i] [|? ?]] eqn:Em;
    cbn [errno]; try done.
  - intros [= -> <-].
    assert (Hin : In (CommitObject c) (matching (toLowerCase s) (odb w)))
      by (rewrite Em; by left).
    apply matching_In in Hin as [Hin Hp]. by repeat split.
  - rewrite bool_decide_eq_true_2 by done. cbn [negb].
    by apply disambigateCommit_sound.
  - rewrite bool_decide_eq_true_2 by done. cbn [negb].
    by apply disambigateCommit_sound.
Qed.

End ResolverSound.

Lemma resolver_sound_witness :
  In (git.CommitObject Examples.second) (git.odb Examples.world)
  /\ startsWith (toLowerCase "AB12D") (git.id Examples.second) = true
  /\ git.same_repo Examples.world Examples.world.
Proof.
  apply (resolver_sound "AB12D" Examples.world Examples.second Examples.world).
  - apply (bool_decide_unpack _). vm_compute. exact I.
  - vm_compute. reflexivity.
Defined.

(* ===================================================================== *)
(** * What the read operations write to the call log *)
(* ===================================================================== *)

Module Logs.
Import git nodegit repository Query Resolver Listing Calls.

Lemma logs_silent {A} ok (m : M A) : (forall w, calls (m w).2 = calls w) -> logs ok m.
Proof. intros H w. exists []. by rewrite H, app_nil_r. Qed.

Lemma logs_ret {A} ok (a : A) : logs ok (ret a).
Proof. by apply logs_silent. Qed.

Lemma logs_throw {A} ok e : logs ok (@throw A e).
Proof. by apply logs_silent. Qed.

Lemma logs_lift {A} ok (c : Completion A) : logs ok (lift c).
Proof. by apply logs_silent. Qed.

Lemma logs_gets {A} ok (g : World -> A) : logs ok (gets g).
Proof. by apply logs_silent. Qed.

Lemma logs_record ok c : ok c = true -> logs ok (modify (record_call c)).
Proof. intros H w. exists [c]. split; [done|]. simpl. by rewrite H. Qed.

Lemma logs_bind {A B} ok (m : M A) (k : A -> M B) :
  logs ok m -> (forall a, logs ok (k a)) -> logs ok (bind m k).
Proof.
  intros Hm Hk w. unfold bind. destruct (Hm w) as (n1 & E1 & F1).
  destruct (m w) as [[a|e] w1]; simpl in *.
  - destruct (Hk a w1) as (n2 & E2 & F2). exists (n1 ++ n2).
    rewrite E2, E1, app_assoc. split; [done|]. by rewrite forallb_app, F1, F2.
  - by exists n1.
Qed.

Lemma logs_tryCatch {A} ok (m : M A) (h : Exn -> M A) :
  logs ok m -> (forall e, logs ok (h e)) -> logs ok (tryCatch m h).
Proof.
  intros Hm Hh w. unfold tryCatch. destruct (Hm w) as (n1 & E1 & F1).
  destruct (m w) as [[a|e] w1]; simpl in *.
  - by exists n1.
  - destruct (Hh e w1) as (n2 & E2 & F2). exists (n1 ++ n2).
    rewrite E2, E1, app_assoc. split; [done|]. by rewrite forallb_app, F1, F2.
Qed.

Lemma logs_weaken {A} (ok ok' : Call -> bool) (m : M A) :
  (forall c, ok c = true -> ok' c = true) -> logs ok m -> logs ok' m.
Proof.
  intros Himp Hm w. destruct (Hm w) as (new & E & F). exists new. split; [done|].
  apply forallb_forall. intros c Hc. apply Himp.
  rewrite forallb_forall in F. by apply F.
Qed.

Ltac logs_step :=
  first
    [ apply logs_ret | apply logs_throw | apply logs_lift | apply logs_gets
    | apply logs_bind; [|intros ?]
    | apply logs_tryCatch; [|intros ?]
    | assumption
    | match goal with
      | |- logs _ (if ?b then _ else _) => destruct b
      | |- logs _ (match ?x with _ => _ end) => destruct x
      end ].

Ltac logs_auto := repeat logs_step.

Lemma logs_getCommit ok i : logs ok (getCommit i).
Proof. unfold getCommit. logs_auto. Qed.

Lemma logs_lookupPrefix ok s n : logs ok (Commit_lookupPrefix s n).
Proof. unfold Commit_lookupPrefix. logs_auto. Qed.

Lemma logs_open ok : logs ok open_repository.
Proof. unfold open_repository. logs_auto. Qed.

Lemma logs_getRemote ok r : logs ok (getRemote r).
Proof. unfold getRemote. logs_auto. Qed.

Lemma logs_getBranchCommit ok b : logs ok (getBranchCommit b).
Proof. unfold getBranchCommit. logs_auto. Qed.

Lemma logs_exec ok cmd : ok (Exec cmd) = true -> logs ok (exec cmd).
Proof.
  intros H. unfold exec.
  apply logs_bind; [by apply logs_record|intros _]. logs_auto.
Qed.

Lemma logs_first_commit ok ids : logs ok (first_commit ids).
Proof.
  induction ids as [|i ids IH]; simpl; [apply logs_ret|].
  pose proof (logs_getCommit ok i). logs_auto.
Qed.

(** The guard of [disambigateCommit] makes the spawned command line one
    of the fixed form. *)
Lemma rev_parse_call_guarded s :
  hex_of_at_least_4 s = true ->
  rev_parse_call (Exec ("git rev-parse --disambiguate=" +:+ s)) = true.
Proof.
  intros H. unfold rev_parse_call.
  change rev_parse_disambiguate with "git rev-parse --disambiguate=".
  by rewrite startsWith_app, sliceFrom_app, H.
Qed.

Lemma logs_disambigateCommit s : logs rev_parse_call (disambigateCommit s).
Proof.
  unfold disambigateCommit.
  destruct (hex_of_at_least_4 s) eqn:E; cbn [negb]; [|apply logs_ret].
  apply logs_bind; [by apply logs_exec, rev_parse_call_guarded|].
  intros. apply logs_first_commit.
Qed.

Lemma logs_getCommitFromShortCommitId s :
  logs rev_parse_call (getCommitFromShortCommitId s).
Proof.
  unfold getCommitFromShortCommitId.
  pose proof (logs_lookupPrefix rev_parse_call s (String.length s)).
  pose proof (logs_disambigateCommit s). logs_auto.
Qed.

Lemma logs_getShortId_loop fuel longId h :
  logs rev_parse_call (getShortId_loop fuel longId h).
Proof.
  revert h. induction fuel as [|fuel IH]; intros h; simpl; [apply logs_ret|].
  destruct (_ <=? _)%nat; [|apply logs_ret].
  apply logs_bind; [apply logs_getCommitFromShortCommitId|].
  intros r. destruct (match r with Some _ => _ | None => _ end); [apply logs_ret|apply IH].
Qed.

Lemma logs_getShortId c h : logs rev_parse_call (getShortId c h).
Proof. apply logs_getShortId_loop. Qed.

Section WithPlatform.
Context (P : node.Platform).

Lemma logs_path_join ok a b : logs ok (path_join P a b).
Proof. unfold path_join. logs_auto. Qed.

Lemma logs_getShortUrl ok this s : logs ok (_getShortUrl P this s).
Proof.
  unfold _getShortUrl, _getRepository.
  pose proof (logs_open ok). pose proof (logs_getRemote ok (upstream this)).
  destruct (baseUrl this) as [[|? ?]|]; logs_auto; try apply logs_path_join.
  all: destruct p; logs_auto; apply logs_path_join.
Qed.

Lemma logs_formatRedirectCommit this c :
  logs rev_parse_call (_formatRedirectCommit P this c).
Proof.
  unfold _formatRedirectCommit, _getRepository.
  apply logs_bind; [apply logs_open|intros _].
  apply logs_bind; [apply logs_lift|intros f].
  apply logs_bind; [apply logs_lift|intros v].
  destruct (negb v); [apply logs_throw|].
  apply logs_bind; [apply logs_getShortId|intros i].
  apply logs_bind; [apply logs_getShortId|intros s].
  apply logs_bind; [apply logs_getShortUrl|intros u].
  apply logs_ret.
Qed.

Lemma logs_get this i : logs rev_parse_call (get P this i).
Proof.
  unfold get, _getRepository.
  destruct (String.eqb i _); [apply logs_throw|].
  apply logs_bind; [apply logs_open|intros _].
  apply logs_bind; [apply logs_lift|intros b].
  apply logs_bind; [apply logs_getCommitFromShortCommitId|intros [c|]].
  - apply logs_formatRedirectCommit.
  - apply logs_throw.
Qed.

Lemma logs_all_loop this fuel walker : logs rev_parse_call (all_loop P this fuel walker).
Proof.
  revert walker. induction fuel as [|fuel IH]; intros walker; simpl; [apply logs_ret|].
  destruct walker as [|i rest]; simpl; [apply logs_ret|].
  apply logs_bind.
  - apply logs_tryCatch; [|intros; apply logs_ret].
    apply logs_bind; [apply logs_getCommit|intros c].
    apply logs_bind; [apply logs_formatRedirectCommit|intros r]. apply logs_ret.
  - intros ys. apply logs_bind; [apply IH|intros]. apply logs_ret.
Qed.

Lemma logs_all this from until : logs rev_parse_call (all P this from until).
Proof.
  unfold all, _getRepository, walker_push, walker_pushRange.
  apply logs_bind; [apply logs_open|intros _].
  apply logs_bind.
  { destruct until as [[|? ?]|]; logs_auto; apply logs_getBranchCommit. }
  intros u. apply logs_bind.
  { destruct from as [[|? ?]|]; logs_auto; apply logs_getCommit. }
  intros pushed. apply logs_bind; [apply logs_gets|intros objs].
  apply logs_all_loop.
Qed.

Lemma query_getBranchCommit b : query (getBranchCommit b).
Proof. unfold getBranchCommit. query_auto. Qed.

Lemma query_all this from until : query (all P this from until).
Proof.
  unfold all, _getRepository, walker_push, walker_pushRange.
  apply query_bind; [apply query_open|intros _].
  apply query_bind.
  { destruct until as [[|? ?]|]; query_auto; apply query_getBranchCommit. }
  intros u. apply query_bind.
  { destruct from as [[|? ?]|]; query_auto; apply query_getCommit. }
  intros pushed. apply query_bind; [by apply query_gets|intros objs].
  apply query_all_loop.
Qed.

End WithPlatform.

End Logs.

Section Reads.
Import git nodegit repository Query Resolver Listing Calls Logs.
Context (P : node.Platform).

(** X2.  Whatever string [get] is called with, it changes nothing in
    the repository, and every command it spawns is
    [git rev-parse --disambiguate=] followed by at least four
    hexadecimal digits and nothing else. *)
Theorem get_reads_only this i w :
  same_repo (get P this i w).2 w
  /\ exists new,
       calls (get P this i w).2 = calls w ++ new
       /\ forallb rev_parse_call new = true.
Proof.
  split.
  - apply query_world, query_get.
  - apply logs_get.
Qed.

(** X3.  The same holds of the traversal [all], with or without range
    bounds. *)
Theorem all_reads_only this from until w :
  same_repo (all P this from until w).2 w
  /\ exists new,
       calls (all P this from until w).2 = calls w ++ new
       /\ forallb rev_parse_call new = true.
Proof.
  split.
  - apply query_world, query_all.
  - apply logs_all.
Qed.

End Reads.

(* ===================================================================== *)
(** * How a lookup fails *)
(* ===================================================================== *)

Module HexFacts.
Import git nodegit repository Resolver BufferFacts.

Lemma hexdigit_lower n : (n < 16)%N -> Buffer.isLowerHexChar (Buffer.hexdigit n) = true.
Proof.
  intros H. destruct n as [|p]; [reflexivity|].
  do 5 (try (destruct p as [p|p|]; try reflexivity; try lia)).
Qed.

Lemma toString_hex_lower buf : Buffer.isLowerHex (Buffer.toString_hex buf) = true.
Proof.
  induction buf as [|b buf IH]; [done|].
  cbn [Buffer.toString_hex]. unfold Buffer.isLowerHex in *. cbn [string_forallb].
  rewrite IH, !hexdigit_lower; [done| |].
  - apply N.mod_lt. done.
  - pose proof (Base58Facts.to_N_bound [b]) as Hb. inversion Hb as [|? ? Hlt _]; subst.
    apply N.Div0.div_lt_upper_bound. exact Hlt.
Qed.

Lemma toString_hex_length buf :
  String.length (Buffer.toString_hex buf) = (2 * List.length buf)%nat.
Proof. induction buf as [|b buf IH]; [done|]. cbn [Buffer.toString_hex String.length length]. lia. Qed.

End HexFacts.

Section LookupFailures.
Import git nodegit repository Query Resolver BufferFacts HexFacts.
Context (P : node.Platform).

(** X4.  An id that decodes to between 2 and 20 bytes whose digits begin
    no stored object's id is reported with the git library's own
    not-found error, not with ['Commit Not Found']; nothing is spawned
    and nothing changes. *)
Theorem get_unknown_id this i w bytes :
  discoverable w = true ->
  base58.decode i = Return bytes ->
  (2 <= List.length bytes <= 20)%nat ->
  matching (Buffer.toString_hex bytes) (odb w) = [] ->
  exists what, get P this i w = (Throw (GitError ENOTFOUND what), w).
Proof.
  intros Hd Hdec Hlen Hnone.
  assert (Hi : String.eqb i "" = false).
  { destruct i; [|done]. injection Hdec as <-. simpl in Hlen. lia. }
  unfold get. rewrite Hi. unfold _getRepository, open_repository.
  unfold bind at 1, bind at 1, gets at 1. rewrite Hd. unfold ret at 1.
  unfold bind at 1, lift at 1. rewrite Hdec.
  unfold bind at 1, getCommitFromShortCommitId, tryCatch, bind at 1.
  rewrite lookupPrefix_cases.
  2:{ split; [apply toString_hex_lower|]. rewrite toString_hex_length. lia. }
  rewrite Hnone. cbn [errno].
  rewrite bool_decide_eq_false_2 by done. cbn [negb]. by eexists.
Qed.

(** X5.  The empty id, and an id that decodes to a single byte (fewer
    than the four digits a lookup needs), are reported with
    ['Commit Not Found']; nothing is spawned. *)
Theorem get_short_id this i w :
  discoverable w = true ->
  i = "" \/ (exists b, base58.decode i = Return [b]) ->
  get P this i w = (Throw (Error "Commit Not Found"), w).
Proof.
  intros Hd [->|[b Hdec]]; [done|].
  assert (Hi : String.eqb i "" = false) by (by destruct i).
  unfold get. rewrite Hi. unfold _getRepository, open_repository.
  unfold bind at 1, bind at 1, gets at 1. rewrite Hd. unfold ret at 1.
  unfold bind at 1, lift at 1. rewrite Hdec.
  pose proof (toString_hex_lower [b]) as Hhex.
  pose proof (toString_hex_length [b]) as Hlen. change (2 * _)%nat with 2%nat in Hlen.
  set (h := Buffer.toString_hex [b]) in *.
  unfold bind at 1, getCommitFromShortCommitId, tryCatch, Commit_lookupPrefix.
  unfold bind at 1, bind at 1, lift at 1, Oid_fromString.
  rewrite Hlen, (isHex_lower_hex _ Hhex). cbn [Nat.ltb Nat.leb andb].
  unfold throw at 1. cbn [errno].
  rewrite bool_decide_eq_true_2 by done. cbn [negb].
  unfold disambigateCommit, hex_of_at_least_4. rewrite Hlen. cbn [Nat.leb andb negb].
  reflexivity.
Qed.

End LookupFailures.

Lemma get_unknown_id_witness :
  exists what,
    repository.get Examples.platform Examples.this "mine" Examples.world
    = (Throw (GitError ENOTFOUND what), Examples.world).
Proof.
  apply (get_unknown_id Examples.platform Examples.this "mine" Examples.world
           (Buffer.from_hex "8523fb")).
  - reflexivity.
  - vm_compute. reflexivity.
  - simpl. lia.
  - vm_compute. reflexivity.
Defined.

Lemma get_short_id_witness :
  repository.get Examples.platform Examples.this "2" Examples.world
  = (Throw (Error "Commit Not Found"), Examples.world).
Proof.
  apply (get_short_id Examples.platform Examples.this "2" Examples.world).
  - reflexivity.
  - right. exists Byte.x01. vm_compute. reflexivity.
Defined.

(* ===================================================================== *)
(** * What a returned record always holds *)
(* ===================================================================== *)

Section Records.
Import git nodegit repository Query Resolver BufferFacts Records.
Context (P : node.Platform).

Lemma isValidURL_undefined : isValidURL P None = Return false.
Proof.
  unfold isValidURL, node.new_URL, node.parse_protocol.
  by destruct (node.URL_parses P "undefined").
Qed.

Lemma formatRedirectCommit_is_redirect this c w r :
  (_formatRedirectCommit P this c w).1 = Return r -> is_redirect P r.
Proof.
  intros H.
  destruct (formatRedirectCommit_inv P this c w r H) as (f & i & s & u & Hf & Hv & ->).
  split.
  - destruct (gray_matter.data f !! "url") as [v|] eqn:Eu.
    + exists v. split; [by apply redirect_object_header|done].
    + by rewrite isValidURL_undefined in Hv.
  - apply Forall_forall. intros k Hk.
    destruct (gray_matter.data f !! k) as [v|] eqn:Ek.
    + exists (VString v). by apply redirect_object_header.
    + rewrite redirect_object_derived by done.
      unfold derived_keys in Hk.
      repeat (apply elem_of_cons in Hk as [->|Hk];
              [by (eexists; rewrite ?lookup_insert_ne by done; apply lookup_insert_eq)|]).
      by apply elem_of_nil in Hk.
Qed.

Lemma get_inv this i w r :
  (get P this i w).1 = Return r ->
  exists bytes c w1,
    base58.decode i = Return bytes
    /\ getCommitFromShortCommitId (Buffer.toString_hex bytes) w = (Return (Some c), w1)
    /\ (_formatRedirectCommit P this c w1).1 = Return r.
Proof.
  unfold get. destruct (String.eqb i ""); [done|].
  unfold _getRepository, open_repository.
  unfold bind at 1, bind at 1, gets at 1.
  destruct (discoverable w); [|done]. unfold ret at 1.
  unfold bind at 1, lift at 1.
  destruct (base58.decode i) as [bytes|e]; [|done].
  unfold bind at 1.
  destruct (getCommitFromShortCommitId _ w) as [[[c|]|e] w1] eqn:E; [|done|done].
  intros H. by exists bytes, c, w1.
Qed.

Lemma all_loop_records this : forall fuel walker w rs w',
  all_loop P this fuel walker w = (Return rs, w') ->
  Forall (fun r => exists c w0, (_formatRedirectCommit P this c w0).1 = Return r) rs.
Proof.
  induction fuel as [|fuel IH]; intros walker w rs w'; simpl.
  { unfold ret. by intros [= <- <-]. }
  destruct walker as [|i rest]; simpl.
  { unfold ret. by intros [= <- <-]. }
  unfold bind at 1, tryCatch, bind at 1.
  destruct (getCommit i w) as [[c|e] w1].
  - unfold bind at 1.
    destruct (_formatRedirectCommit P this c w1) as [[r|e] w2] eqn:Ef.
    + unfold ret at 1. unfold bind at 1.
      destruct (all_loop P this fuel rest w2) as [[rs'|e] w3] eqn:El; [|done].
      unfold ret. intros [= <- <-]. constructor.
      * exists c, w1. by rewrite Ef.
      * by eapply IH.
    + unfold ret at 1. unfold bind at 1.
      destruct (all_loop P this fuel rest w2) as [[rs'|e'] w3] eqn:El; [|done].
      unfold ret. intros [= <- <-]. by eapply IH.
  - unfold ret at 1. unfold bind at 1.
    destruct (all_loop P this fuel rest w1) as [[rs'|e'] w3] eqn:El; [|done].
    unfold ret. intros [= <- <-]. by eapply IH.
Qed.

Lemma bind_inv {A B} (m : M A) (k : A -> M B) w r :
  (bind m k w).1 = Return r ->
  exists a w1, m w = (Return a, w1) /\ (k a w1).1 = Return r.
Proof.
  unfold bind. destruct (m w) as [[a|e] w1]; [|done]. intros H. by exists a, w1.
Qed.

Lemma all_records this from until w rs :
  (all P this from until w).1 = Return rs ->
  Forall (fun r => exists c w0, (_formatRedirectCommit P this c w0).1 = Return r) rs.
Proof.
  unfold all. intros H.
  apply bind_inv in H as (_ & w1 & _ & H).
  apply bind_inv in H as (u & w2 & _ & H).
  apply bind_inv in H as (pushed & w3 & _ & H).
  apply bind_inv in H as (objs & w4 & _ & H).
  destruct (all_loop _ _ _ _ w4) as [res w5] eqn:El. cbn [fst] in H. subst res.
  by eapply all_loop_records.
Qed.

(** X6.  Every record that [get] or [create] returns, or that [all]
    yields, has the properties [id], [shortId], [shortUrl],
    [description], [created] and [creator], and a [url] that the URL
    Validator accepts. *)
Theorem returned_records_are_redirects this r :
  (exists i w, (get P this i w).1 = Return r)
  \/ (exists fields w, (create P this fields w).1 = Return r)
  \/ (exists from until w rs, (all P this from until w).1 = Return rs /\ In r rs) ->
  is_redirect P r.
Proof.
  intros [(i & w & H)|[(fields & w & H)|(from & until & w & rs & H & Hr)]].
  - apply get_inv in H as (bytes & c & w1 & _ & _ & H).
    by eapply formatRedirectCommit_is_redirect.
  - destruct (create P this fields w) as [res w1] eqn:E. cbn [fst] in H. subst res.
    apply create_inv in E as (wc & wd & new & created & _ & _ & _ & _ & _ & E).
    eapply (formatRedirectCommit_is_redirect this created wd). by rewrite E.
  - apply all_records in H. rewrite Forall_forall in H.
    destruct (H r) as (c & w0 & Hc); [by apply list_elem_of_In|].
    by eapply formatRedirectCommit_is_redirect.
Qed.

End Records.

Lemma returned_records_are_redirects_witness :
  exists r,
    (repository.get Examples.platform Examples.this "E25" Examples.world).1 = Return r
    /\ Records.is_redirect Examples.platform r.
Proof.
  destruct (repository.get Examples.platform Examples.this "E25" Examples.world).1
    as [r|e] eqn:E.
  2:{ exfalso.
      assert (H : is_Some (returned
                    (repository.get Examples.platform Examples.this "E25"
                       Examples.world).1))
        by (apply (bool_decide_unpack _); vm_compute; exact I).
      rewrite E in H. by destruct H. }
  exists r. split; [reflexivity|].
  apply (returned_records_are_redirects Examples.platform Examples.this r).
  left. exists "E25", Examples.world. exact E.
Defined.

(* ===================================================================== *)
(** * What a traversal yields *)
(* ===================================================================== *)

Module Traversal.
Import git nodegit repository Query Resolver BufferFacts Records.

Lemma bind_inv_eq {A B} (m : M A) (k : A -> M B) w r w' :
  bind m k w = (Return r, w') ->
  exists a w1, m w = (Return a, w1) /\ k a w1 = (Return r, w').
Proof.
  unfold bind. destruct (m w) as [[a|e] w1]; [|done]. intros H. by exists a, w1.
Qed.

Lemma getCommit_inv i w c w1 :
  getCommit i w = (Return c, w1) ->
  w1 = w /\ In (CommitObject c) (odb w) /\ id c = toLowerCase i.
Proof.
  unfold getCommit. destruct (_ && _); [|done]. munfold.
  destruct (find_commit _ _) as [c'|] eqn:E; [|done].
  intros [= <- <-]. apply find_commit_In in E. tauto.
Qed.

Lemma getBranchCommit_inv b w c w1 :
  getBranchCommit b w = (Return c, w1) ->
  w1 = w /\ In (CommitObject c) (odb w) /\ branches w !! b = Some (id c).
Proof.
  unfold getBranchCommit. munfold.
  destruct (branches w !! b) as [i|]; [|done]. cbn.
  destruct (find_commit i (odb w)) as [c'|] eqn:E; [|done].
  intros [= <- <-]. apply find_commit_In in E as [? ->]. tauto.
Qed.

Lemma open_repository_inv w u w1 :
  open_repository w = (Return u, w1) -> w1 = w /\ discoverable w = true.
Proof.
  unfold open_repository. munfold. destruct (discoverable w); [|done].
  by intros [= <- <-].
Qed.

(** The commits the walker hands out under [SORT.TIME | SORT.REVERSE]:
    those reachable from the tips and not from the hidden commits. *)
Lemma walk_members objs tips hides :
  exists cl,
    Revwalk.walk objs (Revwalk.sorting [Revwalk.SORT_TIME; Revwalk.SORT_REVERSE]) tips hides
    = map id cl
    /\ forall c, In c cl <->
                 In (CommitObject c) objs
                 /\ (id c ∈ Revwalk.ancestors objs tips)
                 /\ (id c ∉ Revwalk.ancestors objs hides).
Proof.
  unfold Revwalk.walk.
  change (Z.testbit (Revwalk.sorting [Revwalk.SORT_TIME; Revwalk.SORT_REVERSE]) 2) with true.
  cbv iota. eexists. split; [reflexivity|]. intros c.
  rewrite <- in_rev, Walk.sort_by_time_In, filter_In, In_commits.
  rewrite andb_true_iff, negb_true_iff, bool_decide_eq_true, bool_decide_eq_false.
  tauto.
Qed.

Section WithPlatform.
Context (P : node.Platform).

(** The loop yields, in the walker's order, the record of every commit
    the read path accepts, and nothing else. *)
Lemma all_loop_exact this w0 : forall cl fuel w,
  wf_odb (odb w0) -> Forall (fun c => In (CommitObject c) (odb w0)) cl ->
  same_repo w w0 -> (List.length cl < fuel)%nat ->
  exists w',
    all_loop P this fuel (map id cl) w
    = (Return (omap (fun c => returned (_formatRedirectCommit P this c w0).1) cl), w')
    /\ same_repo w' w0.
Proof.
  induction cl as [|c cl IH]; intros fuel w Hwf Hcl Hw Hfuel.
  - destruct fuel as [|fuel]; [simpl in Hfuel; lia|]. by exists w.
  - destruct fuel as [|fuel]; [simpl in Hfuel; lia|].
    apply Forall_cons in Hcl as [Hc Hcl].
    cbn [map all_loop Revwalk.next omap list_omap].
    unfold bind at 1, tryCatch, bind at 1.
    rewrite getCommit_stored;
      [|by rewrite (same_repo_odb _ _ Hw)|by rewrite (same_repo_odb _ _ Hw)].
    unfold bind at 1.
    pose proof (query_formatRedirectCommit P this c w w0 Hw) as [Eres Hw2].
    rewrite <- Eres.
    destruct (_formatRedirectCommit P this c w) as [[r|e] w2]; cbn [fst snd returned] in *.
    + unfold ret at 1.
      destruct (IH fuel w2 Hwf Hcl Hw2 ltac:(simpl in Hfuel; lia)) as (w' & E & Hw').
      exists w'. unfold bind at 1. rewrite E. by unfold ret.
    + unfold ret at 1.
      destruct (IH fuel w2 Hwf Hcl Hw2 ltac:(simpl in Hfuel; lia)) as (w' & E & Hw').
      exists w'. unfold bind at 1. rewrite E. by unfold ret.
Qed.

Lemma walker_push_inv un w pushed w1 :
  walker_push un w = (Return pushed, w1) ->
  w1 = w /\ exists u, In (CommitObject u) (odb w) /\ id u = toLowerCase un
                      /\ pushed = ([id u], []).
Proof.
  unfold walker_push. intros H.
  apply bind_inv_eq in H as (u & w2 & Hu & H).
  apply getCommit_inv in Hu as (-> & Hin & Hid).
  unfold ret in H. injection H as <- <-. split; [done|]. by exists u.
Qed.

Lemma walker_pushRange_inv from un w pushed w1 :
  walker_pushRange from un w = (Return pushed, w1) ->
  w1 = w /\ exists f u,
    In (CommitObject f) (odb w) /\ id f = toLowerCase from
    /\ In (CommitObject u) (odb w) /\ id u = toLowerCase un
    /\ parents f <> [] /\ pushed = ([id u], take 1 (parents f)).
Proof.
  unfold walker_pushRange. intros H.
  apply bind_inv_eq in H as (f & w2 & Hf & H).
  apply getCommit_inv in Hf as (-> & Hinf & Hidf).
  apply bind_inv_eq in H as (u & w3 & Hu & H).
  apply getCommit_inv in Hu as (-> & Hinu & Hidu).
  destruct (parents f) as [|p rest] eqn:Ep; [done|].
  unfold ret in H. injection H as <- <-. split; [done|].
  exists f, u. rewrite Ep. by repeat split.
Qed.

(** What a successful [all] has done: it resolved [until] (or the tip of
    the tracked branch) and, with [from], the first parent of [from];
    it walked from the one and hid the other; and it yielded the
    records of the commits walked that the read path accepts. *)
Lemma all_inv this from until w rs w' :
  wf_odb (odb w) ->
  all P this from until w = (Return rs, w') ->
  exists u hides cl,
    In (CommitObject u) (odb w)
    /\ match until with
       | Some (String a s) => id u = toLowerCase (String a s)
       | _ => branches w !! branch this = Some (id u)
       end
    /\ match from with
       | Some (String a s) =>
           exists f, In (CommitObject f) (odb w) /\ id f = toLowerCase (String a s)
                     /\ parents f <> [] /\ hides = take 1 (parents f)
       | _ => hides = []
       end
    /\ Revwalk.walk (odb w) (Revwalk.sorting [Revwalk.SORT_TIME; Revwalk.SORT_REVERSE])
         [id u] hides = map id cl
    /\ (forall c, In c cl <->
                  In (CommitObject c) (odb w)
                  /\ (id c ∈ Revwalk.ancestors (odb w) [id u])
                  /\ id c ∉ Revwalk.ancestors (odb w) hides)
    /\ rs = omap (fun c => returned (_formatRedirectCommit P this c w).1) cl.
Proof.
  intros Hwf H. unfold all in H.
  apply bind_inv_eq in H as (? & w1 & Ho & H).
  apply open_repository_inv in Ho as [-> Hd].
  apply bind_inv_eq in H as (un & w2 & Hu & H).
  apply bind_inv_eq in H as (pushed & w3 & Hp & H).
  apply bind_inv_eq in H as (objs & w4 & Hg & H).
  unfold gets in Hg. injection Hg as <- <-.
  (* the tip the walk starts from *)
  assert (Hun : w2 = w
                /\ forall u, id u = toLowerCase un ->
                   match until with
                   | Some (String a s) => id u = toLowerCase (String a s)
                   | _ => branches w !! branch this = Some (id u)
                   end).
  { assert (Hbranch : forall w5, (let* latestCommit := getBranchCommit (branch this) in
                                  ret (id latestCommit)) w = (Return un, w5) ->
                      w5 = w /\ forall u, id u = toLowerCase un ->
                                branches w !! branch this = Some (id u)).
    { intros w5 Hb. apply bind_inv_eq in Hb as (l & w6 & Hb & Hr).
      apply getBranchCommit_inv in Hb as (-> & Hin & Hb).
      unfold ret in Hr. injection Hr as <- <-. split; [done|]. intros u Hid.
      rewrite Hid, toLowerCase_lower_hex; [done|].
      apply is_oid_hex, (wf_odb_oid _ (CommitObject l) Hwf Hin). }
    destruct until as [[|a s]|]; [by apply Hbranch| |by apply Hbranch].
    unfold ret in Hu. by injection Hu as <- <-. }
  destruct Hun as [-> Hun].
  assert (Hpushed : w3 = w /\ exists u hides,
             In (CommitObject u) (odb w) /\ id u = toLowerCase un
             /\ pushed = ([id u], hides)
             /\ match from with
                | Some (String a s) =>
                    exists f, In (CommitObject f) (odb w)
                              /\ id f = toLowerCase (String a s)
                              /\ parents f <> [] /\ hides = take 1 (parents f)
                | _ => hides = []
                end).
  { destruct from as [[|a s]|].
    - apply walker_push_inv in Hp as (-> & u & Hin & Hid & ->).
      split; [done|]. by exists u, [].
    - apply walker_pushRange_inv in Hp as (-> & f & u & Hf & Hidf & Hin & Hid & Hne & ->).
      split; [done|]. exists u, (take 1 (parents f)). repeat split; try done.
      by exists f.
    - apply walker_push_inv in Hp as (-> & u & Hin & Hid & ->).
      split; [done|]. by exists u, []. }
  destruct Hpushed as (-> & u & hides & Hin & Hid & -> & Hfrom).
  cbn [fst snd] in H.
  destruct (walk_members (odb w) [id u] hides) as (cl & Ewalk & Hcl).
  rewrite Ewalk in H.
  destruct (all_loop_exact this w cl (S (List.length (map id cl))) w Hwf)
    as (w'' & E & _); [|done|rewrite length_map; lia|].
  { apply Forall_forall. intros c Hc%list_elem_of_In. by apply Hcl. }
  rewrite E in H. injection H as <- <-.
  exists u, hides, cl.
  split; [done|]. split; [by apply Hun|]. split; [done|]. split; [done|]. by split.
Qed.

End WithPlatform.

End Traversal.

Section Traversals.
Import git nodegit repository Query Resolver BufferFacts Records Traversal.
Context (P : node.Platform).


(** X8.  Every record a traversal yields is the record [get] returns
    for the canonical id of a stored commit. *)
Theorem all_agrees_with_get this from until w rs w' :
  wf_odb (odb w) ->
  all P this from until w = (Return rs, w') ->
  Forall (fun r => exists c, In (CommitObject c) (odb w)
                             /\ (get P this (canonical_id c) w).1 = Return r) rs.
Proof.
  intros Hwf H.
  destruct (all_inv P this from until w rs w' Hwf H)
    as (u & hides & cl & _ & _ & _ & _ & Hcl & ->).
  assert (Hd : discoverable w = true).
  { unfold all in H. apply bind_inv_eq in H as (? & w1 & Ho & _).
    by apply open_repository_inv in Ho as [_ ?]. }
  apply Forall_forall. intros r (c & Hc & Hr)%list_elem_of_omap.
  exists c. apply list_elem_of_In, Hcl in Hc as (Hc & _).
  split; [done|]. unfold canonical_id. rewrite get_stored by done.
  destruct (_formatRedirectCommit P this c w).1 as [r'|e]; simpl in Hr; [|done].
  by injection Hr as ->.
Qed.


End Traversals.


Lemma all_agrees_with_get_witness :
  exists rs,
    (repository.all Examples.platform Examples.this None None Examples.world).1 = Return rs
    /\ Forall (fun r => exists c,
                  In (git.CommitObject c) (git.odb Examples.world)
                  /\ (repository.get Examples.platform Examples.this
                        (Records.canonical_id c) Examples.world).1 = Return r) rs.
Proof.
  destruct (repository.all Examples.platform Examples.this None None Examples.world)
    as [[rs|e] w'] eqn:E.
  2:{ exfalso.
      assert (H : is_Some (returned
                    (repository.all Examples.platform Examples.this None None
                       Examples.world).1))
        by (apply (bool_decide_unpack _); vm_compute; exact I).
      rewrite E in H. by destruct H. }
  exists rs. split; [reflexivity|].
  apply (all_agrees_with_get Examples.platform Examples.this None None Examples.world rs w').
  - apply (bool_decide_unpack _). vm_compute. exact I.
  - exact E.
Defined.


(* ===================================================================== *)
(** * A record is found again under its short id *)
(* ===================================================================== *)

Section ShortIds.
Import git nodegit repository Query Resolver BufferFacts Records.
Context (P : node.Platform).

(** A lookup by the encoding of a whole-byte prefix that the resolver
    resolves to [c] is the read path on [c]. *)
Lemma get_prefix this c w L :
  discoverable w = true -> wf_odb (odb w) -> In (CommitObject c) (odb w) ->
  Nat.Even L -> (4 <= L <= 40)%nat ->
  (getCommitFromShortCommitId (slice0 L (id c)) w).1 = Return (Some c) ->
  (get P this (base58.encode (Buffer.from_hex (slice0 L (id c)))) w).1
  = (_formatRedirectCommit P this c w).1.
Proof.
  intros Hd Hwf Hin Hev HL Hres.
  assert (Hoid : is_oid (id c) = true) by apply (wf_odb_oid _ (CommitObject c) Hwf Hin).
  pose proof (is_oid_length _ Hoid) as Hlen.
  assert (Hhex : Buffer.isLowerHex (slice0 L (id c)) = true)
    by (by apply isLowerHex_slice0, is_oid_hex).
  assert (Heven : Nat.Even (String.length (slice0 L (id c))))
    by (apply Even_slice0_length; [done|lia]).
  pose proof (Base58Facts.decode_encode (Buffer.from_hex (slice0 L (id c)))) as Hde.
  pose proof (toString_hex_from_hex _ Hhex Heven) as Hth.
  unfold get.
  destruct (String.eqb_spec (base58.encode (Buffer.from_hex (slice0 L (id c)))) "")
    as [E|_].
  { exfalso. assert (Hd0 : base58.decode "" = Return []) by reflexivity.
    rewrite E, Hd0 in Hde. injection Hde as Hde.
    rewrite <- Hde in Hth. cbn [Buffer.toString_hex] in Hth.
    assert (Hl : String.length (slice0 L (id c)) = 0%nat) by (by rewrite <- Hth).
    rewrite length_slice0 in Hl. lia. }
  unfold _getRepository, open_repository. munfold. rewrite Hd, Hde, Hth.
  pose proof (query_getCommitFromShortCommitId (slice0 L (id c)) w w) as [_ Hw1];
    [done|].
  destruct (getCommitFromShortCommitId (slice0 L (id c)) w) as [res w1].
  cbn [fst snd] in *. subst res.
  by apply (query_result _ w1 w (query_formatRedirectCommit P this c)).
Qed.

(** The [shortId] of a record whose header sets none: the encoding of
    a whole-byte prefix of the commit id that the resolver resolves to
    the commit. *)
Lemma derived_shortId this c w r f :
  wf_odb (odb w) -> In (CommitObject c) (odb w) ->
  (_formatRedirectCommit P this c w).1 = Return r ->
  gray_matter.matter (trim (message c)) = Return f ->
  gray_matter.data f !! "shortId" = None ->
  exists L, (4 <= L <= 40)%nat /\ Nat.Even L
    /\ (getCommitFromShortCommitId (slice0 L (id c)) w).1 = Return (Some c)
    /\ r !! "shortId"
       = Some (VString (base58.encode (Buffer.from_hex (slice0 L (id c))))).
Proof.
  intros Hwf Hin Hr Hf Hnone.
  assert (Hoid : is_oid (id c) = true) by apply (wf_odb_oid _ (CommitObject c) Hwf Hin).
  pose proof (is_oid_length _ Hoid) as Hlen.
  destruct (getShortId_loop_spec 41 4 w c Hwf Hin)
    as (L & w1 & HL & Hev & Es & Hw1 & Hres & _); [by exists 2%nat|lia|lia|].
  assert (Hd : discoverable w = true).
  { by destruct (formatRedirectCommit_inv_wf P this c w r Hwf Hin Hr). }
  exists L. split; [lia|]. split; [done|]. split; [done|].
  revert Hr. unfold _formatRedirectCommit, _getRepository, open_repository.
  unfold bind at 1, bind at 1, gets at 1. rewrite Hd. unfold ret at 1.
  unfold bind at 1, lift at 1. rewrite Hf.
  unfold bind at 1, lift at 1.
  destruct (isValidURL P (gray_matter.data f !! "url")) as [[|]|e]; [|done|done].
  cbn [negb]. unfold bind at 1. rewrite (getShortId_full w c Hwf Hin).
  unfold bind at 1, getShortId. rewrite Hlen. change (S 40) with 41%nat.
  change MINIMUM_HASH with 4%nat. rewrite Es.
  unfold bind at 1.
  destruct (_getShortUrl P this _ w1) as [[u|e] w2]; [|done].
  cbn [fst ret]. intros [= <-].
  rewrite redirect_object_derived by done.
  rewrite lookup_insert_ne by done. by rewrite lookup_insert_eq.
Qed.

(** X10.  A lookup by the [shortId] of a record returns that record,
    when the header of its commit does not set [shortId] itself. *)
Theorem shortId_round_trip this c w r f :
  wf_odb (odb w) -> In (CommitObject c) (odb w) ->
  (_formatRedirectCommit P this c w).1 = Return r ->
  gray_matter.matter (trim (message c)) = Return f ->
  gray_matter.data f !! "shortId" = None ->
  exists s, r !! "shortId" = Some (VString s) /\ (get P this s w).1 = Return r.
Proof.
  intros Hwf Hin Hr Hf Hnone.
  destruct (derived_shortId this c w r f Hwf Hin Hr Hf Hnone)
    as (L & HL & Hev & Hres & Hs).
  assert (Hd : discoverable w = true).
  { by destruct (formatRedirectCommit_inv_wf P this c w r Hwf Hin Hr). }
  exists (base58.encode (Buffer.from_hex (slice0 L (id c)))). split; [done|].
  by rewrite get_prefix.
Qed.

End ShortIds.

Lemma shortId_round_trip_witness :
  exists r s,
    (repository._formatRedirectCommit Examples.platform Examples.this Examples.second
       Examples.world).1 = Return r
    /\ r !! "shortId" = Some (repository.VString s)
    /\ (repository.get Examples.platform Examples.this s Examples.world).1 = Return r.
Proof.
  destruct (repository._formatRedirectCommit Examples.platform Examples.this Examples.second
              Examples.world).1 as [r|e] eqn:E.
  2:{ exfalso.
      assert (H : is_Some (returned
                    (repository._formatRedirectCommit Examples.platform Examples.this
                       Examples.second Examples.world).1))
        by (apply (bool_decide_unpack _); vm_compute; exact I).
      rewrite E in H. by destruct H. }
  destruct (shortId_round_trip Examples.platform Examples.this Examples.second
              Examples.world r
              {| gray_matter.content := "";
                 gray_matter.data := {[ "url" := "http://b.example/" ]} |})
    as (s & Hs & Hg).
  - apply (bool_decide_unpack _). vm_compute. exact I.
  - right. left. reflexivity.
  - exact E.
  - vm_compute. reflexivity.
  - reflexivity.
  - exists r, s. split; [reflexivity|]. split; [exact Hs|exact Hg].
Defined.

(* ===================================================================== *)
(** * What [create] leaves behind *)
(* ===================================================================== *)

Section Writes.
Import git nodegit repository Query Resolver BufferFacts Records Calls Logs Writes.
Context (P : node.Platform).

(** Past its checks [create] is: synchronise if asked to, then format
    the commit just written. *)
Lemma create_runs this fields w :
  accepts P this fields w ->
  create P this fields w
  = (let* _ := (if default true (shouldCommit fields) then commit this else ret tt) in
     _formatRedirectCommit P this (created_commit this fields w))
      (committed this fields w).
Proof.
  intros (Hv & Hd & [tip Hb] & Hc & Hp & Hst & Hwf).
  unfold create, bind at 1, lift at 1. rewrite Hv. cbn [negb].
  unfold _getRepository, open_repository.
  unfold bind at 1, bind at 1, gets at 1. rewrite Hd.
  unfold ret at 1, checkoutBranch.
  unfold bind at 1, bind at 1, gets at 1. rewrite Hb.
  unfold modify at 1, refreshIndex at 1, bind at 1, ret at 1.
  unfold hasConflicts at 1, bind at 1, gets at 1.
  change (index_conflicts (set_HEAD (branch this) w)) with (index_conflicts w).
  rewrite Hc.
  unfold bind at 1, hasStagedChanges, bind at 1, getHeadCommit at 1, gets at 1.
  assert (Estaged :
            (match branches (set_HEAD (branch this) w) !! HEAD (set_HEAD (branch this) w)
                   ≫= (fun i => find_commit i (odb (set_HEAD (branch this) w))) with
             | Some _ => let* patches := treeToIndex_patches in ret (0 <? patches)%nat
             | None => ret false
             end) (set_HEAD (branch this) w)
            = (Return false, set_HEAD (branch this) w)).
  { destruct (_ ≫= _); [|done].
    unfold bind, treeToIndex_patches, gets, ret.
    change (index_patches (set_HEAD (branch this) w)) with (index_patches w).
    by rewrite Hp. }
  rewrite Estaged.
  unfold not_Promise, stateCleanup, bind at 1.
  unfold bind at 1, gets at 1.
  change (state (set_state ?s ?x)) with s.
  change (state_after_cleanup (set_HEAD (branch this) w)) with (state_after_cleanup w).
  rewrite (bool_decide_eq_true_2 _ Hst). cbn [negb].
  unfold Signature_default.
  unfold bind at 1, gets at 1. unfold bind at 1, gets at 1.
  unfold bind at 1, createCommitOnHead, bind at 1, getHeadCommit, gets at 1.
  fold (description_of fields). fold (crafted_message fields).
  unfold bind at 1.
  change (getCommit _ _)
    with (getCommit (id (created_commit this fields w)) (committed this fields w)).
  rewrite getCommit_stored; [done|done|].
  apply in_or_app. right. by left.
Qed.

Ltac open_world w :=
  destruct w as [disc objs brs rrefs hd rems ic ip st sac sig oidf pa fa ma cs];
  cbn [discoverable odb branches remote_refs HEAD remotes index_conflicts index_patches
       state state_after_cleanup default_signature object_id push_answers fetch_answers
       merge_answers calls] in *; subst.

Ltac run_commit :=
  unfold commit, _getRepository, open_repository, getRemote, Remote_push, Remote_fetch,
    mergeBranches, tryCatch, bind, gets, modify, ret, throw, record_call, set_push_answers,
    set_fetch_answers, set_merge_answers, set_branches, set_odb;
  cbn [discoverable odb branches remote_refs HEAD remotes index_conflicts index_patches
       state state_after_cleanup default_signature object_id push_answers fetch_answers
       merge_answers calls fst snd negb tail].

Lemma commit_fatal_world this w e rest :
  discoverable w = true -> is_Some (remotes w !! upstream this) ->
  push_answers w = Throw e :: rest -> errno e <> Some ENONFASTFORWARD ->
  commit this w
  = (Throw e, set_push_answers rest
                (record_call (Push (upstream this) [push_refspec this]) w)).
Proof.
  intros Hd [u Hu] H He. open_world w. run_commit. rewrite Hu. run_commit.
  by rewrite bool_decide_eq_false_2.
Qed.

Lemma commit_pushed_world this w :
  discoverable w = true -> is_Some (remotes w !! upstream this) ->
  (push_answers w = [] \/ exists rest, push_answers w = Return tt :: rest) ->
  commit this w
  = (Return tt, set_push_answers (tail (push_answers w))
                  (record_call (Push (upstream this) [push_refspec this]) w)).
Proof.
  intros Hd [u Hu] H. open_world w. run_commit. rewrite Hu. run_commit.
  by destruct H as [->|[rest ->]].
Qed.

(** X11.  With [shouldCommit: false], a [create] whose checks pass
    leaves the repository with the tracked branch checked out and the
    new commit (the crafted message on top of the former tip) stored at
    its tip, whatever the read-back then returns; it contacts no remote,
    and what it spawns are [git rev-parse] look-ups. *)
Theorem create_without_sync this fields w :
  accepts P this fields w -> shouldCommit fields = Some false ->
  same_repo (create P this fields w).2 (committed this fields w)
  /\ (exists spawned,
        calls (create P this fields w).2 = calls w ++ spawned
        /\ forallb rev_parse_call spawned = true)
  /\ (create P this fields w).1
     = (_formatRedirectCommit P this (created_commit this fields w)
          (committed this fields w)).1.
Proof.
  intros Hacc Hsc.
  assert (E : create P this fields w
              = _formatRedirectCommit P this (created_commit this fields w)
                  (committed this fields w)).
  { by rewrite (create_runs this fields w Hacc), Hsc. }
  rewrite E. split; [|split; [|done]].
  - apply query_world, query_formatRedirectCommit.
  - apply (logs_formatRedirectCommit P this (created_commit this fields w)
             (committed this fields w)).
Qed.

(** X12.  When synchronisation is on and the push fails for another
    reason than a non-fast-forward rejection, [create] raises the push
    error after the commit has been written: the commit is stored, the
    tracked branch points at it, and exactly one push was attempted. *)
Theorem create_keeps_commit_when_push_fails this fields w e rest :
  accepts P this fields w -> default true (shouldCommit fields) = true ->
  is_Some (remotes w !! upstream this) ->
  push_answers w = Throw e :: rest -> errno e <> Some ENONFASTFORWARD ->
  (create P this fields w).1 = Throw e
  /\ odb (create P this fields w).2
     = odb w ++ [CommitObject (created_commit this fields w)]
  /\ branches (create P this fields w).2 !! branch this
     = Some (id (created_commit this fields w))
  /\ calls (create P this fields w).2
     = calls w ++ [Push (upstream this) [push_refspec this]].
Proof.
  intros Hacc Hsc Hrem Hpush He.
  assert (E : create P this fields w
              = (Throw e, set_push_answers rest
                            (record_call (Push (upstream this) [push_refspec this])
                               (committed this fields w)))).
  { rewrite (create_runs this fields w Hacc), Hsc. unfold bind at 1.
    rewrite (commit_fatal_world this (committed this fields w) e rest); try done.
    by destruct Hacc as (_ & ? & _). }
  rewrite E. cbn [fst snd]. repeat split; try done.
  unfold committed. cbn. apply lookup_insert_eq.
Qed.

(** X13.  When synchronisation is on (the default) and the remote
    accepts the push, [create] has pushed the tracked branch to its
    upstream exactly once, after writing the commit, and has made no
    other remote call. *)
Theorem create_pushes_once this fields w :
  accepts P this fields w -> default true (shouldCommit fields) = true ->
  is_Some (remotes w !! upstream this) ->
  (push_answers w = [] \/ exists rest, push_answers w = Return tt :: rest) ->
  odb (create P this fields w).2 = odb w ++ [CommitObject (created_commit this fields w)]
  /\ branches (create P this fields w).2
     = <[branch this := id (created_commit this fields w)]> (branches w)
  /\ exists spawned,
       calls (create P this fields w).2
       = calls w ++ Push (upstream this) [push_refspec this] :: spawned
       /\ forallb rev_parse_call spawned = true.
Proof.
  intros Hacc Hsc Hrem Hpush.
  set (w2 := set_push_answers (tail (push_answers (committed this fields w)))
               (record_call (Push (upstream this) [push_refspec this])
                  (committed this fields w))).
  assert (E : create P this fields w
              = _formatRedirectCommit P this (created_commit this fields w) w2).
  { rewrite (create_runs this fields w Hacc), Hsc. unfold bind at 1.
    rewrite (commit_pushed_world this (committed this fields w)); try done.
    by destruct Hacc as (_ & ? & _). }
  rewrite E.
  pose proof (query_world _ w2 (query_formatRedirectCommit P this
                                  (created_commit this fields w))) as Hsame.
  destruct (logs_formatRedirectCommit P this (created_commit this fields w) w2)
    as (spawned & Hcalls & Hok).
  destruct (_formatRedirectCommit P this (created_commit this fields w) w2) as [res w3].
  cbn [fst snd] in *.
  split; [|split].
  - by rewrite (same_repo_odb _ _ Hsame).
  - assert (Hbr : branches w3 = branches w2) by exact (f_equal branches Hsame).
    by rewrite Hbr.
  - exists spawned. split; [|done]. rewrite Hcalls. subst w2.
    unfold committed. cbn. by rewrite <- app_assoc.
Qed.

End Writes.

Lemma create_without_sync_witness :
  git.same_repo
    (repository.create Examples.platform Examples.this Examples.fields_trailing
       Examples.world).2
    (Writes.committed Examples.this Examples.fields_trailing Examples.world)
  /\ (exists spawned,
        git.calls (repository.create Examples.platform Examples.this
                     Examples.fields_trailing Examples.world).2
        = git.calls Examples.world ++ spawned
        /\ forallb Calls.rev_parse_call spawned = true)
  /\ (repository.create Examples.platform Examples.this Examples.fields_trailing
        Examples.world).1
     = (repository._formatRedirectCommit Examples.platform Examples.this
          (Writes.created_commit Examples.this Examples.fields_trailing Examples.world)
          (Writes.committed Examples.this Examples.fields_trailing Examples.world)).1.
Proof.
  apply (create_without_sync Examples.platform Examples.this Examples.fields_trailing
           Examples.world).
  - apply (bool_decide_unpack _). vm_compute. exact I.
  - reflexivity.
Defined.

Lemma create_keeps_commit_when_push_fails_witness :
  (repository.create Examples.platform Examples.this Examples.fields Cases.world_denied).1
  = Throw (GitError EGENERIC "authentication required")
  /\ git.odb (repository.create Examples.platform Examples.this Examples.fields
                Cases.world_denied).2
     = git.odb Cases.world_denied
       ++ [git.CommitObject
             (Writes.created_commit Examples.this Examples.fields Cases.world_denied)]
  /\ git.branches (repository.create Examples.platform Examples.this Examples.fields
                     Cases.world_denied).2 !! repository.branch Examples.this
     = Some (git.id (Writes.created_commit Examples.this Examples.fields
                       Cases.world_denied))
  /\ git.calls (repository.create Examples.platform Examples.this Examples.fields
                  Cases.world_denied).2
     = git.calls Cases.world_denied
       ++ [git.Push (repository.upstream Examples.this)
             [repository.push_refspec Examples.this]].
Proof.
  apply (create_keeps_commit_when_push_fails Examples.platform Examples.this Examples.fields
           Cases.world_denied (GitError EGENERIC "authentication required") []).
  - apply (bool_decide_unpack _). vm_compute. exact I.
  - reflexivity.
  - by eexists.
  - reflexivity.
  - discriminate.
Defined.

Lemma create_pushes_once_witness :
  git.odb (repository.create Examples.platform Examples.this Examples.fields
             Examples.world).2
  = git.odb Examples.world
    ++ [git.CommitObject
          (Writes.created_commit Examples.this Examples.fields Examples.world)]
  /\ git.branches (repository.create Examples.platform Examples.this Examples.fields
                     Examples.world).2
     = <[repository.branch Examples.this
         := git.id (Writes.created_commit Examples.this Examples.fields Examples.world)]>
         (git.branches Examples.world)
  /\ exists spawned,
       git.calls (repository.create Examples.platform Examples.this Examples.fields
                    Examples.world).2
       = git.calls Examples.world
         ++ git.Push (repository.upstream Examples.this)
              [repository.push_refspec Examples.this] :: spawned
       /\ forallb Calls.rev_parse_call spawned = true.
Proof.
  apply (create_pushes_once Examples.platform Examples.this Examples.fields Examples.world).
  - apply (bool_decide_unpack _). vm_compute. exact I.
  - reflexivity.
  - by eexists.
  - left. reflexivity.
Defined.

(* ===================================================================== *)
(** * The calls of the synchronisation step *)
(* ===================================================================== *)

Section SyncCalls.
Import git nodegit repository Calls.

(** X14.  Whatever the state of the repository and whatever the remote
    answers, the remote and merge calls of [commit()] are an initial
    part of: push, fetch, merge, push.  It makes none when the
    repository or the remote cannot be opened, and goes past the first
    push only when that push was rejected as not fast-forward. *)
Theorem commit_call_sequence this w :
  exists k,
    calls (commit this w).2
    = calls w ++ take k [Push (upstream this) [push_refspec this];
                         Fetch (upstream this) [fetch_refspec this];
                         MergeBranches (branch this)
                           ("refs/remotes/" +:+ upstream this +:+ "/" +:+ branch this);
                         Push (upstream this) [push_refspec this]]
    /\ (k <= 4)%nat
    /\ (k = 0%nat <-> discoverable w = false \/ remotes w !! upstream this = None)
    /\ ((2 <= k)%nat ->
        exists e rest, push_answers w = Throw e :: rest
                       /\ errno e = Some ENONFASTFORWARD).
Proof.
  destruct w as [disc objs brs rrefs hd rems ic ip st sac sig oidf pa fa ma cs].
  unfold commit, _getRepository, open_repository, getRemote, Remote_push, Remote_fetch,
    mergeBranches, tryCatch, bind, gets, modify, ret, throw, record_call, set_push_answers,
    set_fetch_answers, set_merge_answers, set_branches, set_odb.
  simpl.
  assert (Hfin : forall k (l : list Call) (d : bool) (r : option string),
            (k <= 4)%nat ->
            l = cs ++ take k [Push (upstream this) [push_refspec this];
                              Fetch (upstream this) [fetch_refspec this];
                              MergeBranches (branch this)
                                ("refs/remotes/" +:+ upstream this +:+ "/" +:+ branch this);
                              Push (upstream this) [push_refspec this]] ->
            (k = 0%nat <-> d = false \/ r = None) ->
            ((2 <= k)%nat ->
             exists e rest, pa = Throw e :: rest /\ errno e = Some ENONFASTFORWARD) ->
            exists k,
              l = cs ++ take k [Push (upstream this) [push_refspec this];
                                Fetch (upstream this) [fetch_refspec this];
                                MergeBranches (branch this)
                                  ("refs/remotes/" +:+ upstream this +:+ "/"
                                   +:+ branch this);
                                Push (upstream this) [push_refspec this]]
              /\ (k <= 4)%nat
              /\ (k = 0%nat <-> d = false \/ r = None)
              /\ ((2 <= k)%nat ->
                  exists e rest, pa = Throw e :: rest
                                 /\ errno e = Some ENONFASTFORWARD)).
  { intros k l d r ? ? ? ?. by exists k. }
  destruct disc; simpl.
  2:{ apply (Hfin 0%nat); [lia|by rewrite app_nil_r| |lia]. split; [by left|done]. }
  destruct (rems !! upstream this) as [url|] eqn:Hu; simpl.
  2:{ apply (Hfin 0%nat); [lia|by rewrite app_nil_r| |lia]. split; [by right|done]. }
  assert (Hopen : forall k, k <> 0%nat -> k = 0%nat <-> true = false \/ Some url = None).
  { intros k Hk. split; [done|]. by intros [?|?]. }
  destruct pa as [|[[]|e] pa]; simpl.
  1,2: apply (Hfin 1%nat); [lia|done|by apply Hopen|lia].
  destruct (bool_decide (errno e = Some ENONFASTFORWARD)) eqn:He; simpl.
  2:{ apply (Hfin 1%nat); [lia|done|by apply Hopen|lia]. }
  apply bool_decide_eq_true in He.
  assert (Hrej : exists e0 rest, Throw e :: pa = Throw e0 :: rest
                                 /\ errno e0 = Some ENONFASTFORWARD) by (by exists e, pa).
  destruct fa as [|[got|e1] fa]; simpl.
  3:{ apply (Hfin 2%nat); [lia|by rewrite <- !app_assoc|by apply Hopen|done]. }
  all: destruct (brs !! branch this); simpl.
  all: try (by (apply (Hfin 3%nat);
                [lia|by rewrite <- !app_assoc|by apply Hopen|done])).
  all: destruct (rrefs !! ("refs/remotes/" +:+ upstream this +:+ "/" +:+ branch this));
    simpl.
  all: try (by (apply (Hfin 3%nat);
                [lia|by rewrite <- !app_assoc|by apply Hopen|done])).
  all: destruct ma as [|[| | |e2] ma]; simpl.
  all: try (by (apply (Hfin 3%nat);
                [lia|by rewrite <- !app_assoc|by apply Hopen|done])).
  all: destruct pa as [|a pa]; simpl.
  all: by (apply (Hfin 4%nat); [lia|by rewrite <- !app_assoc|by apply Hopen|done]).
Qed.

End SyncCalls.


(* ===================================================================== *)
(** * Paths *)
(* ===================================================================== *)

Module PathFacts.
Import path Message Listing.


Lemma split_nonempty s : split s <> [].
Proof.
  induction s as [|c s IH]; [done|]. simpl.
  destruct (isSlash c); [done|]. by destruct (split s).
Qed.

Lemma split_segment l s :
  string_forallb (fun c => negb (isSlash c)) l = true ->
  split (l +:+ String "/"%char s) = l :: split s.
Proof.
  induction l as [|c l IH]; [done|]. cbn [string_forallb].
  intros [Hc Hl]%andb_prop. rewrite append_cons. cbn [split].
  apply negb_true_iff in Hc. rewrite Hc. by rewrite IH.
Qed.

Lemma split_single l :
  string_forallb (fun c => negb (isSlash c)) l = true -> split l = [l].
Proof.
  induction l as [|c l IH]; [done|]. cbn [string_forallb].
  intros [Hc Hl]%andb_prop. cbn [split].
  apply negb_true_iff in Hc. rewrite Hc. by rewrite IH.
Qed.

Lemma join_segments_cons x l :
  l <> [] -> join_segments (x :: l) = x +:+ String "/"%char (join_segments l).
Proof. by destruct l. Qed.

Lemma join_segments_app l1 l2 :
  l1 <> [] -> l2 <> [] ->
  join_segments (l1 ++ l2) = join_segments l1 +:+ String "/"%char (join_segments l2).
Proof.
  intros H1 H2. induction l1 as [|x l1 IH]; [done|].
  destruct l1 as [|y l1].
  - cbn [app]. by rewrite join_segments_cons.
  - change ((x :: y :: l1) ++ l2) with (x :: ((y :: l1) ++ l2)).
    rewrite !join_segments_cons by done. rewrite IH by done.
    by rewrite append_assoc.
Qed.

Lemma plain_segment_facts seg :
  plain_segment seg = true ->
  seg <> "" /\ seg <> "." /\ seg <> ".."
  /\ string_forallb (fun c => negb (isSlash c)) seg = true.
Proof.
  unfold plain_segment. intros [[[H1 H2]%andb_prop H3]%andb_prop H4]%andb_prop.
  apply negb_true_iff in H1, H2, H3.
  apply String.eqb_neq in H1, H2, H3. done.
Qed.

Lemma split_join_segments segs :
  Forall (fun seg => plain_segment seg = true) segs -> segs <> [] ->
  split (join_segments segs) = segs.
Proof.
  induction 1 as [|x segs Hx Hsegs IH]; [done|]. intros _.
  apply plain_segment_facts in Hx as (_ & _ & _ & Hx).
  destruct segs as [|y segs].
  - by apply split_single.
  - rewrite join_segments_cons by done. rewrite split_segment by done. by rewrite IH.
Qed.

Lemma components_path_of absolute segs :
  Forall (fun seg => plain_segment seg = true) segs -> segs <> [] ->
  fs.components (path_of absolute segs) = segs.
Proof.
  intros Hsegs Hne. unfold fs.components, path_of.
  assert (Hf : List.filter (fun seg => negb (String.eqb seg "")) segs = segs).
  { clear Hne. induction Hsegs as [|x segs Hx _ IH]; [done|]. cbn [List.filter].
    apply plain_segment_facts in Hx as (Hx & _). apply String.eqb_neq in Hx.
    by rewrite Hx, IH. }
  destruct absolute.
  - cbn [split isSlash]. change (Ascii.eqb "/" "/") with true. cbv iota.
    cbn [List.filter String.eqb negb]. by rewrite split_join_segments.
  - by rewrite split_join_segments.
Qed.

Lemma isAbsolute_path_of absolute segs :
  Forall (fun seg => plain_segment seg = true) segs -> segs <> [] ->
  isAbsolute (path_of absolute segs) = absolute.
Proof.
  intros Hsegs Hne. destruct absolute; [done|]. unfold path_of.
  destruct Hsegs as [|x segs Hx _]; [done|].
  apply plain_segment_facts in Hx as (Hx & _ & _ & Hs).
  destruct x as [|c x]; [done|]. cbn [string_forallb] in Hs.
  apply andb_prop in Hs as [Hc _]. apply negb_true_iff in Hc.
  destruct segs; [done|]. by rewrite join_segments_cons.
Qed.

Lemma path_of_not_empty absolute segs :
  Forall (fun seg => plain_segment seg = true) segs -> segs <> [] ->
  path_of absolute segs <> "".
Proof.
  intros Hsegs Hne. destruct absolute; [done|]. unfold path_of.
  destruct Hsegs as [|x segs Hx _]; [done|].
  apply plain_segment_facts in Hx as (Hx & _).
  destruct x; [done|]. destruct segs; [done|]. by rewrite join_segments_cons.
Qed.

Lemma path_of_snoc absolute segs x :
  segs <> [] ->
  path_of absolute (segs ++ [x]) = path_of absolute segs +:+ String "/"%char x.
Proof.
  intros Hne. unfold path_of. rewrite join_segments_app by done.
  by destruct absolute.
Qed.

(** ** [dirname] *)

Lemma list_ascii_app a b :
  list_ascii_of_string (a +:+ b) = list_ascii_of_string a ++ list_ascii_of_string b.
Proof. induction a as [|c a IH]; [done|]. simpl. by rewrite IH. Qed.

Lemma dropWhile_all {A} (p : A -> bool) l r :
  Forall (fun x => p x = true) l -> dropWhile p (l ++ r) = dropWhile p r.
Proof. induction 1 as [|x l Hx _ IH]; [done|]. simpl. by rewrite Hx. Qed.

Lemma no_slash_list seg :
  string_forallb (fun c => negb (isSlash c)) seg = true ->
  Forall (fun c => negb (isSlash c) = true) (list_ascii_of_string seg).
Proof.
  induction seg as [|c seg IH]; [constructor|]. cbn [string_forallb].
  intros [Hc Hs]%andb_prop. constructor; [done|by apply IH].
Qed.

Lemma dir_part_base seg :
  string_forallb (fun c => negb (isSlash c)) seg = true ->
  dir_part (rev (list_ascii_of_string seg)) = None.
Proof.
  intros Hs. apply no_slash_list in Hs. unfold dir_part.
  assert (Hrev : Forall (fun c => negb (isSlash c) = true)
                   (rev (list_ascii_of_string seg))).
  { by apply List.Forall_rev. }
  destruct (rev (list_ascii_of_string seg)) as [|c r] eqn:E; [done|].
  inversion Hrev as [|? ? Hc Hr]; subst. cbn [dropWhile].
  apply negb_true_iff in Hc. rewrite Hc.
  rewrite <- (app_nil_r (c :: r)). rewrite dropWhile_all; [done|by constructor; [rewrite Hc|]].
Qed.

Lemma dir_part_snoc body x :
  plain_segment x = true ->
  dir_part (rev (list_ascii_of_string (body +:+ String "/"%char x)))
  = Some (rev (list_ascii_of_string body)).
Proof.
  intros (Hx & _ & _ & Hs)%plain_segment_facts.
  rewrite list_ascii_app. cbn [list_ascii_of_string].
  rewrite rev_app_distr. cbn [rev]. rewrite <- app_assoc. cbn [app].
  apply no_slash_list in Hs.
  assert (Hrev : Forall (fun c => negb (isSlash c) = true)
                   (rev (list_ascii_of_string x))).
  { by apply List.Forall_rev. }
  unfold dir_part.
  destruct (rev (list_ascii_of_string x)) as [|c r] eqn:E.
  { destruct x; [done|]. apply (f_equal (@List.length _)) in E.
    rewrite length_rev in E. done. }
  inversion Hrev as [|? ? Hc Hr]; subst.
  assert (Hc' := Hc). apply negb_true_iff in Hc'.
  cbn [app dropWhile]. rewrite Hc'. cbn [dropWhile]. rewrite Hc.
  rewrite dropWhile_all by done. cbn [dropWhile]. done.
Qed.

Lemma string_of_list_ascii_rev_rev s :
  string_of_list_ascii (rev (rev (list_ascii_of_string s))) = s.
Proof. by rewrite rev_involutive, string_of_list_ascii_of_string. Qed.

(** The directory part of a normalised path of at least two names is
    the path of the names before the last. *)
Lemma dirname_snoc absolute segs x :
  Forall (fun seg => plain_segment seg = true) segs -> segs <> [] ->
  plain_segment x = true ->
  dirname (path_of absolute (segs ++ [x])) = path_of absolute segs.
Proof.
  intros Hsegs Hne Hx. rewrite path_of_snoc by done.
  pose proof (path_of_not_empty absolute segs Hsegs Hne) as Hp.
  pose proof (isAbsolute_path_of absolute segs Hsegs Hne) as Habs.
  destruct (path_of absolute segs) as [|c pbody] eqn:E; [done|].
  rewrite append_cons. cbn [dirname]. rewrite dir_part_snoc by done.
  destruct (rev (list_ascii_of_string pbody)) as [|a r] eqn:Er.
  - assert (pbody = "") as ->.
    { destruct pbody; [done|]. apply (f_equal (@List.length _)) in Er.
      rewrite length_rev in Er. done. }
    cbn [isAbsolute] in Habs. rewrite Habs.
    destruct absolute; [|done]. exfalso.
    unfold path_of in E. injection E as _ E.
    destruct Hsegs as [|y segs Hy _]; [done|].
    apply plain_segment_facts in Hy as (Hy & _).
    destruct segs; [by destruct y|]. rewrite join_segments_cons in E by done.
    by destruct y.
  - rewrite <- Er. by rewrite string_of_list_ascii_rev_rev.
Qed.

Lemma dirname_single absolute x :
  plain_segment x = true ->
  dirname (path_of absolute [x]) = if absolute then "/" else ".".
Proof.
  intros (Hx & _ & _ & Hs)%plain_segment_facts. unfold path_of. cbn [join_segments].
  destruct absolute.
  - cbn [dirname]. by rewrite dir_part_base.
  - destruct x as [|c x]; [done|]. cbn [dirname string_forallb] in *.
    apply andb_prop in Hs as [Hc Hs]. rewrite dir_part_base by done.
    apply negb_true_iff in Hc. by rewrite Hc.
Qed.

Lemma length_append a b : String.length (a +:+ b) = (String.length a + String.length b)%nat.
Proof. induction a as [|c a IH]; [done|]. simpl. by rewrite IH. Qed.

(** A normalised path is not its own parent. *)
Lemma dirname_not_self absolute segs :
  Forall (fun seg => plain_segment seg = true) segs -> segs <> [] ->
  String.eqb (dirname (path_of absolute segs)) (path_of absolute segs) = false.
Proof.
  intros Hsegs Hne. apply String.eqb_neq.
  destruct (exists_last Hne) as (init & x & ->).
  apply Forall_app in Hsegs as [Hinit Hx].
  inversion Hx as [|? ? Hx' _]; subst.
  destruct init as [|y init].
  - cbn [app]. rewrite dirname_single by done.
    apply plain_segment_facts in Hx' as (H1 & H2 & _).
    unfold path_of. cbn [join_segments]. destruct absolute.
    + intros [= E]. by symmetry in E.
    + intros E. by symmetry in E.
  - rewrite dirname_snoc by done. rewrite path_of_snoc by done.
    intros E. apply (f_equal String.length) in E. rewrite length_append in E.
    cbn [String.length] in E. lia.
Qed.

End PathFacts.

(* ===================================================================== *)
(** * The file system *)
(* ===================================================================== *)

Module FsFacts.
Import path fs PathFacts.

Lemma node_at_cons s x q : node_at s (x :: q) = nodes s !! (x :: q).
Proof. done. Qed.

Lemma node_at_snoc s q x : node_at s (q ++ [x]) = nodes s !! (q ++ [x]).
Proof. by destruct q. Qed.

(** In a well-formed tree whatever lies above a node is a directory. *)
Lemma wf_prefix s q r n :
  wf s -> node_at s (q ++ r) = Some n -> r <> [] -> node_at s q = Some Dir.
Proof.
  intros [Hwf _]. revert n. induction r as [|x r IH] using rev_ind; [done|].
  intros n Hn _. rewrite app_assoc, node_at_snoc in Hn.
  apply Hwf in Hn. rewrite removelast_last in Hn.
  destruct r as [|y r]; [by rewrite app_nil_r in Hn|].
  by apply (IH Dir).
Qed.

Lemma wf_missing s q r :
  wf s -> node_at s q = None -> node_at s (q ++ r) = None.
Proof.
  intros Hwf Hq. destruct r as [|x r]; [by rewrite app_nil_r|].
  destruct (node_at s (q ++ x :: r)) as [n|] eqn:E; [|done].
  apply wf_prefix in E; [|done|done]. by rewrite Hq in E.
Qed.

Lemma take_S_cons {A} (x : A) l k : take (S k) (x :: l) = x :: take k l.
Proof. done. Qed.

Lemma app_cons_snoc {A} (cur : list A) x l : cur ++ x :: l = (cur ++ [x]) ++ l.
Proof. by rewrite <- app_assoc. Qed.

(** How the resolution of plain names ends. *)
Lemma walk_plain s : forall segs cur,
  Forall (fun seg => plain_segment seg = true) segs ->
  (walk s cur segs = Done (cur ++ segs)
   /\ forall k, (1 <= k <= List.length segs)%nat ->
                node_at s (cur ++ take k segs) = Some Dir)
  \/ (exists k, (1 <= k <= List.length segs)%nat
                /\ node_at s (cur ++ take k segs) = None
                /\ walk s cur segs = Failed (SystemError ENOENT))
  \/ (exists k data, (1 <= k <= List.length segs)%nat
                     /\ node_at s (cur ++ take k segs) = Some (File data)
                     /\ walk s cur segs = Failed (SystemError ENOTDIR)).
Proof.
  induction segs as [|seg rest IH]; intros cur Hplain.
  { left. rewrite app_nil_r. split; [done|]. simpl. lia. }
  apply Forall_cons in Hplain as [Hseg Hrest].
  apply plain_segment_facts in Hseg as (_ & H1 & H2 & _).
  apply String.eqb_neq in H1, H2.
  cbn [walk]. rewrite H1, H2.
  destruct (node_at s (cur ++ [seg])) as [[|data]|] eqn:E.
  - destruct (IH (cur ++ [seg]) Hrest) as [[Hw Hk]|[(k & Hk & Hn & Hw)|(k & d & Hk & Hn & Hw)]].
    + left. rewrite Hw, <- app_assoc. split; [done|].
      intros [|k] Hlen; [lia|]. rewrite take_S_cons.
      destruct k as [|k]; [by rewrite take_0|].
      rewrite app_cons_snoc. apply Hk. simpl in Hlen. lia.
    + right. left. exists (S k). rewrite take_S_cons.
      rewrite app_cons_snoc. split; [simpl; lia|done].
    + right. right. exists (S k), d. rewrite take_S_cons.
      rewrite app_cons_snoc. split; [simpl; lia|done].
  - right. right. exists 1%nat, data. rewrite take_S_cons, take_0.
    split; [simpl; lia|done].
  - right. left. exists 1%nat. rewrite take_S_cons, take_0.
    split; [simpl; lia|done].
Qed.

(** [mkdir] on a normalised path. *)
Lemma mkdir_plain s absolute init x :
  Forall (fun seg => plain_segment seg = true) (init ++ [x]) ->
  mkdir (path_of absolute (init ++ [x])) s
  = match walk s (target s absolute []) init with
    | Failed e => (Failed e, s)
    | Done cur =>
        match node_at s (cur ++ [x]) with
        | Some _ => (Failed (SystemError EEXIST), s)
        | None =>
            if read_only s then (Failed (SystemError EROFS), s)
            else (Done tt, set_nodes (<[cur ++ [x] := Dir]> (nodes s)) s)
        end
    end.
Proof.
  intros Hplain. unfold mkdir, start, target.
  assert (Hne : init ++ [x] <> []) by (by destruct init).
  pose proof (path_of_not_empty absolute _ Hplain Hne) as Hp.
  apply String.eqb_neq in Hp. rewrite Hp.
  rewrite components_path_of, isAbsolute_path_of by done.
  rewrite rev_app_distr. cbn [rev app]. rewrite rev_involutive, app_nil_r.
  apply Forall_app in Hplain as [_ Hx].
  inversion Hx as [|? ? Hx' _]; subst.
  apply plain_segment_facts in Hx' as (_ & H1 & H2 & _).
  apply String.eqb_neq in H1, H2. by rewrite H1, H2.
Qed.

Lemma walk_dirs s segs cur :
  Forall (fun seg => plain_segment seg = true) segs ->
  (forall k, (1 <= k <= List.length segs)%nat ->
             node_at s (cur ++ take k segs) = Some Dir) ->
  walk s cur segs = Done (cur ++ segs).
Proof.
  intros Hplain Hdirs.
  destruct (walk_plain s segs cur Hplain)
    as [[Hw _]|[(k & Hk & Hn & _)|(k & d & Hk & Hn & _)]]; [done| |].
  - by rewrite Hdirs in Hn.
  - by rewrite Hdirs in Hn.
Qed.

Lemma node_at_weaken s s' q n :
  nodes s ⊆ nodes s' -> node_at s q = Some n -> node_at s' q = Some n.
Proof.
  intros Hsub. destruct q as [|x q]; [done|]. cbn [node_at].
  intros Hq. by apply (lookup_weaken (nodes s)).
Qed.

Lemma target_take_le s absolute init x k :
  (k <= List.length init)%nat ->
  target s absolute (take k (init ++ [x])) = target s absolute (take k init).
Proof. intros Hk. unfold target. by rewrite take_app_le. Qed.

Lemma target_take_all s absolute init x :
  target s absolute (take (S (List.length init)) (init ++ [x]))
  = target s absolute init ++ [x].
Proof.
  unfold target. rewrite take_ge by (rewrite length_app; simpl; lia).
  by rewrite app_assoc.
Qed.

Lemma target_nil_app s absolute l :
  target s absolute [] ++ l = target s absolute l.
Proof. unfold target. by rewrite app_nil_r. Qed.

Lemma target_same s s' absolute segs :
  cwd s' = cwd s -> target s' absolute segs = target s absolute segs.
Proof. intros H. unfold target. by rewrite H. Qed.

(** Nothing to do: every step of the way exists. *)
Lemma made_refl s absolute segs :
  (forall k, (1 <= k <= List.length segs)%nat ->
             is_Some (node_at s (target s absolute (take k segs)))) ->
  made s s absolute segs.
Proof.
  intros H. split; [done|]. split; [done|]. split; [done|]. split; [done|].
  split; [|done]. intros q Hq [n Hn]. by rewrite Hq in Hn.
Qed.

(** One more directory at the end of the way. *)
Lemma made_snoc s s1 absolute init x :
  made s s1 absolute init ->
  nodes s1 !! (target s absolute init ++ [x]) = None ->
  made s (set_nodes (<[target s absolute init ++ [x] := Dir]> (nodes s1)) s1)
       absolute (init ++ [x]).
Proof.
  intros (Hcwd & Hro & Hcon & Hsub & Hadded & Hway) Hnone.
  split; [done|]. split; [done|]. split; [done|].
  split; [|split].
  - etrans; [exact Hsub|]. by apply insert_subseteq.
  - intros q Hq Hin. cbn [nodes set_nodes] in *.
    destruct (decide (q = target s absolute init ++ [x])) as [->|Hne].
    + rewrite lookup_insert_eq. split; [done|].
      exists (S (List.length init)). rewrite target_take_all.
      split; [rewrite length_app; simpl; lia|done].
    + rewrite lookup_insert_ne in Hin |- * by done.
      destruct (Hadded q Hq Hin) as (Hd & k & Hk & ->).
      split; [done|]. exists k. rewrite target_take_le by lia.
      split; [rewrite length_app; simpl; lia|done].
  - intros k Hk. rewrite length_app in Hk. cbn [length] in Hk.
    destruct (decide (k = S (List.length init))) as [->|Hne].
    + rewrite target_take_all, node_at_snoc. cbn [nodes set_nodes].
      rewrite lookup_insert_eq. by eexists.
    + rewrite target_take_le by lia.
      destruct (Hway k) as [n Hn]; [lia|]. exists n.
      eapply node_at_weaken; [|exact Hn]. cbn [nodes set_nodes].
      by apply insert_subseteq.
Qed.

Lemma wf_insert s parent x :
  wf s -> node_at s parent = Some Dir -> nodes s !! (parent ++ [x]) = None ->
  wf (set_nodes (<[parent ++ [x] := Dir]> (nodes s)) s).
Proof.
  intros [Hwf Hcwd] Hparent Hnone.
  assert (Hsub : nodes s ⊆ <[parent ++ [x] := Dir]> (nodes s)) by by apply insert_subseteq.
  split.
  - intros q n. cbn [nodes set_nodes].
    destruct (decide (q = parent ++ [x])) as [->|Hne].
    + intros _. rewrite removelast_last.
      by apply (node_at_weaken s).
    + rewrite lookup_insert_ne by done. intros Hq.
      apply (node_at_weaken s); [done|]. by apply (Hwf q n).
  - by apply (node_at_weaken s).
Qed.

End FsFacts.

(* ===================================================================== *)
(** * [mkdirp] *)
(* ===================================================================== *)

Module Mkdirp.
Import path fs publish PathFacts FsFacts.

(** One turn of [mkdirp] on a normalised path. *)
Lemma mkdirp_unfold f absolute segs s :
  Forall (fun seg => plain_segment seg = true) segs -> segs <> [] ->
  mkdirp (S f) (path_of absolute segs) s
  = match mkdir (path_of absolute segs) s with
    | (Done _, s') => Some (Done tt, s')
    | (Failed e, s') =>
        if bool_decide (code e = Some ENOENT) then
          (await _ := mkdirp f (dirname (path_of absolute segs)) in
           mkdirp f (path_of absolute segs)) s'
        else if negb (bool_decide (code e = Some EEXIST))
                && negb (bool_decide (code e = Some EROFS))
        then Some (Failed e, s')
        else Some (Done tt, s')
    end.
Proof.
  intros Hplain Hne. cbn [mkdirp]. rewrite dirname_not_self by done.
  unfold tryCatch, call.
  destruct (mkdir (path_of absolute segs) s) as [[[]|e] s']; [done|].
  destruct (bool_decide (code e = Some ENOENT)); [done|].
  by destruct (negb _ && negb _).
Qed.

(** On a writable file system [mkdirp] settles within as many turns as
    the path has names: it makes the missing directories, or it stops
    at a regular file on the way without having made any. *)
Lemma mkdirp_plain absolute : forall segs s fuel,
  wf s -> read_only s = false ->
  Forall (fun seg => plain_segment seg = true) segs -> segs <> [] ->
  (List.length segs <= fuel)%nat ->
  (exists s', mkdirp fuel (path_of absolute segs) s = Some (Done tt, s')
              /\ made s s' absolute segs /\ wf s')
  \/ (mkdirp fuel (path_of absolute segs) s = Some (Failed (SystemError ENOTDIR), s)
      /\ exists k data, (1 <= k < List.length segs)%nat
                        /\ node_at s (target s absolute (take k segs))
                           = Some (File data)).
Proof.
  induction segs as [|x init IH] using rev_ind; [done|].
  intros s fuel Hwf Hro Hplain _ Hfuel.
  rewrite length_app in Hfuel. cbn [length] in Hfuel.
  destruct fuel as [|f]; [lia|].
  assert (Hplain' := Hplain). apply Forall_app in Hplain' as [Hinit Hx].
  apply Forall_cons in Hx as [Hx _].
  rewrite mkdirp_unfold by (done || by destruct init).
  rewrite mkdir_plain by done.
  assert (Hbase : node_at s (target s absolute []) = Some Dir).
  { unfold target. rewrite app_nil_r. destruct absolute; [done|]. by destruct Hwf. }
  destruct (walk_plain s init (target s absolute []) Hinit)
    as [[Hw Hdirs]|[(k & Hk & Hnone & Hw)|(k & d & Hk & Hfile & Hw)]]; rewrite Hw.
  - (* the directory part resolves *)
    rewrite target_nil_app.
    assert (Hway : forall k, (1 <= k <= List.length init)%nat ->
                     is_Some (node_at s (target s absolute (take k init)))).
    { intros k Hk. exists Dir. specialize (Hdirs k Hk).
      by rewrite target_nil_app in Hdirs. }
    assert (Hparent : node_at s (target s absolute init) = Some Dir).
    { destruct init as [|y init']; [done|].
      specialize (Hdirs (List.length (y :: init')) ltac:(simpl; lia)).
      rewrite firstn_all in Hdirs. by rewrite target_nil_app in Hdirs. }
    destruct (node_at s (target s absolute init ++ [x])) as [n|] eqn:Et.
    + (* it exists already *)
      cbn [code]. rewrite !bool_decide_eq_false_2 by done.
      rewrite bool_decide_eq_true_2 by done. cbn [negb andb].
      left. exists s. split; [done|]. split; [|done].
      apply made_refl. intros k Hk. rewrite length_app in Hk. cbn [length] in Hk.
      destruct (decide (k = S (List.length init))) as [->|Hne].
      * rewrite target_take_all. by exists n.
      * rewrite target_take_le by lia. apply Hway. lia.
    + rewrite Hro. left. rewrite node_at_snoc in Et.
      eexists. split; [reflexivity|]. split.
      * apply made_snoc; [|done]. by apply made_refl.
      * by apply wf_insert.
  - (* a directory on the way is missing *)
    cbn [code]. rewrite bool_decide_eq_true_2 by done.
    assert (Hne : init <> []) by (destruct init; [simpl in Hk; lia|done]).
    rewrite dirname_snoc by done.
    assert (Hnone_up : forall r, node_at s (target s absolute init ++ r) = None).
    { intros r. rewrite target_nil_app in Hnone.
      rewrite <- (take_drop k init) at 1. unfold target in *.
      rewrite <- !app_assoc, app_assoc. by apply wf_missing. }
    unfold bind.
    destruct (IH s f Hwf Hro Hinit Hne ltac:(lia))
      as [(s1 & E1 & Hmade & Hwf1)|(E1 & k' & d & Hk' & Hfile)]; rewrite E1.
    2:{ right. split; [done|]. exists k', d. rewrite target_take_le by lia.
        split; [rewrite length_app; simpl; lia|done]. }
    pose proof Hmade as (Hcwd & Hro1 & Hcon & Hsub & Hadded & Hway).
    destruct f as [|f']; [destruct init; [done|simpl in Hfuel; lia]|].
    rewrite mkdirp_unfold by (done || by destruct init).
    rewrite mkdir_plain by done.
    rewrite (target_same s s1) by done.
    assert (Hparent1 : nodes s1 !! target s absolute init = Some Dir).
    { destruct (Hway (List.length init)) as [n Hn].
      { destruct init; [done|simpl; lia]. }
      rewrite firstn_all in Hn.
      assert (Htne : target s absolute init <> []).
      { unfold target. destruct init; [done|]. by destruct (if absolute then _ else _). }
      destruct (target s absolute init) as [|t ts] eqn:Et; [done|].
      cbn [node_at] in Hn.
      destruct (Hadded (t :: ts)) as [Hd _]; [|by exists n|done].
      specialize (Hnone_up []). rewrite app_nil_r in Hnone_up. exact Hnone_up. }
    assert (Hdirs1 : forall j, (1 <= j <= List.length init)%nat ->
                       node_at s1 (target s absolute [] ++ take j init) = Some Dir).
    { intros j Hj.
      rewrite target_nil_app.
      destruct (decide (j = List.length init)) as [->|Hlt].
      - rewrite firstn_all.
        destruct (target s absolute init) as [|t ts] eqn:Et; [done|]. exact Hparent1.
      - apply (wf_prefix s1 _ (drop j init) Dir); [done| |].
        + unfold target. rewrite <- app_assoc, take_drop.
          fold (target s absolute init).
          destruct (target s absolute init) as [|t ts] eqn:Et; [done|]. exact Hparent1.
        + intros E. apply (f_equal (@List.length _)) in E.
          rewrite length_drop in E. simpl in E. lia. }
    rewrite (walk_dirs s1 init _ Hinit Hdirs1).
    rewrite target_nil_app.
    assert (Hnew : nodes s1 !! (target s absolute init ++ [x]) = None).
    { destruct (nodes s1 !! (target s absolute init ++ [x])) as [n|] eqn:En; [|done].
      exfalso. destruct (Hadded (target s absolute init ++ [x])) as (_ & j & Hj & Ej).
      - rewrite <- node_at_snoc. apply Hnone_up.
      - by exists n.
      - apply (f_equal (@List.length _)) in Ej. unfold target in Ej.
        rewrite !length_app, length_take in Ej. cbn [length] in Ej. lia. }
    rewrite node_at_snoc, Hnew, Hro1, Hro.
    left. eexists. split; [reflexivity|]. split.
    + by apply made_snoc.
    + apply wf_insert; [done| |done].
      destruct (target s absolute init) as [|t ts] eqn:Et; [done|]. exact Hparent1.
  - (* a regular file on the way *)
    cbn [code]. rewrite !bool_decide_eq_false_2 by done. cbn [negb andb].
    right. split; [done|]. exists k, d. rewrite target_take_le by lia.
    split; [rewrite length_app; simpl; lia|].
    by rewrite target_nil_app in Hfile.
Qed.

(** A path whose place is taken is accepted as it is. *)
Lemma mkdirp_exists s absolute segs fuel n :
  wf s -> Forall (fun seg => plain_segment seg = true) segs -> segs <> [] ->
  node_at s (target s absolute segs) = Some n ->
  mkdirp (S fuel) (path_of absolute segs) s = Some (Done tt, s).
Proof.
  intros Hwf Hplain Hne Hn.
  destruct (exists_last Hne) as (init & x & ->).
  rewrite mkdirp_unfold by done. rewrite mkdir_plain by done.
  apply Forall_app in Hplain as [Hinit _].
  rewrite (walk_dirs s init).
  - rewrite target_nil_app.
    assert (E : target s absolute init ++ [x] = target s absolute (init ++ [x])).
    { unfold target. by rewrite app_assoc. }
    rewrite E, Hn. cbn [code]. rewrite !bool_decide_eq_false_2 by done.
    by rewrite bool_decide_eq_true_2.
  - done.
  - intros k Hk. rewrite target_nil_app.
    apply (wf_prefix s _ (drop k init ++ [x]) n); [done| |by destruct (drop k init)].
    unfold target in *. rewrite <- app_assoc, (app_assoc (take k init)), take_drop.
    exact Hn.
Qed.

(** On a read-only file system, with the parent directory missing and
    no regular file on the way, no number of turns is enough. *)
Lemma mkdirp_read_only s absolute : forall fuel init x,
  wf s -> read_only s = true ->
  Forall (fun seg => plain_segment seg = true) (init ++ [x]) ->
  (forall k data, node_at s (target s absolute (take k init)) <> Some (File data)) ->
  node_at s (target s absolute init) = None ->
  mkdirp fuel (path_of absolute (init ++ [x])) s = None.
Proof.
  induction fuel as [|f IH]; intros init x Hwf Hro Hplain Hnofile Hnone; [done|].
  assert (Hplain' := Hplain). apply Forall_app in Hplain' as [Hinit Hx].
  apply Forall_cons in Hx as [Hx _].
  assert (Hbase : node_at s (target s absolute []) = Some Dir).
  { unfold target. rewrite app_nil_r. destruct absolute; [done|]. by destruct Hwf. }
  assert (Hne : init <> []).
  { intros ->. by rewrite Hbase in Hnone. }
  rewrite mkdirp_unfold by (done || by destruct init).
  rewrite mkdir_plain by done.
  destruct (walk_plain s init (target s absolute []) Hinit)
    as [[Hw Hdirs]|[(k & Hk & Hn & Hw)|(k & d & Hk & Hfile & Hw)]]; rewrite Hw.
  - exfalso. pose proof (Hdirs (List.length init)) as H.
    rewrite firstn_all, target_nil_app, Hnone in H.
    assert (Hl : (1 <= List.length init <= List.length init)%nat)
      by (destruct init; [done|simpl; lia]).
    by specialize (H Hl).
  - cbn [code]. rewrite bool_decide_eq_true_2 by done.
    rewrite dirname_snoc by done. unfold bind.
    destruct (exists_last Hne) as (init' & y & ->).
    destruct (node_at s (target s absolute init')) as [n|] eqn:Eup.
    + (* the directory above the parent exists: the parent is "made" *)
      assert (n = Dir) as ->.
      { destruct n as [|data]; [done|]. exfalso.
        apply (Hnofile (List.length init') data).
        by rewrite take_app_le, firstn_all by lia. }
      destruct f as [|f']; [done|].
      rewrite mkdirp_unfold by (done || by destruct init').
      rewrite mkdir_plain by done.
      apply Forall_app in Hinit as [Hinit' _].
      rewrite (walk_dirs s init').
      * rewrite target_nil_app.
        assert (E : target s absolute init' ++ [y] = target s absolute (init' ++ [y])).
        { unfold target. by rewrite app_assoc. }
        rewrite E, Hnone, Hro. cbn [code].
        rewrite !bool_decide_eq_false_2 by done.
        rewrite bool_decide_eq_true_2 by done. cbn [negb andb].
        by apply IH.
      * done.
      * intros j Hj. rewrite target_nil_app.
        destruct (decide (j = List.length init')) as [->|Hlt];
          [by rewrite firstn_all|].
        apply (wf_prefix s _ (drop j init') Dir); [done| |].
        -- unfold target in *. by rewrite <- app_assoc, take_drop.
        -- intros E. apply (f_equal (@List.length _)) in E.
           rewrite length_drop in E. simpl in E. lia.
    + rewrite IH; try done.
      intros j data. destruct (decide (j <= List.length init')%nat).
      * specialize (Hnofile j data). by rewrite take_app_le in Hnofile.
      * rewrite take_ge by lia. by rewrite Eup.
  - exfalso. rewrite target_nil_app in Hfile. by apply (Hnofile k d).
Qed.

End Mkdirp.

Section MkdirpProperties.
Import path fs publish PathFacts FsFacts Mkdirp.

(** X15.  On a writable, well-formed file system [mkdirp] of a
    normalised path settles within as many turns as the path has names.
    Either it fulfils, and then it has added only directories, each on
    the way to the path, nothing that was there has changed, and every
    step of the way exists; or it rejects with [ENOTDIR] because a
    regular file stands on the way, and then it has changed nothing. *)
Theorem mkdirp_makes_directories s absolute segs fuel :
  wf s -> read_only s = false ->
  Forall (fun seg => plain_segment seg = true) segs -> segs <> [] ->
  (List.length segs <= fuel)%nat ->
  (exists s', mkdirp fuel (path_of absolute segs) s = Some (Done tt, s')
              /\ made s s' absolute segs /\ wf s')
  \/ (mkdirp fuel (path_of absolute segs) s = Some (Failed (SystemError ENOTDIR), s)
      /\ exists k data, (1 <= k < List.length segs)%nat
                        /\ node_at s (target s absolute (take k segs))
                           = Some (File data)).
Proof. apply mkdirp_plain. Qed.

(** X16.  When something already has the name, a directory or a regular
    file alike, [mkdirp] fulfils at once and changes nothing: the
    [EEXIST] of [mkdir] is taken for success without a look at what
    exists. *)
Theorem mkdirp_accepts_what_exists s absolute segs fuel n :
  wf s -> Forall (fun seg => plain_segment seg = true) segs -> segs <> [] ->
  node_at s (target s absolute segs) = Some n ->
  mkdirp (S fuel) (path_of absolute segs) s = Some (Done tt, s).
Proof. apply mkdirp_exists. Qed.

(** X17.  On a read-only file system [mkdirp] never settles when the
    parent of the path is missing and no regular file stands on the
    way: [mkdir] of the path answers [ENOENT], the [EROFS] that the
    recursive call meets is taken for success, and the retry starts
    over. *)
Theorem mkdirp_read_only_never_settles s absolute init x fuel :
  wf s -> read_only s = true ->
  Forall (fun seg => plain_segment seg = true) (init ++ [x]) ->
  (forall k data, node_at s (target s absolute (take k init)) <> Some (File data)) ->
  node_at s (target s absolute init) = None ->
  mkdirp fuel (path_of absolute (init ++ [x])) s = None.
Proof. intros. by apply mkdirp_read_only. Qed.

End MkdirpProperties.

Lemma mkdirp_makes_directories_witness :
  (exists s', publish.mkdirp 3 (path.path_of false ["www"; "pages"; "E25"]) Disks.disk
              = Some (fs.Done tt, s')
              /\ fs.made Disks.disk s' false ["www"; "pages"; "E25"] /\ fs.wf s')
  \/ (publish.mkdirp 3 (path.path_of false ["www"; "pages"; "E25"]) Disks.disk
      = Some (fs.Failed (fs.SystemError fs.ENOTDIR), Disks.disk)
      /\ exists k data, (1 <= k < List.length ["www"; "pages"; "E25"])%nat
                        /\ fs.node_at Disks.disk
                             (fs.target Disks.disk false (take k ["www"; "pages"; "E25"]))
                           = Some (fs.File data)).
Proof.
  apply (mkdirp_makes_directories Disks.disk false ["www"; "pages"; "E25"] 3).
  - apply (bool_decide_unpack _). vm_compute. exact I.
  - reflexivity.
  - repeat constructor.
  - discriminate.
  - simpl. lia.
Defined.

Lemma mkdirp_accepts_what_exists_witness :
  publish.mkdirp 1 (path.path_of true ["srv"; "notes"]) Disks.disk
  = Some (fs.Done tt, Disks.disk).
Proof.
  apply (mkdirp_accepts_what_exists Disks.disk true ["srv"; "notes"] 0 (fs.File "to do")).
  - apply (bool_decide_unpack _). vm_compute. exact I.
  - repeat constructor.
  - discriminate.
  - reflexivity.
Defined.

Lemma mkdirp_read_only_never_settles_witness :
  publish.mkdirp 1000 (path.path_of false (["www"; "pages"] ++ ["E25"]))
    Disks.disk_read_only = None.
Proof.
  apply (mkdirp_read_only_never_settles Disks.disk_read_only false ["www"; "pages"] "E25"
           1000).
  - apply (bool_decide_unpack _). vm_compute. exact I.
  - reflexivity.
  - repeat constructor.
  - intros [|[|[|k]]] data; vm_compute; discriminate.
  - reflexivity.
Defined.

(* ===================================================================== *)
(** * [publish] *)
(* ===================================================================== *)

Module Publish.
Import path fs publish PathFacts FsFacts Mkdirp Message Listing.

Lemma fold_plain a l : forall acc,
  Forall (fun seg => plain_segment seg = true) l ->
  fold_left (normalize_step a) l acc = rev l ++ acc.
Proof.
  induction l as [|seg l IH]; intros acc Hl; [done|].
  apply Forall_cons in Hl as [Hseg Hl].
  cbn [fold_left rev]. rewrite IH by done. rewrite <- app_assoc. cbn [app].
  apply plain_segment_facts in Hseg as (H0 & H1 & H2 & _).
  apply String.eqb_neq in H0, H1, H2.
  unfold normalize_step. by rewrite H0, H1, H2.
Qed.

Lemma trailingSeparator_app a b :
  b <> "" -> trailingSeparator (a +:+ b) = trailingSeparator b.
Proof.
  intros Hb. induction a as [|c a IH]; [done|].
  rewrite append_cons. cbn [trailingSeparator]. rewrite IH.
  destruct (a +:+ b) eqn:E; [|done]. by destruct a, b.
Qed.

Lemma trailingSeparator_plain x :
  plain_segment x = true -> trailingSeparator x = false.
Proof.
  intros (Hx & _ & _ & Hs)%plain_segment_facts.
  induction x as [|c x IH]; [done|]. cbn [string_forallb] in Hs.
  apply andb_prop in Hs as [Hc Hs]. cbn [trailingSeparator].
  destruct x as [|d x]; [by apply negb_true_iff in Hc|]. by apply IH.
Qed.

Lemma trailingSeparator_path_of absolute segs :
  Forall (fun seg => plain_segment seg = true) segs -> segs <> [] ->
  trailingSeparator (path_of absolute segs) = false.
Proof.
  intros Hsegs Hne. destruct (exists_last Hne) as (init & x & ->).
  apply Forall_app in Hsegs as [_ Hx]. apply Forall_cons in Hx as [Hx _].
  assert (Hx0 : x <> "") by (by apply plain_segment_facts in Hx as (? & _)).
  destruct init as [|y init].
  - cbn [app]. unfold path_of. cbn [join_segments]. destruct absolute.
    + change (String "/" x) with ("/" +:+ x). rewrite trailingSeparator_app by done.
      by apply trailingSeparator_plain.
    + by apply trailingSeparator_plain.
  - rewrite path_of_snoc by done.
    change (String "/" x) with ("/" +:+ x). rewrite <- append_assoc.
    rewrite trailingSeparator_app by done. by apply trailingSeparator_plain.
Qed.

(** A normalised path is left as it is. *)
Lemma normalize_plain absolute segs :
  Forall (fun seg => plain_segment seg = true) segs -> segs <> [] ->
  normalize (path_of absolute segs) = path_of absolute segs.
Proof.
  intros Hsegs Hne.
  pose proof (path_of_not_empty absolute segs Hsegs Hne) as Hp.
  pose proof (path_of_not_empty false segs Hsegs Hne) as Hj.
  unfold normalize.
  destruct (path_of absolute segs) as [|c p] eqn:E; [done|]. rewrite <- E.
  rewrite isAbsolute_path_of, trailingSeparator_path_of by done.
  assert (En : normalizeString (path_of absolute segs) (negb absolute)
               = join_segments segs).
  { unfold normalizeString.
    assert (Hs : fold_left (normalize_step (negb absolute))
                   (split (path_of absolute segs)) [] = rev segs).
    { unfold path_of. destruct absolute.
      - cbn [split]. rewrite PathFacts.split_join_segments by done.
        change (isSlash "/") with true. cbv iota. cbn [fold_left].
        change (normalize_step (negb true) [] "") with (@nil string).
        rewrite fold_plain by done. by rewrite app_nil_r.
      - rewrite PathFacts.split_join_segments by done. rewrite fold_plain by done. by rewrite app_nil_r. }
    by rewrite Hs, rev_involutive. }
  rewrite En. unfold path_of in Hj.
  destruct (join_segments segs) as [|d n] eqn:Ej; [done|]. rewrite <- Ej.
  unfold path_of. by destruct absolute.
Qed.

(** The path of the page of a record. *)
Lemma join_page absolute segs sid :
  Forall (fun seg => plain_segment seg = true) segs ->
  (segs = [] -> absolute = false) ->
  plain_segment sid = true ->
  join [path_of absolute segs; sid; "index.html"]
  = path_of absolute (segs ++ [sid; "index.html"]).
Proof.
  intros Hsegs Habs Hsid.
  assert (Hs0 : String.eqb sid "" = false).
  { apply plain_segment_facts in Hsid as (? & _). by apply String.eqb_neq. }
  assert (Hall : Forall (fun seg => plain_segment seg = true)
                   (segs ++ [sid; "index.html"])).
  { apply Forall_app. split; [done|]. by repeat constructor. }
  unfold join. cbn [List.filter]. rewrite Hs0. cbn [negb String.eqb Ascii.eqb].
  destruct segs as [|y segs].
  - rewrite (Habs eq_refl). change (path_of false []) with "".
    cbn [String.eqb negb app].
    exact (normalize_plain false [sid; "index.html"] Hall ltac:(done)).
  - pose proof (path_of_not_empty absolute (y :: segs) Hsegs ltac:(done)) as Hd.
    apply String.eqb_neq in Hd. rewrite Hd. cbn [negb].
    assert (E : join_segments [path_of absolute (y :: segs); sid; "index.html"]
                = path_of absolute ((y :: segs) ++ [sid; "index.html"])).
    { unfold path_of. rewrite (join_segments_app (y :: segs)) by done.
      destruct absolute; [|done].
      rewrite !join_segments_cons by done. by rewrite append_cons. }
    rewrite E. by rewrite normalize_plain.
Qed.

(** [writeFile] on a normalised path. *)
Lemma writeFile_plain s absolute init x data :
  Forall (fun seg => plain_segment seg = true) (init ++ [x]) ->
  writeFile (path_of absolute (init ++ [x])) data s
  = match walk s (target s absolute []) init with
    | Failed e => (Failed e, s)
    | Done cur =>
        match node_at s (cur ++ [x]) with
        | Some Dir => (Failed (SystemError EISDIR), s)
        | _ =>
            if read_only s then (Failed (SystemError EROFS), s)
            else (Done tt, set_nodes (<[cur ++ [x] := File data]> (nodes s)) s)
        end
    end.
Proof.
  intros Hplain. unfold writeFile, start, target.
  assert (Hne : init ++ [x] <> []) by (by destruct init).
  pose proof (path_of_not_empty absolute _ Hplain Hne) as Hp.
  apply String.eqb_neq in Hp. rewrite Hp.
  rewrite components_path_of, isAbsolute_path_of, trailingSeparator_path_of by done.
  rewrite rev_app_distr. cbn [rev app]. rewrite rev_involutive, app_nil_r.
  apply Forall_app in Hplain as [_ Hx].
  inversion Hx as [|? ? Hx' _]; subst.
  apply plain_segment_facts in Hx' as (_ & H1 & H2 & _).
  apply String.eqb_neq in H1, H2. rewrite H1, H2. cbn [orb].
  destruct (walk s _ init) as [cur|e]; [|done].
  by destruct (node_at s (cur ++ [x])) as [[|d]|].
Qed.

End Publish.

(* ===================================================================== *)
(** * Short ids as file names *)
(* ===================================================================== *)

Module Names.
Import path base58 PathFacts Base58Facts.

Lemma ALPHABET_name d :
  isSlash (ALPHABET d) = false /\ Ascii.eqb (ALPHABET d) "."%char = false.
Proof.
  assert (H : List.Forall (fun c => isSlash c = false /\ Ascii.eqb c "."%char = false)
                ("1"%char :: list_ascii_of_string alphabet))
    by (repeat constructor).
  rewrite List.Forall_forall in H. apply H. unfold ALPHABET.
  destruct (nth_in_or_default (N.to_nat d) (list_ascii_of_string alphabet) "1"%char)
    as [Hin| ->]; [by right|by left].
Qed.

Lemma no_slash_weaken s :
  string_forallb (fun c => negb (isSlash c) && negb (Ascii.eqb c "."%char)) s = true ->
  string_forallb (fun c => negb (isSlash c)) s = true.
Proof.
  induction s as [|c s IH]; [done|]. cbn [string_forallb].
  intros [[Hc _]%andb_prop Hs]%andb_prop. rewrite Hc. by apply IH.
Qed.

(** A non-empty string without slashes and dots is a name. *)
Lemma name_plain s :
  s <> "" ->
  string_forallb (fun c => negb (isSlash c) && negb (Ascii.eqb c "."%char)) s = true ->
  plain_segment s = true.
Proof.
  intros Hs H. pose proof (no_slash_weaken s H) as Hn.
  destruct s as [|c s]; [done|]. cbn [string_forallb] in H.
  apply andb_prop in H as [[_ Hc]%andb_prop _]. apply negb_true_iff in Hc.
  unfold plain_segment. rewrite Hn. cbn [String.eqb]. by rewrite Hc.
Qed.

Lemma string_forallb_list p l :
  string_forallb p (string_of_list_ascii l) = forallb p l.
Proof. induction l as [|c l IH]; [done|]. cbn. by rewrite IH. Qed.

Lemma number_head_nonzero d ds : d <> 0%N -> number 256 (d :: ds) <> 0%N.
Proof.
  intros Hd. induction ds as [|x ds IH] using rev_ind.
  - unfold number. cbn. lia.
  - rewrite app_comm_cons, (number_snoc 256). lia.
Qed.

Lemma encode_not_empty buffer : buffer <> [] -> encode buffer <> "".
Proof.
  intros Hb. unfold encode.
  destruct buffer as [|b rest]; [done|]. cbn [leading].
  destruct (N.eqb_spec (Byte.to_N b) 0) as [E|E]; [done|].
  cbn [repeat drop app map].
  pose proof (number_digits 58 ltac:(lia) (number 256 (Byte.to_N b :: map Byte.to_N rest)))
    as Hn.
  pose proof (number_head_nonzero (Byte.to_N b) (map Byte.to_N rest) E) as Hz.
  destruct (digits 58 _) as [|d ds]; [|done].
  by rewrite <- Hn in Hz.
Qed.

(** The encoding of a non-empty buffer is a name. *)
Lemma encode_name buffer : buffer <> [] -> plain_segment (encode buffer) = true.
Proof.
  intros Hb. apply name_plain; [by apply encode_not_empty|].
  unfold encode. rewrite string_forallb_list, forallb_app.
  apply andb_true_intro. split.
  - apply forallb_forall. intros c ->%repeat_spec. reflexivity.
  - apply forallb_forall. intros c (d & <- & _)%in_map_iff.
    destruct (ALPHABET_name d) as [-> ->]. reflexivity.
Qed.

End Names.

Section Pages.
Import git nodegit repository.
Import path fs publish PathFacts FsFacts Mkdirp Publish Names.
Context (P : node.Platform).

(** X18.  The record of a commit whose header sets no [shortId] has a
    file name for its [shortId], so the page that [publish] names for
    it is [index.html] in the directory of that name right below the
    output directory. *)
Theorem record_page_path this pub c w r f absolute segs :
  wf_odb (odb w) -> In (CommitObject c) (odb w) ->
  (_formatRedirectCommit P this c w).1 = Return r ->
  gray_matter.matter (trim (message c)) = Return f ->
  gray_matter.data f !! "shortId" = None ->
  directory pub = path_of absolute segs ->
  Forall (fun seg => plain_segment seg = true) segs ->
  (segs = [] -> absolute = false) ->
  exists sid, r !! "shortId" = Some (VString sid) /\ plain_segment sid = true
              /\ redirectPath pub r
                 = Done (path_of absolute (segs ++ [sid; "index.html"])).
Proof.
  intros Hwf Hin Hr Hf Hnone Hdir Hsegs Habs.
  destruct (derived_shortId P this c w r f Hwf Hin Hr Hf Hnone)
    as (L & HL & Hev & _ & Hs).
  assert (Hoid : is_oid (id c) = true)
    by apply (Resolver.wf_odb_oid _ (CommitObject c) Hwf Hin).
  pose proof (Resolver.is_oid_length _ Hoid) as Hlen.
  assert (Hname : plain_segment (base58.encode (Buffer.from_hex (slice0 L (id c)))) = true).
  { apply encode_name. intros E.
    pose proof (BufferFacts.toString_hex_from_hex (slice0 L (id c))) as Hth.
    rewrite E in Hth. cbn [Buffer.toString_hex] in Hth.
    assert (Hl : String.length (slice0 L (id c)) = 0%nat).
    { rewrite <- Hth; [done| |].
      - by apply BufferFacts.isLowerHex_slice0, Resolver.is_oid_hex.
      - apply Resolver.Even_slice0_length; [done|lia]. }
    rewrite BufferFacts.length_slice0 in Hl. lia. }
  eexists. split; [exact Hs|]. split; [exact Hname|].
  unfold redirectPath. rewrite Hs, Hdir. by rewrite join_page.
Qed.

(** X19.  On a writable, well-formed file system [publish] of a record
    whose [shortId] is a file name fulfils, when no regular file stands
    on the way to the directory of that name below the output directory
    and the page is no directory.  Afterwards the page holds what the
    template makes of the record, its path is the one line added to
    the console, every other node that existed is unchanged, and what
    else is new is a directory on the way to the page. *)
Theorem publish_writes_page pub r sid s absolute segs fuel :
  wf s -> read_only s = false ->
  directory pub = path_of absolute segs ->
  Forall (fun seg => plain_segment seg = true) segs ->
  (segs = [] -> absolute = false) ->
  r !! "shortId" = Some (VString sid) -> plain_segment sid = true ->
  (forall k data,
     node_at s (target s absolute (take k (segs ++ [sid]))) <> Some (File data)) ->
  node_at s (target s absolute (segs ++ [sid; "index.html"])) <> Some Dir ->
  (S (List.length segs) <= fuel)%nat ->
  exists s',
    publish fuel pub r s = Some (Done tt, s')
    /\ nodes s' !! target s absolute (segs ++ [sid; "index.html"])
       = Some (File (template pub r))
    /\ console s' = (console s ++ [path_of absolute (segs ++ [sid; "index.html"])])%list
    /\ (forall q n, nodes s !! q = Some n ->
          q <> target s absolute (segs ++ [sid; "index.html"]) ->
          nodes s' !! q = Some n)
    /\ (forall q, nodes s !! q = None -> is_Some (nodes s' !! q) ->
          q = target s absolute (segs ++ [sid; "index.html"])
          \/ (nodes s' !! q = Some Dir
              /\ exists k, (1 <= k <= S (List.length segs))%nat
                           /\ q = target s absolute (take k (segs ++ [sid])))).
Proof.
  intros Hwf Hro Hdir Hsegs Habs Hsid Hname Hnofile Hpage Hfuel.
  assert (Hdirs : Forall (fun seg => plain_segment seg = true) (segs ++ [sid])).
  { apply Forall_app. split; [done|]. by repeat constructor. }
  assert (Hall : Forall (fun seg => plain_segment seg = true)
                   ((segs ++ [sid]) ++ ["index.html"])).
  { apply Forall_app. split; [done|]. by repeat constructor. }
  assert (Hne : segs ++ [sid] <> []) by (by destruct segs).
  assert (Epage : segs ++ [sid; "index.html"] = (segs ++ [sid]) ++ ["index.html"])
    by (by rewrite <- app_assoc).
  rewrite Epage in *.
  unfold publish, redirectPath. rewrite Hsid, Hdir, join_page by done. rewrite Epage.
  rewrite dirname_snoc by done.
  set (page := path_of absolute ((segs ++ [sid]) ++ ["index.html"])).
  unfold bind at 1, call at 1. cbv beta iota.
  assert (Hwf0 : wf (log page s)) by exact Hwf.
  destruct (mkdirp_plain absolute (segs ++ [sid]) (log page s) fuel Hwf0 Hro Hdirs Hne)
    as [(s1 & Em & Hmade & Hwf1)|(_ & k & data & _ & Hfile)].
  { rewrite length_app. simpl. lia. }
  2:{ by apply Hnofile in Hfile. }
  unfold bind at 1. rewrite Em. unfold call. cbv beta iota.
  pose proof Hmade as (Hcwd & Hro1 & Hcon & Hsub & Hnew & Hway).
  change (cwd (log page s)) with (cwd s) in Hcwd.
  change (read_only (log page s)) with (read_only s) in Hro1.
  change (nodes (log page s)) with (nodes s) in Hsub, Hnew.
  change (console (log page s)) with (console s ++ [page])%list in Hcon.
  change (target (log page s)) with (target s) in Hnew, Hway.
  assert (Ht : forall l, target s1 absolute l = target s absolute l)
    by (intros l; by apply target_same).
  (* every step of the way is a directory *)
  assert (Hstep : forall k, (1 <= k <= List.length (segs ++ [sid]))%nat ->
            node_at s1 (target s1 absolute [] ++ take k (segs ++ [sid])) = Some Dir).
  { intros k Hk. rewrite target_nil_app, Ht.
    destruct (Hway k Hk) as [n Hn]. specialize (Hnofile k).
    destruct (target s absolute (take k (segs ++ [sid]))) as [|x q] eqn:Eq; [done|].
    cbn [node_at] in *.
    destruct (nodes s !! (x :: q)) as [[|data]|] eqn:Em0.
    - by apply (lookup_weaken (nodes s)).
    - by destruct (Hnofile data).
    - apply Hnew; [done|by exists n]. }
  unfold page. rewrite writeFile_plain by done.
  rewrite (walk_dirs s1 (segs ++ [sid]) (target s1 absolute []) Hdirs Hstep).
  rewrite target_nil_app, Ht, node_at_snoc.
  set (file := target s absolute (segs ++ [sid]) ++ ["index.html"]).
  assert (Efile : target s absolute ((segs ++ [sid]) ++ ["index.html"]) = file)
    by (unfold file, target; by rewrite !app_assoc).
  rewrite Efile in *. unfold file in Hpage. rewrite node_at_snoc in Hpage. fold file in Hpage.
  assert (Hnd : nodes s1 !! file <> Some Dir).
  { intros Hd. destruct (nodes s !! file) as [m|] eqn:Em0.
    - pose proof (lookup_weaken _ _ _ _ Em0 Hsub) as Hm. congruence.
    - destruct (Hnew file Em0 ltac:(by exists Dir)) as (_ & k & Hk & Hq).
      apply (f_equal List.length) in Hq. unfold file, target in Hq.
      rewrite !length_app, length_take in Hq. cbn [List.length] in Hq.
      rewrite length_app in Hk, Hq. cbn [List.length] in Hk, Hq. lia. }
  rewrite Hro1, Hro.
  exists (set_nodes (<[file := File (template pub r)]> (nodes s1)) s1).
  split; [by destruct (nodes s1 !! file) as [[|d]|]|].
  split; [cbn [nodes set_nodes]; by rewrite lookup_insert_eq|].
  split; [exact Hcon|]. split.
  - intros q n Hq Hne'. cbn [nodes set_nodes]. rewrite lookup_insert_ne by done.
    by apply (lookup_weaken (nodes s)).
  - intros q Hq Hs'. destruct (decide (q = file)) as [->|Hne']; [by left|right].
    cbn [nodes set_nodes] in *. rewrite lookup_insert_ne in * by done.
    destruct (Hnew q Hq Hs') as (Hd & k & Hk & Ek). split; [done|].
    exists k. split; [|done]. rewrite length_app in Hk. simpl in Hk. lia.
Qed.

End Pages.

(* ===================================================================== *)
(** * Slashes in normalised paths *)
(* ===================================================================== *)

Module Slashes.
Import path PathFacts Publish.

Lemma split_no_slash p :
  Forall (fun seg => string_forallb (fun c => negb (isSlash c)) seg = true) (split p).
Proof.
  induction p as [|c p IH]; [by repeat constructor|]. cbn [split].
  destruct (isSlash c) eqn:Ec; [by constructor|].
  destruct (split p) as [|l ls]; [repeat constructor; cbn; by rewrite Ec|].
  apply Forall_cons in IH as [Hl Hls]. constructor; [|done].
  cbn [string_forallb]. by rewrite Ec, Hl.
Qed.

Lemma step_kept a res seg :
  Forall (fun s => s <> "" /\ string_forallb (fun c => negb (isSlash c)) s = true) res ->
  string_forallb (fun c => negb (isSlash c)) seg = true ->
  Forall (fun s => s <> "" /\ string_forallb (fun c => negb (isSlash c)) s = true)
    (normalize_step a res seg).
Proof.
  intros Hres Hseg. unfold normalize_step.
  destruct (String.eqb_spec seg "") as [|H0]; [done|]. cbn [orb].
  destruct (String.eqb seg "."); [done|].
  destruct (String.eqb_spec seg "..") as [->|_].
  - destruct res as [|top rest].
    + destruct a; by repeat constructor.
    + destruct (String.eqb top ".."); [destruct a|].
      * by constructor.
      * done.
      * by apply Forall_cons in Hres as [_ ?].
  - by constructor.
Qed.

Lemma fold_kept a l : forall res,
  Forall (fun s => s <> "" /\ string_forallb (fun c => negb (isSlash c)) s = true) res ->
  Forall (fun seg => string_forallb (fun c => negb (isSlash c)) seg = true) l ->
  Forall (fun s => s <> "" /\ string_forallb (fun c => negb (isSlash c)) s = true)
    (fold_left (normalize_step a) l res).
Proof.
  induction l as [|seg l IH]; intros res Hres Hl; [done|].
  apply Forall_cons in Hl as [Hseg Hl]. cbn [fold_left].
  apply IH; [|done]. by apply step_kept.
Qed.

Lemma adjacent_slashes_app a b :
  adjacent_slashes (a +:+ b)
  = adjacent_slashes a || adjacent_slashes b || (trailingSeparator a && isAbsolute b).
Proof.
  induction a as [|c a IH].
  - cbn. by rewrite orb_false_r.
  - rewrite Listing.append_cons. destruct a as [|d a].
    + destruct b as [|d b]; cbn; [by rewrite andb_false_r|].
      by rewrite orb_comm.
    + rewrite Listing.append_cons in *.
      change (adjacent_slashes (String c (String d (a +:+ b))))
        with ((isSlash c && isSlash d) || adjacent_slashes (String d (a +:+ b))).
      rewrite IH.
      change (adjacent_slashes (String c (String d a)))
        with ((isSlash c && isSlash d) || adjacent_slashes (String d a)).
      change (trailingSeparator (String c (String d a)))
        with (trailingSeparator (String d a)).
      by rewrite !orb_assoc.
Qed.

Lemma no_slash_facts s :
  string_forallb (fun c => negb (isSlash c)) s = true ->
  adjacent_slashes s = false /\ isAbsolute s = false /\ trailingSeparator s = false.
Proof.
  induction s as [|c s IH]; [done|]. cbn [string_forallb].
  intros [Hc Hs]%andb_prop. apply negb_true_iff in Hc.
  destruct (IH Hs) as (Ha & _ & Ht). split; [|split].
  - destruct s as [|d s]; [done|].
    change (adjacent_slashes (String c (String d s)))
      with ((isSlash c && isSlash d) || adjacent_slashes (String d s)).
    by rewrite Hc, Ha.
  - done.
  - by destruct s.
Qed.

Lemma isAbsolute_app a b : a <> "" -> isAbsolute (a +:+ b) = isAbsolute a.
Proof. by destruct a. Qed.

Lemma append_not_empty a b : a <> "" -> a +:+ b <> "".
Proof. by destruct a. Qed.

(** Names joined by single slashes. *)
Lemma join_segments_slashes segs :
  Forall (fun s => s <> "" /\ string_forallb (fun c => negb (isSlash c)) s = true) segs ->
  segs <> [] ->
  join_segments segs <> ""
  /\ adjacent_slashes (join_segments segs) = false
  /\ isAbsolute (join_segments segs) = false
  /\ trailingSeparator (join_segments segs) = false.
Proof.
  induction 1 as [|x segs [Hx Hs] Hsegs IH]; [done|]. intros _.
  destruct (no_slash_facts x Hs) as (Ha & Hb & Ht).
  destruct segs as [|y segs]; [done|].
  destruct IH as (Hne & Ha' & Hb' & Ht'); [done|].
  change (join_segments (x :: y :: segs))
    with (x +:+ String "/" (join_segments (y :: segs))).
  split; [by apply append_not_empty|]. split; [|split].
  - rewrite adjacent_slashes_app, Ha, Ht. cbn [orb andb].
    change (String "/" (join_segments (y :: segs)))
      with ("/" +:+ join_segments (y :: segs)).
    rewrite adjacent_slashes_app, Ha', Hb'. reflexivity.
  - by rewrite isAbsolute_app.
  - change (String "/" (join_segments (y :: segs)))
      with ("/" +:+ join_segments (y :: segs)).
    rewrite <- Message.append_assoc. by rewrite trailingSeparator_app.
Qed.

(** [path.normalize] leaves no two slashes in a row. *)
Lemma normalize_slashes p : adjacent_slashes (normalize p) = false.
Proof.
  unfold normalize. destruct p as [|c p]; [done|].
  set (q := String c p). unfold normalizeString.
  pose proof (fold_kept (negb (isAbsolute q)) (split q) [] ltac:(constructor)
                (split_no_slash q)) as Hk.
  apply Forall_rev in Hk.
  destruct (rev (fold_left (normalize_step (negb (isAbsolute q))) (split q) []))
    as [|x segs] eqn:E.
  { cbn [join_segments]. by destruct (isAbsolute q), (trailingSeparator q). }
  destruct (join_segments_slashes (x :: segs) Hk ltac:(done)) as (Hne & Ha & Hb & Ht).
  destruct (join_segments (x :: segs)) as [|d n] eqn:En; [done|]. rewrite <- En in *.
  assert (Hn : adjacent_slashes
                 (if trailingSeparator q then join_segments (x :: segs) +:+ "/"
                  else join_segments (x :: segs)) = false
               /\ isAbsolute
                    (if trailingSeparator q then join_segments (x :: segs) +:+ "/"
                     else join_segments (x :: segs)) = false).
  { destruct (trailingSeparator q); [|done]. split.
    - rewrite adjacent_slashes_app, Ha, Ht. reflexivity.
    - by rewrite isAbsolute_app. }
  destruct Hn as [Hn1 Hn2]. destruct (isAbsolute q); [|done].
  match goal with
  | |- adjacent_slashes (String "/" ?n) = false =>
      change (String "/" n) with ("/" +:+ n);
      rewrite adjacent_slashes_app, Hn1, Hn2
  end.
  reflexivity.
Qed.

Lemma join_slashes args : adjacent_slashes (join args) = false.
Proof.
  unfold join. destruct (List.filter _ args); [done|]. apply normalize_slashes.
Qed.

End Slashes.

Section PublishReadOnly.
Import path fs publish PathFacts FsFacts Mkdirp Publish.

(** X20.  On a read-only file system [publish] never settles when the
    output directory is missing and no regular file stands on the way
    to it: it neither writes the page nor rejects. *)
Theorem publish_read_only_never_settles pub r sid s absolute segs fuel :
  wf s -> read_only s = true ->
  directory pub = path_of absolute segs ->
  Forall (fun seg => plain_segment seg = true) segs ->
  r !! "shortId" = Some (repository.VString sid) -> plain_segment sid = true ->
  (forall k data, node_at s (target s absolute (take k segs)) <> Some (File data)) ->
  node_at s (target s absolute segs) = None ->
  publish fuel pub r s = None.
Proof.
  intros Hwf Hro Hdir Hsegs Hsid Hname Hnofile Hnone.
  assert (Hne : segs <> []).
  { intros ->. unfold target in Hnone. rewrite app_nil_r in Hnone.
    destruct Hwf as [_ Hcwd]. destruct absolute; [done|]. by rewrite Hcwd in Hnone. }
  assert (Hdirs : Forall (fun seg => plain_segment seg = true) (segs ++ [sid])).
  { apply Forall_app. split; [done|]. by repeat constructor. }
  assert (Epage : segs ++ [sid; "index.html"] = (segs ++ [sid]) ++ ["index.html"])
    by (by rewrite <- app_assoc).
  unfold publish, redirectPath. rewrite Hsid, Hdir, join_page by done. rewrite Epage.
  rewrite dirname_snoc by (done || by destruct segs).
  unfold bind at 1, call at 1. cbv beta iota. unfold bind at 1.
  by rewrite (mkdirp_read_only _ absolute fuel segs sid).
Qed.

End PublishReadOnly.

Section ShortUrls.
Import git nodegit repository.
Context (P : node.Platform).

(** X21.  Where the platform joins paths as POSIX [path.join] does, the
    [shortUrl] that [_getShortUrl] computes has no two slashes in a
    row: the [//] after the scheme of the base URL is joined into
    one. *)
Theorem shortUrl_single_slashes this sid w u w' :
  (forall a b, node.path_join P a b = path.join [a; b]) ->
  _getShortUrl P this (Some sid) w = (Return (VString u), w') ->
  path.adjacent_slashes u = false.
Proof.
  intros Hjoin. unfold _getShortUrl.
  assert (Hp : forall a w0 w1,
             bind (path_join P a (Some sid)) (fun u0 => ret (VString u0)) w0
             = (Return (VString u), w1) ->
             path.adjacent_slashes u = false).
  { intros a w0 w1 [= <- _]. rewrite Hjoin. apply Slashes.join_slashes. }
  destruct (baseUrl this) as [[|c b]|]; [|by apply Hp| ].
  all: intros (? & w1 & _ & H)%Traversal.bind_inv_eq.
  all: apply Traversal.bind_inv_eq in H as (url & w2 & _ & H).
  all: destruct (node.github_remote P url) as [[username repo]|]; [by apply Hp in H|done].
Qed.

End ShortUrls.

Lemma record_page_path_witness :
  exists r sid,
    (repository._formatRedirectCommit Examples.platform Examples.this Examples.second
       Examples.world).1 = Return r
    /\ r !! "shortId" = Some (repository.VString sid)
    /\ path.plain_segment sid = true
    /\ publish.redirectPath Posix.publisher r
       = fs.Done (path.path_of false (["www"] ++ [sid; "index.html"])).
Proof.
  destruct (repository._formatRedirectCommit Examples.platform Examples.this Examples.second
              Examples.world).1 as [r|e] eqn:E.
  2:{ exfalso.
      assert (H : is_Some (returned
                    (repository._formatRedirectCommit Examples.platform Examples.this
                       Examples.second Examples.world).1))
        by (apply (bool_decide_unpack _); vm_compute; exact I).
      rewrite E in H. by destruct H. }
  destruct (record_page_path Examples.platform Examples.this Posix.publisher
              Examples.second Examples.world r
              {| gray_matter.content := "";
                 gray_matter.data := {[ "url" := "http://b.example/" ]} |}
              false ["www"])
    as (sid & Hs & Hn & Hp).
  - apply (bool_decide_unpack _). vm_compute. exact I.
  - right. left. reflexivity.
  - exact E.
  - vm_compute. reflexivity.
  - reflexivity.
  - reflexivity.
  - repeat constructor.
  - discriminate.
  - exists r, sid. split; [reflexivity|]. split; [exact Hs|]. split; [exact Hn|exact Hp].
Defined.

Lemma publish_writes_page_witness :
  exists s',
    publish.publish 2 Posix.publisher
      {[ "shortId" := repository.VString "E25";
         "url" := repository.VString "http://b.example/" ]} Disks.disk
    = Some (fs.Done tt, s')
    /\ fs.nodes s' !! fs.target Disks.disk false (["www"] ++ ["E25"; "index.html"])
       = Some (fs.File (publish.template Posix.publisher
                          {[ "shortId" := repository.VString "E25";
                             "url" := repository.VString "http://b.example/" ]}))
    /\ fs.console s'
       = (fs.console Disks.disk
          ++ [path.path_of false (["www"] ++ ["E25"; "index.html"])])%list
    /\ (forall q n, fs.nodes Disks.disk !! q = Some n ->
          q <> fs.target Disks.disk false (["www"] ++ ["E25"; "index.html"]) ->
          fs.nodes s' !! q = Some n)
    /\ (forall q, fs.nodes Disks.disk !! q = None -> is_Some (fs.nodes s' !! q) ->
          q = fs.target Disks.disk false (["www"] ++ ["E25"; "index.html"])
          \/ (fs.nodes s' !! q = Some fs.Dir
              /\ exists k, (1 <= k <= S (List.length ["www"]))%nat
                           /\ q = fs.target Disks.disk false (take k (["www"] ++ ["E25"])))).
Proof.
  apply (publish_writes_page Posix.publisher _ "E25" Disks.disk false ["www"] 2).
  - apply (bool_decide_unpack _). vm_compute. exact I.
  - reflexivity.
  - reflexivity.
  - repeat constructor.
  - discriminate.
  - vm_compute. reflexivity.
  - reflexivity.
  - intros [|[|[|k]]] data; vm_compute; discriminate.
  - vm_compute. discriminate.
  - simpl. lia.
Defined.

Lemma publish_read_only_never_settles_witness :
  publish.publish 1000
    {| publish.directory := "out"; publish.template := publish.template Posix.publisher |}
    {[ "shortId" := repository.VString "E25" ]} Disks.disk_read_only
  = None.
Proof.
  apply (publish_read_only_never_settles _ _ "E25" Disks.disk_read_only false ["out"] 1000).
  - apply (bool_decide_unpack _). vm_compute. exact I.
  - reflexivity.
  - reflexivity.
  - repeat constructor.
  - vm_compute. reflexivity.
  - reflexivity.
  - intros [|[|k]] data; vm_compute; discriminate.
  - reflexivity.
Defined.

Lemma shortUrl_single_slashes_witness :
  repository._getShortUrl Posix.platform Posix.this (Some "E25") Examples.world
  = (Return (repository.VString "https:/sho.rt/l/E25"), Examples.world)
  /\ path.adjacent_slashes "https:/sho.rt/l/E25" = false.
Proof.
  assert (H : repository._getShortUrl Posix.platform Posix.this (Some "E25") Examples.world
              = (Return (repository.VString "https:/sho.rt/l/E25"), Examples.world))
    by reflexivity.
  split; [exact H|].
  apply (shortUrl_single_slashes Posix.platform Posix.this "E25" Examples.world
           "https:/sho.rt/l/E25" Examples.world).
  - intros a b. reflexivity.
  - exact H.
Defined.
